(** * pyGSTi confidence regions: a shallow embedding of
    [packages/pygsti/objects/confidenceregion.py]

    The module turns a Hessian into a calibrated confidence region
    ([ConfidenceRegion.__init__]) and propagates that region through
    caller-supplied functions ([get_gate_fn_confidence_interval] and its two
    siblings, all ending in [_compute_df_from_gradF]).

    Conventions of the embedding.
    - Python floats and numpy [float64] entries are real numbers ([R]): the
      arithmetic is the exact one, rounding, infinities and NaN are left out.
    - A 1-D numpy array is a [list R]; a 2-D array is the list of its rows.
    - Python exceptions are values of [exn]; a call either returns or raises,
      and it runs in a world made of the object store (the gate-set objects
      the region refers to and copies) and the sequence of observable events
      (warnings, prints, calls of the eigen-solver).
    - numpy, scipy and the optimizer are collaborators: their functions are
      fields of [Providers].  The gate-set class lives in [gateset.py], which
      is not among the sources at hand; [GateSetAPI] lists the methods this
      module calls on it. *)

From Stdlib Require Import Reals Lra Lia ZArith Permutation Sorted.
From stdpp Require Import base option list gmap strings pretty.

(** ** Real numbers as Python floats *)

#[global] Instance Rlt_decision : RelDecision Rlt := Rlt_dec.
#[global] Instance Rle_decision : RelDecision Rle := Rle_dec.
#[global] Instance Rgt_decision : RelDecision Rgt := Rgt_dec.
#[global] Instance Req_decision : EqDecision R := Req_dec_T.

(** [numpy.isclose(a, b)] with its default tolerances
    [rtol = 1e-05], [atol = 1e-08]. *)
Definition isclose (a b : R) : bool :=
  bool_decide (Rabs (a - b) <= 1e-8 + 1e-5 * Rabs b)%R.

(** Complex entries ([numpy.complex128]) as pairs (real part, imaginary part). *)
Definition complex : Type := R * R.
Definition creal (z : complex) : R := z.1.
Definition cimag (z : complex) : R := z.2.
Definition csub (a b : complex) : complex := ((a.1 - b.1)%R, (a.2 - b.2)%R).
Definition cdivr (a : complex) (x : R) : complex := ((a.1 / x)%R, (a.2 / x)%R).

(** ** Python exceptions *)

Inductive exn : Type :=
  | ValueError (msg : string)
  | AssertionError
  | KeyError (key : string)
  | IndexError
  | TypeError.

(** ** numpy arrays *)

Abbreviation vector := (list R).
Abbreviation matrix := (list (list R)).

Definition nrows (A : matrix) : nat := length A.
Definition ncols (A : matrix) : nat :=
  match A with [] => 0 | r :: _ => length r end.

(** [A[i,j]] where it exists. *)
Definition entry (A : matrix) (i j : nat) : R := nth j (nth i A []) 0%R.

(** [sum(f(k) for k in range(n))] *)
Definition rsum (n : nat) (f : nat -> R) : R :=
  foldr Rplus 0%R (map f (seq 0 n)).

Definition tabulate {X : Type} (n : nat) (f : nat -> X) : list X :=
  map f (seq 0 n).

Definition mx_of_fun (n m : nat) (f : nat -> nat -> R) : matrix :=
  tabulate n (fun i => tabulate m (fun j => f i j)).

(** [numpy.zeros(n)], [numpy.diag(v)], [numpy.transpose(A)].
    [numpy.conjugate] is the identity on real arrays. *)
Definition zeros (n : nat) : vector := replicate n 0%R.
Definition diag (v : vector) : matrix :=
  mx_of_fun (length v) (length v)
    (fun i j => if decide (i = j) then nth i v 0%R else 0%R).
Definition transpose (A : matrix) : matrix :=
  mx_of_fun (ncols A) (nrows A) (fun i j => entry A j i).
Definition conjugate (A : matrix) : matrix := A.

(** The three shapes of [numpy.dot] this module uses, on aligned operands. *)
Definition vdot (u v : vector) : R :=
  rsum (length u) (fun k => nth k u 0 * nth k v 0)%R.
Definition mvdot (A : matrix) (v : vector) : vector :=
  tabulate (nrows A) (fun i => rsum (ncols A) (fun k => entry A i k * nth k v 0)%R).
Definition mmdot (A B : matrix) : matrix :=
  mx_of_fun (nrows A) (ncols B)
    (fun i j => rsum (ncols A) (fun k => entry A i k * entry B k j)%R).

(** [A / c], entry by entry. *)
Definition mx_div (A : matrix) (c : R) : matrix :=
  map (map (fun x => x / c)%R) A.

(** Arrays of any number of dimensions, as returned by the caller's
    functions: the shape and the entries in row-major order. *)
Record ndarray (X : Type) : Type := NdArray { shape : list nat; data : list X }.
Arguments NdArray {X} _ _.
Arguments shape {X} _.
Arguments data {X} _.

(** What a caller-supplied function returns: a Python [float], or an array
    whose [dtype] is [float64] or [complex128].  Such a function is a
    function of the value it is given: it mutates nothing. *)
Inductive fval : Type :=
  | PyFloat (x : R)
  | RealArray (a : ndarray R)
  | ComplexArray (a : ndarray complex).

(** [gradF]: for a float [f0] a vector with one entry per parameter; for an
    array [f0] of shape [S] an array of shape [(nParams,) + S], kept as one
    row-major block of [S] per parameter. *)
Inductive gradient : Type :=
  | GradFloat (g : vector)
  | GradReal (rows : list (list R))
  | GradComplex (rows : list (list complex)).

(** ** Python sequences *)

(** [enumerate(l)] *)
Definition enumerate {X : Type} (l : list X) : list (nat * X) :=
  zip (seq 0 (length l)) l.

(** [sorted(l, key=key)]: Python's sort is stable and compares keys with [<].
    Insertion from the right keeps equal keys in their original order. *)
Fixpoint insert_by_key {X : Type} (key : X -> R) (x : X) (l : list X) : list X :=
  match l with
  | [] => [x]
  | y :: l' =>
      if decide (key y < key x)%R then y :: insert_by_key key x l' else x :: l
  end.

Definition sorted {X : Type} (key : X -> R) (l : list X) : list X :=
  foldr (insert_by_key key) [] l.

(** [l[k:]] for a Python integer [k]: a negative [k] counts from the end. *)
Definition slice_from {X : Type} (k : Z) (l : list X) : list X :=
  if decide (k < 0)%Z then drop (length l - Z.to_nat (- k)) l
  else drop (Z.to_nat k) l.

(** [l[start:end]] for non-negative bounds. *)
Definition slice {X : Type} (start stop : nat) (l : list X) : list X :=
  take (stop - start) (drop start l).

(** ** The gate-set collaborator *)

(** The [gates] parameterization flag is a bool, or a list or tuple of gate
    labels; [G0], [SPAM] and [SP0] are bools. *)
Inductive gates_flag : Type :=
  | GatesBool (b : bool)
  | GatesList (labels : list string)
  | GatesTuple (labels : list string).

Record flags : Type :=
  Flags { fl_gates : gates_flag; fl_G0 : bool; fl_SPAM : bool; fl_SP0 : bool }.

(** Modelled from the spec: the GateSet and Gate classes of [gateset.py] and
    [gate.py], which are not among the sources.  Section 6 of the spec lists
    what the estimate must provide: the non-gauge projector (with an optional
    mixing matrix), the parameter count, the label-to-offset map, the gate
    matrices by label, deep-copyable gate and gate-set objects with
    vector-valued get and set of their parameters, and the lists of
    state-preparation and measurement vectors with a per-object set.
    [GS] and [Gate] are the states of such objects; a method that mutates its
    receiver is the function from the old state to the new one. *)
Class GateSetAPI : Type := {
  GS : Type;
  Gate : Type;
  get_nongauge_projector : GS -> flags -> matrix;
  get_nongauge_projector_mix : GS -> matrix -> flags -> matrix;
  num_params : GS -> flags -> nat;
  get_vector_offsets : GS -> flags -> gmap string (nat * nat);
  gate_labels : GS -> list string;
  getitem : GS -> string -> option matrix;
  get_gate : GS -> string -> option Gate;
  gate_num_params : Gate -> bool -> nat;
  gate_to_vector : Gate -> bool -> vector;
  gate_from_vector : Gate -> vector -> bool -> Gate;
  gate_matrix : Gate -> matrix;
  to_vector : GS -> flags -> vector;
  from_vector : GS -> vector -> flags -> GS;
  get_rhovecs : GS -> list vector;
  get_evecs : GS -> list vector;
  rhoVecs : GS -> list vector;
  EVecs : GS -> list vector;
  set_rhovec : GS -> vector -> nat -> GS;
  set_evec : GS -> vector -> nat -> GS
}.

(** ** Worlds, and computations that may raise *)

Abbreviation loc := nat (only parsing).

Section Monad.
Context `{GateSetAPI}.

Inductive obj : Type :=
  | ObjGateSet (gs : GS)
  | ObjGate (g : Gate).

Inductive printed : Type :=
  | PrStr (s : string)
  | PrGradF (g : gradient)
  | PrDf (df : fval)
  | PrMin (v : R).

Inductive event : Type :=
  | EvWarn (level : R)
  | EvPrint (line : printed)
  | EvEigh (Q : matrix).

Record world : Type :=
  World { heap : gmap loc obj; events : list event }.

Definition M (A : Type) : Type := world -> world * (exn + A).

#[global] Instance M_ret : MRet M := fun A a w => (w, inr a).
#[global] Instance M_bind : MBind M := fun A B k m w =>
  match m w with
  | (w', inr a) => k a w'
  | (w', inl e) => (w', inl e)
  end.

Definition raise {A : Type} (e : exn) : M A := fun w => (w, inl e).

Definition emit (e : event) : M unit :=
  fun w => (World (heap w) (events w ++ [e]), inr tt).

Definition from_option {A : Type} (e : exn) (o : option A) : M A :=
  match o with Some a => mret a | None => raise e end.

(** [assert(b)] *)
Definition assert_ (b : bool) : M unit :=
  if b then mret tt else raise AssertionError.

(** [if b: body] *)
Definition when_ (b : bool) (body : M unit) : M unit :=
  if b then body else mret tt.

(** [for x in xs: s = body(s, x)] *)
Fixpoint for_ {X S : Type} (xs : list X) (body : S -> X -> M S) (s : S) : M S :=
  match xs with
  | [] => mret s
  | x :: xs' => s' ← body s x; for_ xs' body s'
  end.

(** Modelled from the spec: [copy()] of the gate and gate-set classes, which
    section 6 of the spec requires to be deep: it makes a new object, in the
    state [o] of the one copied, sharing nothing with it. *)
Definition copy (o : obj) : M loc := fun w =>
  let l := fresh (dom (heap w)) in
  (World (<[l := o]> (heap w)) (events w), inr l).

Definition read_gateset (l : loc) : M GS := fun w =>
  match heap w !! l with
  | Some (ObjGateSet gs) => (w, inr gs)
  | _ => (w, inl TypeError)
  end.

Definition read_gate (l : loc) : M Gate := fun w =>
  match heap w !! l with
  | Some (ObjGate g) => (w, inr g)
  | _ => (w, inl TypeError)
  end.

(** A mutating method of the object at [l]. *)
Definition mutate_gateset (l : loc) (f : GS -> GS) : M unit := fun w =>
  match heap w !! l with
  | Some (ObjGateSet gs) =>
      (World (<[l := ObjGateSet (f gs)]> (heap w)) (events w), inr tt)
  | _ => (w, inl TypeError)
  end.

Definition mutate_gate (l : loc) (f : Gate -> Gate) : M unit := fun w =>
  match heap w !! l with
  | Some (ObjGate g) =>
      (World (<[l := ObjGate (f g)]> (heap w)) (events w), inr tt)
  | _ => (w, inl TypeError)
  end.

(** [numpy.dot] raises a [ValueError] on operands whose shapes do not align. *)
Definition np_dot_mm (A B : matrix) : M matrix :=
  if decide (ncols A = nrows B) then mret (mmdot A B)
  else raise (ValueError "shapes not aligned").
Definition np_dot_mv (A : matrix) (v : vector) : M vector :=
  if decide (ncols A = length v) then mret (mvdot A v)
  else raise (ValueError "shapes not aligned").
Definition np_dot_vv (u v : vector) : M R :=
  if decide (length u = length v) then mret (vdot u v)
  else raise (ValueError "shapes not aligned").

(** [numpy.concatenate] of a list of 1-D arrays raises a [ValueError] on the
    empty list. *)
Definition np_concatenate (arrays : list vector) : M vector :=
  match arrays with
  | [] => raise (ValueError "need at least one array to concatenate")
  | _ => mret (concat arrays)
  end.

(** [A[i,j]] and [v[i] += x] raise an [IndexError] out of range. *)
Definition mx_get (A : matrix) (i j : nat) : M R :=
  from_option IndexError (row ← A !! i; row !! j).
Definition vec_iadd (v : vector) (i : nat) (x : R) : M vector :=
  match v !! i with
  | Some y => mret (<[i := (y + x)%R]> v)
  | None => raise IndexError
  end.

(** [v.reshape((r, c))]; [numpy.zeros((r, c)).flatten()].  Both raise a
    [ValueError] on a negative dimension (a [-1] that [reshape] would infer
    does not occur here: the second is called first). *)
Definition reshape (r : nat) (c : Z) (v : vector) : M matrix :=
  if decide ((0 <= c)%Z ∧ length v = r * Z.to_nat c) then
    mret (tabulate r (fun i => take (Z.to_nat c) (drop (i * Z.to_nat c) v)))
  else raise (ValueError "cannot reshape array").
Definition zeros_flat (r : nat) (c : Z) : M vector :=
  if decide (0 <= c)%Z then mret (zeros (r * Z.to_nat c))
  else raise (ValueError "negative dimensions are not allowed").

(** [[f(x) for x in xs]] *)
Fixpoint list_comp {X Y : Type} (f : X -> M Y) (xs : list X) : M (list Y) :=
  match xs with
  | [] => mret []
  | x :: xs' => y ← f x; ys ← list_comp f xs'; mret (y :: ys)
  end.

End Monad.

(** ** numpy, scipy and the optimizer *)

(** [minSol]: the fields of the optimizer's result that are read. *)
Record minsol : Type := MinSol { ms_x : vector; ms_fun : R }.

(** [P_RANK_TOL] is imported from [gateset.py]; [matrix_rank] and [eigh] are
    [numpy.linalg]'s, [chi2_ppf] and [norm_ppf] are [scipy.stats.chi2.ppf]
    and [scipy.stats.norm.ppf]: functions of their arguments, taken to
    return.  [minimize objective x0 method maxiter maxfev tol printer] is
    [_opt.minimize]; it calls the objective, which constructs regions, and so
    runs in [M] (it may raise, and what the objective does to the world
    happens); [printer] tells whether the callback made by
    [_opt.create_obj_func_printer] is passed, or [None]. *)
Class Providers `{GateSetAPI} : Type := {
  P_RANK_TOL : R;
  matrix_rank : matrix -> R -> nat;
  chi2_ppf : R -> nat -> R;
  norm_ppf : R -> R;
  eigh : matrix -> vector * matrix;
  minimize : (vector -> M R) -> vector -> string -> Z -> Z -> R -> bool -> M minsol
}.

(** ** ConfidenceRegion *)

Record ConfidenceRegion : Type := {
  nNonGaugeParams : nat;
  nGaugeParams : Z;
  regionQuadcForm : matrix;
  intervalScaling : R;
  invRegionQuadcForm : matrix;
  U : matrix;
  Udag : matrix;
  gateset_paramFlags : flags;
  gateset_offsets : gmap string (nat * nat);
  profLCI : vector;
  gateset : loc;
  level : R
}.

Section Region.
Context `{Providers}.
Local Open Scope R_scope.

(** [_np.linalg.eigh(Q)] *)
Definition np_eigh (Q : matrix) : M (vector * matrix) :=
  emit (EvEigh Q);; mret (eigh Q).

Definition get_gateset (self : ConfidenceRegion) : loc := gateset self.

Definition get_parameterization_flags (self : ConfidenceRegion) : flags :=
  gateset_paramFlags self.

Definition get_profile_likelihood_confidence_intervals
    (self : ConfidenceRegion) (label : option string) : M vector :=
  match label with
  | None => mret (profLCI self)
  | Some l =>
      '(start, stop) ← from_option (KeyError l) (gateset_offsets self !! l);
      mret (slice start stop (profLCI self))
  end.

(** Lines 66-76 of [__init__]: project the Hessian onto the non-gauge space.
    [optimal] is the call of [_optProjectionForGateCIs]. *)
Definition project_hessian (optimal : M matrix) (proj_non_gauge hessian : matrix)
    (hessianProjection : string) : M matrix :=
  if decide (hessianProjection = "none") then mret hessian
  else if decide (hessianProjection = "std") then
    HP ← np_dot_mm hessian proj_non_gauge;
    np_dot_mm proj_non_gauge HP
  else if decide (hessianProjection = "optimal gate CIs") then optimal
  else raise (ValueError
         ("Invalid value of hessianProjection argument: " +:+ hessianProjection)).

(** Lines 114-117: the ordering index of each eigenvalue, and the inverses of
    those past the first [nGaugeParams]. *)
Definition orderInds (evals : vector) : list nat :=
  (sorted (fun x => Rabs x.2) (enumerate evals)).*1.

Definition invEvals (nGaugeParams : Z) (evals : vector) : vector :=
  foldl (fun inv i => <[i := 1 / nth i evals 0]> inv)
    (zeros (length evals)) (slice_from nGaugeParams (orderInds evals)).

(** Lines 79-135 of [__init__]: from the projected Hessian to the region. *)
Definition init_from_projected (gateset : loc) (fl : flags)
    (nNonGaugeParams : nat) (nGaugeParams : Z) (confidenceLevel : R)
    (projected_hessian : matrix) : M ConfidenceRegion :=
  assert_ (bool_decide (confidenceLevel > 0) && bool_decide (confidenceLevel < 100));;
  when_ (bool_decide (confidenceLevel < 1)) (emit (EvWarn confidenceLevel));;
  let C1 := chi2_ppf (confidenceLevel / 100) 1 in
  let Ck := chi2_ppf (confidenceLevel / 100) nNonGaugeParams in
  let seScaleFctr := - norm_ppf ((1 - confidenceLevel / 100) / 2) in
  assert_ (isclose C1 (seScaleFctr ^ 2));;
  let regionQuadcForm := mx_div projected_hessian C1 in
  let intervalScaling := sqrt (Ck / C1) in
  '(evals, Um) ← np_eigh regionQuadcForm;
  let Udag := conjugate (transpose Um) in
  let invDiagQuadcForm := diag (invEvals nGaugeParams evals) in
  DU ← np_dot_mm invDiagQuadcForm Udag;
  invRegionQuadcForm ← np_dot_mm Um DU;
  gs ← read_gateset gateset;
  let offsets := get_vector_offsets gs fl in
  profLCI ← list_comp (fun k => x ← mx_get invRegionQuadcForm k k;
                                mret (sqrt (Rabs x)))
                      (seq 0 (length evals));
  mret {| nNonGaugeParams := nNonGaugeParams;
          nGaugeParams := nGaugeParams;
          regionQuadcForm := regionQuadcForm;
          intervalScaling := intervalScaling;
          invRegionQuadcForm := invRegionQuadcForm;
          U := Um; Udag := Udag;
          gateset_paramFlags := fl;
          gateset_offsets := offsets;
          profLCI := profLCI;
          gateset := gateset;
          level := confidenceLevel |}.

(** [ConfidenceRegion.__init__], with the call of [_optProjectionForGateCIs]
    (which constructs regions itself) as an argument. *)
Definition init_with
    (optProjection : loc -> matrix -> nat -> Z -> flags -> R -> Z -> M matrix)
    (gateset : loc) (hessian : matrix) (confidenceLevel : R)
    (fl : flags) (hessianProjection : string) : M ConfidenceRegion :=
  gs ← read_gateset gateset;
  let proj_non_gauge := get_nongauge_projector gs fl in
  let nNonGaugeParams := matrix_rank proj_non_gauge P_RANK_TOL in
  let nGaugeParams := (Z.of_nat (nrows hessian) - Z.of_nat nNonGaugeParams)%Z in
  projected_hessian ←
    project_hessian
      (optProjection gateset hessian nNonGaugeParams nGaugeParams fl
         confidenceLevel 3%Z)
      proj_non_gauge hessian hessianProjection;
  init_from_projected gateset fl nNonGaugeParams nGaugeParams confidenceLevel
    projected_hessian.

(** [objective_func], the closure of [_optProjectionForGateCIs]; [ctor] is
    [ConfidenceRegion(..., hessianProjection="none")]. *)
Definition objective_func
    (ctor : loc -> matrix -> R -> flags -> M ConfidenceRegion)
    (gateset : loc) (base_hessian : matrix) (nNonGaugeParams : nat)
    (nGaugeParams : Z) (fl : flags) (level : R) (vectorM : vector) : M R :=
  matM ← reshape nNonGaugeParams nGaugeParams vectorM;
  gs ← read_gateset gateset;
  let proj_extra := get_nongauge_projector_mix gs matM fl in
  HP ← np_dot_mm base_hessian proj_extra;
  projected_hessian_ex ← np_dot_mm proj_extra HP;
  ci ← ctor gateset projected_hessian_ex level fl;
  gs' ← read_gateset gateset;
  cis ← list_comp (fun gl => get_profile_likelihood_confidence_intervals ci (Some gl))
                  (gate_labels gs');
  gateCIs ← np_concatenate cis;
  mret (sqrt (foldr Rplus 0 (map (fun x => x ^ 2) gateCIs))).

Definition optProjectionForGateCIs_with
    (ctor : loc -> matrix -> R -> flags -> M ConfidenceRegion)
    (gateset : loc) (base_hessian : matrix) (nNonGaugeParams : nat)
    (nGaugeParams : Z) (fl : flags) (level : R) (verbosity : Z) : M matrix :=
  let method := "L-BFGS-B" in
  let maxiter := 10000%Z in
  let maxfev := 10000%Z in
  let tol := 1e-6 in
  when_ (bool_decide (verbosity > 2)%Z) (emit (EvPrint (PrStr EmptyString)));;
  when_ (bool_decide (verbosity > 1)%Z)
    (emit (EvPrint (PrStr
       ("--- Hessian Projector Optimization for gate CIs (" +:+ method +:+ ") ---"))));;
  x0 ← zeros_flat nNonGaugeParams nGaugeParams;
  minSol ← minimize
    (objective_func ctor gateset base_hessian nNonGaugeParams nGaugeParams fl level)
    x0 method maxiter maxfev tol (bool_decide (verbosity > 2)%Z);
  mixMx ← reshape nNonGaugeParams nGaugeParams (ms_x minSol);
  gs ← read_gateset gateset;
  let proj_extra := get_nongauge_projector_mix gs mixMx fl in
  HP ← np_dot_mm base_hessian proj_extra;
  projected_hessian_ex ← np_dot_mm proj_extra HP;
  when_ (bool_decide (verbosity > 1)%Z) (emit (EvPrint (PrMin (ms_fun minSol))));;
  mret projected_hessian_ex.

(** The constructor called by [objective_func] always passes
    [hessianProjection="none"], and so never reaches the optimizer. *)
Definition init_none (gateset : loc) (hessian : matrix) (confidenceLevel : R)
    (fl : flags) : M ConfidenceRegion :=
  init_with (fun _ _ _ _ _ _ _ => raise TypeError)
    gateset hessian confidenceLevel fl "none".

Definition optProjectionForGateCIs := optProjectionForGateCIs_with init_none.

(** [ConfidenceRegion(gateset, hessian, confidenceLevel, gates, G0, SPAM, SP0,
    hessianProjection)] *)
Definition init := init_with optProjectionForGateCIs.

End Region.

(** ** Propagation of the region through a function *)

(** What the three [get_..._fn_confidence_interval] methods return:
    [df], or [(df, f0)] when [returnFnVal] is set. *)
Inductive retval : Type :=
  | Df (df : fval)
  | DfAndF0 (df f0 : fval).

Section Propagation.
Context `{Providers}.
Local Open Scope R_scope.

(** Number of entries of an array of the given shape. *)
Definition size_of (shp : list nat) : nat := foldr Nat.mul 1%nat shp.

(** [gates == True or (type(gates) in (list,tuple) and gateLabel in gates)] *)
Definition gates_include (gates : gates_flag) (gateLabel : string) : bool :=
  match gates with
  | GatesBool b => b
  | GatesList labels | GatesTuple labels => bool_decide (gateLabel ∈ labels)
  end.

(** [_np.zeros(nParams, 'd')] for a float [f0], and
    [_np.zeros((nParams,) + tuple(f0.shape), f0.dtype)] for an array. *)
Definition zeros_gradF (nParams : nat) (f0 : fval) : gradient :=
  match f0 with
  | PyFloat _ => GradFloat (zeros nParams)
  | RealArray a => GradReal (replicate nParams (replicate (size_of (shape a)) 0))
  | ComplexArray a =>
      GradComplex (replicate nParams (replicate (size_of (shape a)) (0, 0)))
  end.

(** [(f1 - f0) / eps].  The caller's function is taken to return the same
    kind and shape of value at every point; where it does not (numpy would
    broadcast or cast where it can), the model raises. *)
Definition fdiff (f1 f0 : fval) (eps : R) : M fval :=
  match f1, f0 with
  | PyFloat a, PyFloat b => mret (PyFloat ((a - b) / eps))
  | RealArray a, RealArray b =>
      if decide (shape a = shape b) then
        mret (RealArray (NdArray (shape a)
                (zip_with (fun x y => (x - y) / eps) (data a) (data b))))
      else raise (ValueError "operands could not be broadcast together")
  | ComplexArray a, ComplexArray b =>
      if decide (shape a = shape b) then
        mret (ComplexArray (NdArray (shape a)
                (zip_with (fun x y => cdivr (csub x y) eps) (data a) (data b))))
      else raise (ValueError "operands could not be broadcast together")
  | _, _ => raise (ValueError "operands could not be broadcast together")
  end.

(** [gradF[idx] = d] *)
Definition grad_set (gradF : gradient) (idx : nat) (d : fval) : M gradient :=
  match gradF, d with
  | GradFloat g, PyFloat x =>
      if decide (idx < length g)%nat then mret (GradFloat (<[idx := x]> g))
      else raise IndexError
  | GradReal rows, RealArray a =>
      if decide (idx < length rows)%nat then mret (GradReal (<[idx := data a]> rows))
      else raise IndexError
  | GradComplex rows, ComplexArray a =>
      if decide (idx < length rows)%nat then mret (GradComplex (<[idx := data a]> rows))
      else raise IndexError
  | _, _ => raise (ValueError "setting an array element with a sequence")
  end.

(** [_np.sqrt(abs(_np.dot(gradFdag, _np.dot(self.invRegionQuadcForm, gradF))))]
    for a 1-D [gradF], whose conjugate transpose is itself. *)
Definition quad_halfwidth (invQ : matrix) (g : vector) : M R :=
  Qg ← np_dot_mv invQ g;
  x ← np_dot_vv g Qg;
  mret (sqrt (Rabs x)).

(** [gradF[i]] and [gradF[i,j]] once the parameter axis is rolled to the
    end: the entries, one per parameter, at a row-major position. *)
Definition rolled {X : Type} (d : X) (rows : list (list X)) (pos : nat) : list X :=
  map (fun row => nth pos row d) rows.

(** The loops over the entries of [df], by number of dimensions of [f0]. *)
Definition df_entries {Y : Type} (shp : list nat) (h : nat -> M Y) : M (list Y) :=
  match shp with
  | [] => y ← h 0%nat; mret [y]
  | [n0] => list_comp h (seq 0 n0)
  | [n0; n1] =>
      dfs ← list_comp (fun i => list_comp (fun j => h (i * n1 + j)%nat) (seq 0 n1))
                      (seq 0 n0);
      mret (concat dfs)
  | _ => raise (ValueError
           ("Unsupported number of dimensions returned by fnOfGate or fnOfGateset: "
              +:+ pretty (length shp)))
  end.

Definition compute_df_from_gradF (self : ConfidenceRegion) (gradF : gradient)
    (f0 : fval) (returnFnVal : bool) (verbosity : Z) : M retval :=
  let invQ := invRegionQuadcForm self in
  when_ (bool_decide (verbosity > 0)%Z) (emit (EvPrint (PrGradF gradF)));;
  df ← match f0, gradF with
       | PyFloat _, GradFloat g => x ← quad_halfwidth invQ g; mret (PyFloat x)
       | RealArray a, GradReal rows =>
           es ← df_entries (shape a) (fun pos => quad_halfwidth invQ (rolled 0 rows pos));
           mret (RealArray (NdArray (shape a) es))
       | ComplexArray a, GradComplex rows =>
           es ← df_entries (shape a) (fun pos =>
                  let g := rolled (0, 0) rows pos in
                  re ← quad_halfwidth invQ (map creal g);
                  im ← quad_halfwidth invQ (map cimag g);
                  mret (re, im));
           mret (ComplexArray (NdArray (shape a) es))
       | _, _ => raise TypeError
       end;
  when_ (bool_decide (verbosity > 0)%Z) (emit (EvPrint (PrDf df)));;
  mret (if returnFnVal then DfAndF0 df f0 else Df df).

(** The first half of [get_gate_fn_confidence_interval]: [f0] and the
    finite-difference gradient [gradF]. *)
Definition gate_fn_gradF (self : ConfidenceRegion) (fnOfGate : matrix -> fval)
    (gateLabel : string) (eps : R) : M (gradient * fval) :=
  let fl := get_parameterization_flags self in
  gs ← read_gateset (gateset self);
  let nParams := num_params gs fl in
  gateMx ← from_option (KeyError gateLabel) (getitem gs gateLabel);
  g ← from_option (KeyError gateLabel) (get_gate gs gateLabel);
  gateObj ← copy (ObjGate g);
  '(gpo, _) ← from_option (KeyError gateLabel) (gateset_offsets self !! gateLabel);
  let f0 := fnOfGate gateMx in
  g0 ← read_gate gateObj;
  let nGateParams := gate_num_params g0 (fl_G0 fl) in
  let gateVec0 := gate_to_vector g0 (fl_G0 fl) in
  let gradF := zeros_gradF nParams f0 in
  gradF ←
    (if gates_include (fl_gates fl) gateLabel then
       for_ (seq 0 nGateParams) (fun gradF i =>
         gateVec ← vec_iadd gateVec0 i eps;
         mutate_gate gateObj (fun g => gate_from_vector g gateVec (fl_G0 fl));;
         g' ← read_gate gateObj;
         d ← fdiff (fnOfGate (gate_matrix g')) f0 eps;
         grad_set gradF (gpo + i) d) gradF
     else mret gradF);
  mret (gradF, f0).

Definition get_gate_fn_confidence_interval (self : ConfidenceRegion)
    (fnOfGate : matrix -> fval) (gateLabel : string) (eps : R)
    (returnFnVal : bool) (verbosity : Z) : M retval :=
  '(gradF, f0) ← gate_fn_gradF self fnOfGate gateLabel eps;
  compute_df_from_gradF self gradF f0 returnFnVal verbosity.

Definition get_gateset_fn_confidence_interval (self : ConfidenceRegion)
    (fnOfGateset : GS -> fval) (eps : R)
    (returnFnVal : bool) (verbosity : Z) : M retval :=
  let fl := get_parameterization_flags self in
  gs ← read_gateset (gateset self);
  let nParams := num_params gs fl in
  gateset ← copy (ObjGateSet gs);
  gs0 ← read_gateset gateset;
  let f0 := fnOfGateset gs0 in
  let gatesetVec0 := to_vector gs0 fl in
  assert_ (bool_decide (length gatesetVec0 = nParams));;
  let gradF := zeros_gradF nParams f0 in
  gradF ←
    for_ (seq 0 nParams) (fun gradF i =>
      gatesetVec ← vec_iadd gatesetVec0 i eps;
      mutate_gateset gateset (fun gs => from_vector gs gatesetVec fl);;
      gs' ← read_gateset gateset;
      d ← fdiff (fnOfGateset gs') f0 eps;
      grad_set gradF i d) gradF;
  compute_df_from_gradF self gradF f0 returnFnVal verbosity.

Definition get_spam_fn_confidence_interval (self : ConfidenceRegion)
    (fnOfSpamVecs : list vector -> list vector -> fval) (eps : R)
    (returnFnVal : bool) (verbosity : Z) : M retval :=
  let fl := get_parameterization_flags self in
  let SP0 := fl_SP0 fl in
  gs ← read_gateset (gateset self);
  let nParams := num_params gs fl in
  let f0 := fnOfSpamVecs (get_rhovecs gs) (get_evecs gs) in
  let gradF := zeros_gradF nParams f0 in
  gradF ←
    (if fl_SPAM fl then
       gsEps ← copy (ObjGateSet gs);
       gradF ←
         for_ (enumerate (rhoVecs gs)) (fun gradF '(k, rhoVec) =>
           let nRhoParams := if SP0 then length rhoVec else (length rhoVec - 1)%nat in
           let m := if SP0 then 0%nat else 1%nat in
           '(off, _) ← from_option (KeyError ("rho" +:+ pretty k))
                         (gateset_offsets self !! ("rho" +:+ pretty k));
           gradF ←
             for_ (seq 0 nRhoParams) (fun gradF i =>
               vecEps ← vec_iadd rhoVec (m + i) eps;
               mutate_gateset gsEps (fun gs => set_rhovec gs vecEps k);;
               gs' ← read_gateset gsEps;
               d ← fdiff (fnOfSpamVecs (get_rhovecs gs') (get_evecs gs')) f0 eps;
               grad_set gradF (off + i) d) gradF;
           mutate_gateset gsEps (fun gs => set_rhovec gs rhoVec k);;
           mret gradF) gradF;
       for_ (enumerate (EVecs gs)) (fun gradF '(k, EVec) =>
         let nEParams := length EVec in
         '(off, _) ← from_option (KeyError ("E" +:+ pretty k))
                       (gateset_offsets self !! ("E" +:+ pretty k));
         gradF ←
           for_ (seq 0 nEParams) (fun gradF i =>
             vecEps ← vec_iadd EVec i eps;
             mutate_gateset gsEps (fun gs => set_evec gs vecEps k);;
             gs' ← read_gateset gsEps;
             d ← fdiff (fnOfSpamVecs (get_rhovecs gs') (get_evecs gs')) f0 eps;
             grad_set gradF (off + i) d) gradF;
         mutate_gateset gsEps (fun gs => set_evec gs EVec k);;
         mret gradF) gradF
     else mret gradF);
  compute_df_from_gradF self gradF f0 returnFnVal verbosity.

End Propagation.

(** ** Notions used to state the properties *)

Section Statements.
Context `{Providers}.
Local Open Scope R_scope.

(** The region that [__init__] returns, as a function of the projected
    Hessian and of the offsets read from the estimate. *)
Definition region_from (gateset : loc) (fl : flags) (nN : nat) (nG : Z) (cl : R)
    (ph : matrix) (offsets : gmap string (nat * nat)) : ConfidenceRegion :=
  let C1 := chi2_ppf (cl / 100) 1 in
  let Ck := chi2_ppf (cl / 100) nN in
  let Q := mx_div ph C1 in
  let evals := (eigh Q).1 in
  let Um := (eigh Q).2 in
  let invQ := mmdot Um (mmdot (diag (invEvals nG evals)) (transpose Um)) in
  {| nNonGaugeParams := nN;
     nGaugeParams := nG;
     regionQuadcForm := Q;
     intervalScaling := sqrt (Ck / C1);
     invRegionQuadcForm := invQ;
     U := Um; Udag := transpose Um;
     gateset_paramFlags := fl;
     gateset_offsets := offsets;
     profLCI := map (fun k => sqrt (Rabs (entry invQ k k))) (seq 0 (length evals));
     gateset := gateset;
     level := cl |}.

Definition events_of_init (cl : R) (ph : matrix) : list event :=
  (if bool_decide (cl < 1) then [EvWarn cl] else [])
  ++ [EvEigh (mx_div ph (chi2_ppf (cl / 100) 1))].

End Statements.

(** Column [j] of a matrix, and what [eigh] promises of the matrix of
    eigenvectors it returns: it is square and its columns are orthonormal. *)
Definition column (A : matrix) (j : nat) : vector := map (fun row => nth j row 0%R) A.

Definition orthonormal_columns (n : nat) (Um : matrix) : Prop :=
  nrows Um = n /\ Forall (fun row => length row = n) Um /\
  forall c d, (c < n)%nat -> (d < n)%nat ->
    rsum n (fun b => entry Um b c * entry Um b d)%R = if decide (c = d) then 1%R else 0%R.

(** [keeps_heap F m Φ]: run from a store that contains the objects [F], [m]
    ends (returning or raising) with a store that still contains them, in the
    same states; what it returns satisfies [Φ]. *)
Definition keeps_heap `{GateSetAPI} {A : Type} (F : gmap loc obj) (m : M A)
    (Φ : A -> Prop) : Prop :=
  forall w, F ⊆ heap w -> F ⊆ heap (m w).1 /\ forall a, (m w).2 = inr a -> Φ a.

(** [gradF[idx]] exists and is zero (every entry of it, for an array). *)
Definition is_zero_at (gradF : gradient) (idx : nat) : Prop :=
  match gradF with
  | GradFloat g => g !! idx = Some 0%R
  | GradReal rows => exists row, rows !! idx = Some row /\ Forall (fun x => x = 0%R) row
  | GradComplex rows =>
      exists row, rows !! idx = Some row /\ Forall (fun z => z = (0%R, 0%R)) row
  end.


(** ** A two-parameter gate set

    One gate ["Gx"] with a single parameter (index 0, a gauge direction) and
    one state preparation with a single parameter (index 1).  The providers
    are exact on the diagonal matrices of this example: the eigen-solver
    returns the diagonal and the identity, and the two quantile functions
    are constant with [C1 = seScaleFctr ** 2]. *)
Module Toy.

Definition P : matrix := [[0; 0]; [0; 1]]%R.
Definition H : matrix := [[3; 0]; [0; 2]]%R.

Definition api : GateSetAPI := {|
  GS := vector;
  Gate := vector;
  get_nongauge_projector := fun _ _ => P;
  get_nongauge_projector_mix := fun _ _ _ => P;
  num_params := fun gs _ => length gs;
  get_vector_offsets := fun _ _ =>
    {[ "Gx" := (0, 1); "rho0" := (1, 2) ]};
  gate_labels := fun _ => ["Gx"];
  getitem := fun gs l => if decide (l = "Gx") then Some [take 1 gs] else None;
  get_gate := fun gs l => if decide (l = "Gx") then Some (take 1 gs) else None;
  gate_num_params := fun g _ => length g;
  gate_to_vector := fun g _ => g;
  gate_from_vector := fun _ v _ => v;
  gate_matrix := fun g => [g];
  to_vector := fun gs _ => gs;
  from_vector := fun _ v _ => v;
  get_rhovecs := fun gs => [drop 1 gs];
  get_evecs := fun _ => [];
  rhoVecs := fun gs => [drop 1 gs];
  EVecs := fun _ => [];
  set_rhovec := fun gs v _ => take 1 gs ++ v;
  set_evec := fun gs _ _ => gs
|}.

Definition providers : @Providers api := {|
  P_RANK_TOL := 1e-9%R;
  matrix_rank := fun _ _ => 1;
  chi2_ppf := fun _ _ => 1%R;
  norm_ppf := fun _ => (-1)%R;
  eigh := fun A =>
    (tabulate (nrows A) (fun i => entry A i i),
     mx_of_fun (nrows A) (nrows A) (fun i j => if decide (i = j) then 1%R else 0%R));
  minimize := fun objective x0 _ _ _ _ _ =>
    v ← objective x0; mret (MinSol x0 v)
|}.

(** The Hessian sandwiched by the projector, [P·(H·P)]. *)
Definition PHP : matrix := mmdot P (mmdot H P).

Definition fl : flags := Flags (GatesBool true) true true true.

(** The estimate is the object at location 0. *)
Definition gs0 : @GS api := [1; 5]%R.
Definition w0 : @world api := World {[ 0 := @ObjGateSet api gs0 ]} [].

Definition run (confidenceLevel : R) (hessianProjection : string) :=
  @init api providers 0 H confidenceLevel fl hessianProjection w0.

(** The 95% region of the example built with 'std' (see [toy_run_std_region]),
    for either choice of flags. *)
Definition region (fl : flags) : ConfidenceRegion :=
  {| nNonGaugeParams := 1;
     nGaugeParams := 1;
     regionQuadcForm := [[0; 0]; [0; 2]]%R;
     intervalScaling := 1%R;
     invRegionQuadcForm := [[0; 0]; [0; 1 / 2]]%R;
     U := [[1; 0]; [0; 1]]%R;
     Udag := [[1; 0]; [0; 1]]%R;
     gateset_paramFlags := fl;
     gateset_offsets := @get_vector_offsets api gs0 fl;
     profLCI := [0; sqrt (1 / 2)]%R;
     gateset := 0;
     level := 95%R |}.

(** A function of the gate ["Gx"] (its entry, as a float), and arrays that
    a function may return: of three dimensions, and of one. *)
Definition fnEntry (gateMx : matrix) : fval := PyFloat (entry gateMx 0 0).
Definition pair : ndarray R := NdArray [2] [5%R; 7%R].

End Toy.

(** ** Further notions used to state properties *)

(** The half-widths [df] in what a propagation call returns; what it is for
    half-widths to be non-negative (both parts, for a complex entry); the
    number of parameters a gradient has an entry for. *)
Definition df_of (res : retval) : fval :=
  match res with Df df | DfAndF0 df _ => df end.

Definition fval_nonneg (v : fval) : Prop :=
  match v with
  | PyFloat x => (0 <= x)%R
  | RealArray a => Forall (fun x => (0 <= x)%R) (data a)
  | ComplexArray a => Forall (fun z : complex => (0 <= z.1)%R /\ (0 <= z.2)%R) (data a)
  end.

Definition grad_length (gradF : gradient) : nat :=
  match gradF with
  | GradFloat g => length g
  | GradReal rows => length rows
  | GradComplex rows => length rows
  end.

(** A computation that neither looks at the world nor changes it: it ends
    the same way from every world. *)
Definition stateless `{GateSetAPI} {A : Type} (m : M A) (r : exn + A) : Prop :=
  forall w, m w = (w, r).


(** The number of dimensions of a value (0 for a float), and the value of
    the same kind and shape whose entries are all zero. *)
Definition ndim (v : fval) : nat :=
  match v with
  | PyFloat _ => 0
  | RealArray a => length (shape a)
  | ComplexArray a => length (shape a)
  end.

Definition zeros_like (v : fval) : fval :=
  match v with
  | PyFloat _ => PyFloat 0%R
  | RealArray a => RealArray (NdArray (shape a) (replicate (size_of (shape a)) 0%R))
  | ComplexArray a =>
      ComplexArray (NdArray (shape a) (replicate (size_of (shape a)) (0%R, 0%R)))
  end.

(** ** More of the two-parameter example

    Flags with [SPAM] off; a region whose offsets are missing; functions of
    the gate, of the gate set and of the SPAM vectors; and a variant of the
    gate set whose parameter vector is shorter than its parameter count. *)
Module ToyMore.

Definition fl_nospam : flags := Flags (GatesBool true) true false true.

Definition bare : ConfidenceRegion :=
  {| nNonGaugeParams := 1;
     nGaugeParams := 1;
     regionQuadcForm := [[0; 0]; [0; 2]]%R;
     intervalScaling := 1%R;
     invRegionQuadcForm := [[0; 0]; [0; 1 / 2]]%R;
     U := [[1; 0]; [0; 1]]%R;
     Udag := [[1; 0]; [0; 1]]%R;
     gateset_paramFlags := Toy.fl;
     gateset_offsets := ∅;
     profLCI := [0; sqrt (1 / 2)]%R;
     gateset := 0;
     level := 95%R |}.

(** [1 + 3·v[0] + 4·v[1]] of the parameter vector [v] of the gate set. *)
Definition fnAffine (gs : @GS Toy.api) : fval := PyFloat (1 + vdot [3; 4] gs)%R.

(** The first entry of the first state preparation; constant arrays. *)
Definition fnRho (rhos Es : list vector) : fval := PyFloat (nth 0 (nth 0 rhos []) 0%R).
Definition fnPairOfSpam (rhos Es : list vector) : fval := RealArray Toy.pair.

Definition api_short : GateSetAPI := {|
  GS := vector;
  Gate := vector;
  get_nongauge_projector := fun _ _ => Toy.P;
  get_nongauge_projector_mix := fun _ _ _ => Toy.P;
  num_params := fun gs _ => length gs;
  get_vector_offsets := fun _ _ =>
    {[ "Gx" := (0, 1); "rho0" := (1, 2) ]};
  gate_labels := fun _ => ["Gx"];
  getitem := fun gs l => if decide (l = "Gx") then Some [take 1 gs] else None;
  get_gate := fun gs l => if decide (l = "Gx") then Some (take 1 gs) else None;
  gate_num_params := fun g _ => length g;
  gate_to_vector := fun g _ => g;
  gate_from_vector := fun _ v _ => v;
  gate_matrix := fun g => [g];
  to_vector := fun gs _ => take 1 gs;
  from_vector := fun _ v _ => v;
  get_rhovecs := fun gs => [drop 1 gs];
  get_evecs := fun _ => [];
  rhoVecs := fun gs => [drop 1 gs];
  EVecs := fun _ => [];
  set_rhovec := fun gs v _ => take 1 gs ++ v;
  set_evec := fun gs _ _ => gs
|}.

Definition providers_short : @Providers api_short := {|
  P_RANK_TOL := 1e-9%R;
  matrix_rank := fun _ _ => 1;
  chi2_ppf := fun _ _ => 1%R;
  norm_ppf := fun _ => (-1)%R;
  eigh := fun A =>
    (tabulate (nrows A) (fun i => entry A i i),
     mx_of_fun (nrows A) (nrows A) (fun i j => if decide (i = j) then 1%R else 0%R));
  minimize := fun objective x0 _ _ _ _ _ =>
    v ← objective x0; mret (MinSol x0 v)
|}.

Definition w_short : @world api_short :=
  World {[ 0 := @ObjGateSet api_short [1; 5]%R ]} [].

End ToyMore.

(** * Properties *)

(** ** Running computations *)

Section MonadLemmas.
Context `{GateSetAPI}.

Lemma bind_inr {A B : Type} (m : M A) (k : A -> M B) w w' b :
  (m ≫= k) w = (w', inr b) ->
  exists w1 a, m w = (w1, inr a) /\ k a w1 = (w', inr b).
Proof.
  unfold mbind, M_bind. destruct (m w) as [w1 [e|a]]; [discriminate|].
  intros Hk. by exists w1, a.
Qed.

Lemma bind_run_inr {A B : Type} (m : M A) (k : A -> M B) w w1 a :
  m w = (w1, inr a) -> (m ≫= k) w = k a w1.
Proof. unfold mbind, M_bind. by intros ->. Qed.

Lemma bind_run_inl {A B : Type} (m : M A) (k : A -> M B) w w1 e :
  m w = (w1, inl e) -> (m ≫= k) w = (w1, inl e).
Proof. unfold mbind, M_bind. by intros ->. Qed.

Lemma ret_run {A : Type} (a : A) w : mret (M := M) a w = (w, inr a).
Proof. reflexivity. Qed.

Lemma raise_run {A : Type} (e : exn) w : raise (A := A) e w = (w, inl e).
Proof. reflexivity. Qed.

Lemma ret_inr {A : Type} (a b : A) w w' :
  mret (M := M) a w = (w', inr b) -> w' = w /\ b = a.
Proof. unfold mret, M_ret. by intros [= -> ->]. Qed.

Lemma assert_inr (b : bool) w w' u :
  assert_ b w = (w', inr u) -> w' = w /\ b = true.
Proof. destruct b; cbn; [by intros [= ->]|discriminate]. Qed.

Lemma from_option_inr {A : Type} (e : exn) (o : option A) w w' a :
  from_option e o w = (w', inr a) -> w' = w /\ o = Some a.
Proof. destruct o; cbn; [by intros [= -> ->]|discriminate]. Qed.

Lemma read_gateset_inr l w w' gs :
  read_gateset l w = (w', inr gs) -> w' = w /\ heap w !! l = Some (ObjGateSet gs).
Proof.
  unfold read_gateset. destruct (heap w !! l) as [[gs'|g]|]; try discriminate.
  by intros [= -> ->].
Qed.

Lemma read_gate_inr l w w' g :
  read_gate l w = (w', inr g) -> w' = w /\ heap w !! l = Some (ObjGate g).
Proof.
  unfold read_gate. destruct (heap w !! l) as [[gs'|g']|]; try discriminate.
  by intros [= -> ->].
Qed.

Lemma np_dot_mm_inr A B w w' C :
  np_dot_mm A B w = (w', inr C) -> w' = w /\ ncols A = nrows B /\ C = mmdot A B.
Proof.
  unfold np_dot_mm. case_decide; [|discriminate]. by intros [= -> <-].
Qed.

Lemma np_dot_mv_inr A v w w' u :
  np_dot_mv A v w = (w', inr u) -> w' = w /\ ncols A = length v /\ u = mvdot A v.
Proof.
  unfold np_dot_mv. case_decide; [|discriminate]. by intros [= -> <-].
Qed.

Lemma np_dot_vv_inr u v w w' x :
  np_dot_vv u v w = (w', inr x) -> w' = w /\ length u = length v /\ x = vdot u v.
Proof.
  unfold np_dot_vv. case_decide; [|discriminate]. by intros [= -> <-].
Qed.

Lemma mx_get_inr A i j w w' x :
  mx_get A i j w = (w', inr x) ->
  w' = w /\ x = entry A i j /\ (i < nrows A)%nat.
Proof.
  unfold mx_get. intros [-> Hx]%from_option_inr. split; [done|].
  unfold entry, nrows. destruct (A !! i) as [row|] eqn:Hrow; [|discriminate].
  cbn in Hx. split; [|by eapply lookup_lt_Some].
  rewrite (nth_lookup_Some _ _ _ _ Hrow). symmetry. by apply nth_lookup_Some.
Qed.

End MonadLemmas.

Ltac inv_bind Hrun :=
  let w := fresh "w" in
  let a := fresh "a" in
  let Hstep := fresh "Hstep" in
  apply bind_inr in Hrun as (w & a & Hstep & Hrun).

(** ** Arrays *)

Section ArrayLemmas.
Local Open Scope R_scope.

Lemma tabulate_length {X : Type} (n : nat) (f : nat -> X) :
  length (tabulate n f) = n.
Proof. unfold tabulate. by rewrite length_map, length_seq. Qed.

Lemma tabulate_lookup {X : Type} (n : nat) (f : nat -> X) (i : nat) :
  (i < n)%nat -> tabulate n f !! i = Some (f i).
Proof.
  intros Hi. unfold tabulate. rewrite list_lookup_fmap, lookup_seq_lt by done.
  reflexivity.
Qed.

Lemma tabulate_ext {X : Type} (n : nat) (f g : nat -> X) :
  (forall i, (i < n)%nat -> f i = g i) -> tabulate n f = tabulate n g.
Proof.
  intros Hfg. unfold tabulate. apply map_ext_in. intros i Hi.
  apply in_seq in Hi. apply Hfg. lia.
Qed.

Lemma nrows_mx_of_fun n m f : nrows (mx_of_fun n m f) = n.
Proof. apply tabulate_length. Qed.

Lemma ncols_mx_of_fun n m f : (0 < n)%nat -> ncols (mx_of_fun n m f) = m.
Proof.
  intros Hn. unfold ncols, mx_of_fun.
  destruct n as [|n]; [lia|]. cbn. apply tabulate_length.
Qed.

Lemma ncols_mx_of_fun_le n m f : (ncols (mx_of_fun n m f) <= m)%nat.
Proof.
  destruct n as [|n]; [cbn; lia|]. rewrite ncols_mx_of_fun by lia. done.
Qed.

Lemma mx_of_fun_lookup n m f i j :
  (i < n)%nat -> (j < m)%nat ->
  (row ← mx_of_fun n m f !! i; row !! j) = Some (f i j).
Proof.
  intros Hi Hj. unfold mx_of_fun. rewrite tabulate_lookup by done. cbn.
  by rewrite tabulate_lookup.
Qed.

Lemma entry_mx_of_fun n m f i j :
  (i < n)%nat -> (j < m)%nat -> entry (mx_of_fun n m f) i j = f i j.
Proof.
  intros Hi Hj. unfold entry, mx_of_fun.
  rewrite (nth_lookup_Some _ _ _ _ (tabulate_lookup n _ i Hi)).
  by rewrite (nth_lookup_Some _ _ _ _ (tabulate_lookup m _ j Hj)).
Qed.

Lemma mx_of_fun_ext n m f g :
  (forall i j, (i < n)%nat -> (j < m)%nat -> f i j = g i j) ->
  mx_of_fun n m f = mx_of_fun n m g.
Proof.
  intros Hfg. unfold mx_of_fun. apply tabulate_ext. intros i Hi.
  apply tabulate_ext. intros j Hj. by apply Hfg.
Qed.

Lemma ncols_diag v : ncols (diag v) = length v.
Proof.
  unfold diag. destruct v as [|x v]; [done|]. by rewrite ncols_mx_of_fun by (cbn; lia).
Qed.

Lemma nrows_diag v : nrows (diag v) = length v.
Proof. apply nrows_mx_of_fun. Qed.

Lemma nrows_transpose A : nrows (transpose A) = ncols A.
Proof. apply nrows_mx_of_fun. Qed.

Lemma ncols_transpose A : (0 < ncols A)%nat -> ncols (transpose A) = nrows A.
Proof. intros. by apply ncols_mx_of_fun. Qed.

Lemma nrows_mmdot A B : nrows (mmdot A B) = nrows A.
Proof. apply nrows_mx_of_fun. Qed.

Lemma ncols_mmdot A B : (0 < nrows A)%nat -> ncols (mmdot A B) = ncols B.
Proof. intros. by apply ncols_mx_of_fun. Qed.

Lemma length_invEvals nG evals : length (invEvals nG evals) = length evals.
Proof.
  unfold invEvals.
  assert (Hgen : forall l v, length (foldl (fun inv i => <[i := 1 / nth i evals 0]> inv) v l)
                             = length v).
  { induction l as [|i l IH]; intros v; cbn; [done|]. by rewrite IH, length_insert. }
  rewrite Hgen. unfold zeros. apply length_replicate.
Qed.

End ArrayLemmas.

(** ** The constructor, step by step *)

Section Constructor.
Context `{Providers}.
Local Open Scope R_scope.

Lemma when_emit_run (b : bool) (e : event) w :
  when_ b (emit e) w =
  (World (heap w) (events w ++ if b then [e] else []), inr tt).
Proof.
  destruct b; cbn; [done|]. rewrite app_nil_r. by destruct w.
Qed.

Lemma read_gateset_run l w gs :
  heap w !! l = Some (ObjGateSet gs) -> read_gateset l w = (w, inr gs).
Proof. unfold read_gateset. by intros ->. Qed.

Lemma np_dot_mm_run A B w :
  ncols A = nrows B -> np_dot_mm A B w = (w, inr (mmdot A B)).
Proof. intros Hal. unfold np_dot_mm. by rewrite decide_True. Qed.

Lemma mx_get_run A i j w x :
  (row ← A !! i; row !! j) = Some x -> mx_get A i j w = (w, inr x).
Proof. unfold mx_get. by intros ->. Qed.

Lemma profLCI_inr (A : matrix) (ks : list nat) w w' ys :
  list_comp (fun k => x ← mx_get A k k; mret (sqrt (Rabs x))) ks w = (w', inr ys) ->
  w' = w /\ ys = map (fun k => sqrt (Rabs (entry A k k))) ks.
Proof.
  revert w w' ys. induction ks as [|k ks IH]; intros w w' ys Hrun; cbn in Hrun.
  - by apply ret_inr in Hrun as [-> ->].
  - inv_bind Hrun. inv_bind Hstep.
    apply mx_get_inr in Hstep0 as (-> & -> & _).
    apply ret_inr in Hstep as [-> ->].
    inv_bind Hrun. apply IH in Hstep as [-> ->].
    by apply ret_inr in Hrun as [-> ->].
Qed.

Lemma profLCI_run n m f (ks : list nat) w :
  Forall (fun k => k < n /\ k < m)%nat ks ->
  list_comp (fun k => x ← mx_get (mx_of_fun n m f) k k; mret (sqrt (Rabs x))) ks w
  = (w, inr (map (fun k => sqrt (Rabs (entry (mx_of_fun n m f) k k))) ks)).
Proof.
  induction 1 as [|k ks [Hn Hm] _ IH]; cbn; [done|].
  rewrite (bind_run_inr _ _ w w (sqrt (Rabs (f k k)))).
  - rewrite (bind_run_inr _ _ _ _ _ IH). by rewrite entry_mx_of_fun.
  - erewrite bind_run_inr; [reflexivity|]. apply mx_get_run. by apply mx_of_fun_lookup.
Qed.

Lemma init_from_projected_inr gateset fl nN nG cl ph w w' r :
  init_from_projected gateset fl nN nG cl ph w = (w', inr r) ->
  exists gs,
    (0 < cl /\ cl < 100) /\
    isclose (chi2_ppf (cl / 100) 1) ((- norm_ppf ((1 - cl / 100) / 2)) ^ 2) = true /\
    heap w !! gateset = Some (ObjGateSet gs) /\
    w' = World (heap w) (events w ++ events_of_init cl ph) /\
    r = region_from gateset fl nN nG cl ph (get_vector_offsets gs fl).
Proof.
  unfold init_from_projected. intros Hrun.
  inv_bind Hrun. apply assert_inr in Hstep as [-> Hlevel].
  apply andb_prop in Hlevel as [Hpos%bool_decide_eq_true Hlt%bool_decide_eq_true].
  inv_bind Hrun. rewrite when_emit_run in Hstep. injection Hstep as <- _.
  inv_bind Hrun. apply assert_inr in Hstep as [-> Hclose].
  inv_bind Hrun. unfold np_eigh in Hstep. inv_bind Hstep.
  injection Hstep0 as <- _. apply ret_inr in Hstep as [-> ->].
  unfold region_from.
  destruct (eigh (mx_div ph (chi2_ppf (cl / 100) 1))) as [evals Um] eqn:Heigh.
  inv_bind Hrun. apply np_dot_mm_inr in Hstep as (-> & _ & ->).
  inv_bind Hrun. apply np_dot_mm_inr in Hstep as (-> & _ & ->).
  inv_bind Hrun. apply read_gateset_inr in Hstep as [-> Hgs].
  inv_bind Hrun. apply profLCI_inr in Hstep as [-> ->].
  apply ret_inr in Hrun as [-> ->].
  eexists. cbn in *. repeat split; try done.
  unfold events_of_init. by rewrite <- app_assoc.
Qed.


Lemma level_check_true cl :
  0 < cl -> cl < 100 -> bool_decide (cl > 0) && bool_decide (cl < 100) = true.
Proof.
  intros Hpos Hlt. apply andb_true_intro. split; by apply bool_decide_eq_true.
Qed.

Lemma init_from_projected_isclose gateset fl nN nG cl ph w :
  0 < cl -> cl < 100 ->
  isclose (chi2_ppf (cl / 100) 1) ((- norm_ppf ((1 - cl / 100) / 2)) ^ 2) = false ->
  init_from_projected gateset fl nN nG cl ph w =
  (World (heap w) (events w ++ if bool_decide (cl < 1) then [EvWarn cl] else []),
   inl AssertionError).
Proof.
  intros Hpos Hlt Hclose. unfold init_from_projected.
  rewrite level_check_true by done.
  erewrite bind_run_inr by reflexivity.
  erewrite bind_run_inr by apply when_emit_run.
  rewrite Hclose. reflexivity.
Qed.

Lemma init_from_projected_run gateset fl nN nG cl ph w gs :
  0 < cl -> cl < 100 ->
  isclose (chi2_ppf (cl / 100) 1) ((- norm_ppf ((1 - cl / 100) / 2)) ^ 2) = true ->
  let Q := mx_div ph (chi2_ppf (cl / 100) 1) in
  length (eigh Q).1 = ncols (eigh Q).2 ->
  (length (eigh Q).1 <= nrows (eigh Q).2)%nat ->
  heap w !! gateset = Some (ObjGateSet gs) ->
  init_from_projected gateset fl nN nG cl ph w =
  (World (heap w) (events w ++ events_of_init cl ph),
   inr (region_from gateset fl nN nG cl ph (get_vector_offsets gs fl))).
Proof.
  intros Hpos Hlt Hclose Q Hcols Hrows Hgs. unfold init_from_projected.
  rewrite level_check_true by done.
  erewrite bind_run_inr by reflexivity.
  erewrite bind_run_inr by apply when_emit_run.
  rewrite Hclose. erewrite bind_run_inr by reflexivity.
  unfold np_eigh. erewrite bind_run_inr; cycle 1.
  { erewrite bind_run_inr by reflexivity. reflexivity. }
  fold Q. unfold region_from. fold Q.
  destruct (eigh Q) as [evals Um] eqn:Heigh. cbn in Hcols, Hrows. cbn [fst snd].
  unfold conjugate.
  erewrite bind_run_inr; cycle 1.
  { apply np_dot_mm_run. by rewrite ncols_diag, nrows_transpose, length_invEvals. }
  erewrite bind_run_inr; cycle 1.
  { apply np_dot_mm_run. by rewrite nrows_mmdot, nrows_diag, length_invEvals. }
  erewrite bind_run_inr; cycle 1.
  { apply read_gateset_run. cbn. exact Hgs. }
  erewrite bind_run_inr; cycle 1.
  { unfold mmdot at 1. apply profLCI_run. apply Forall_forall. intros k Hk%elem_of_seq.
    split; [unfold nrows; lia|]. destruct evals as [|e evals]; [cbn in Hk; lia|].
    rewrite ncols_mmdot by (rewrite nrows_diag, length_invEvals; cbn; lia).
    rewrite ncols_transpose by (cbn in Hcols; lia). unfold nrows; lia. }
  unfold events_of_init. cbn. rewrite <- app_assoc. reflexivity.
Qed.

Lemma init_with_run opt gateset hessian cl fl mode w gs :
  heap w !! gateset = Some (ObjGateSet gs) ->
  let Pm := get_nongauge_projector gs fl in
  let nN := matrix_rank Pm P_RANK_TOL in
  let nG := (Z.of_nat (nrows hessian) - Z.of_nat nN)%Z in
  init_with opt gateset hessian cl fl mode w =
  (ph ← project_hessian (opt gateset hessian nN nG fl cl 3%Z) Pm hessian mode;
   init_from_projected gateset fl nN nG cl ph) w.
Proof.
  intros Hgs. unfold init_with.
  by erewrite bind_run_inr by (by apply read_gateset_run).
Qed.

End Constructor.

(** ** Sorting by a key *)

Section Sorting.
Context {X : Type} (key : X -> R).
Local Open Scope R_scope.

Lemma insert_by_key_perm x l : insert_by_key key x l ≡ₚ x :: l.
Proof.
  induction l as [|y l IH]; cbn; [done|].
  case_decide; [|done]. rewrite IH. apply Permutation_swap.
Qed.

Lemma sorted_perm l : sorted key l ≡ₚ l.
Proof.
  induction l as [|x l IH]; cbn; [done|].
  rewrite insert_by_key_perm. by rewrite IH.
Qed.

Lemma insert_by_key_sorted x l :
  StronglySorted (fun a b => key a <= key b) l -> StronglySorted (fun a b => key a <= key b) (insert_by_key key x l).
Proof.
  induction 1 as [|y l Hl IH Hy]; cbn.
  - repeat constructor.
  - case_decide as Hlt.
    + constructor; [done|]. rewrite insert_by_key_perm.
      constructor; [lra|done].
    + constructor; [by constructor|].
      assert (Hxy : key x <= key y) by lra.
      constructor; [done|].
      eapply Forall_impl; [exact Hy|]. cbn. intros z Hz. lra.
Qed.

Lemma sorted_sorted l : StronglySorted (fun a b => key a <= key b) (sorted key l).
Proof.
  induction l as [|x l IH]; cbn; [constructor|]. by apply insert_by_key_sorted.
Qed.

End Sorting.

Section Ordering.
Local Open Scope R_scope.

Lemma enumerate_fst {X : Type} (l : list X) : (enumerate l).*1 = seq 0 (length l).
Proof. unfold enumerate. apply fst_zip. by rewrite length_seq. Qed.

Lemma enumerate_elem (evals : vector) (p : nat * R) :
  p ∈ enumerate evals -> p.2 = nth p.1 evals 0 /\ (p.1 < length evals)%nat.
Proof.
  unfold enumerate. intros (k & Hk)%list_elem_of_lookup.
  apply lookup_zip_with_Some in Hk as (i & x & -> & Hi & Hx). cbn.
  apply lookup_seq in Hi as [-> Hlt]. cbn. split; [|done].
  symmetry. by apply nth_lookup_Some.
Qed.

Lemma orderInds_perm (evals : vector) : orderInds evals ≡ₚ seq 0 (length evals).
Proof.
  unfold orderInds. rewrite sorted_perm. by rewrite enumerate_fst.
Qed.

Lemma orderInds_length (evals : vector) : length (orderInds evals) = length evals.
Proof. by rewrite orderInds_perm, length_seq. Qed.

Lemma orderInds_lt (evals : vector) (i : nat) :
  i ∈ orderInds evals <-> (i < length evals)%nat.
Proof. rewrite orderInds_perm, elem_of_seq. lia. Qed.

Lemma orderInds_NoDup (evals : vector) : NoDup (orderInds evals).
Proof. rewrite orderInds_perm. apply NoDup_seq. Qed.

(** The ordering is by ascending magnitude of the eigenvalue at each index. *)
Lemma orderInds_sorted (evals : vector) :
  StronglySorted (fun i j => Rabs (nth i evals 0) <= Rabs (nth j evals 0))
    (orderInds evals).
Proof.
  unfold orderInds.
  pose proof (sorted_sorted (fun x : nat * R => Rabs x.2) (enumerate evals)) as Hs.
  assert (Hel : Forall (fun p : nat * R => p.2 = nth p.1 evals 0)
                  (sorted (fun x : nat * R => Rabs x.2) (enumerate evals))).
  { rewrite sorted_perm. apply Forall_forall. intros p Hp.
    by apply enumerate_elem in Hp as [? _]. }
  induction Hs as [|p l Hl IH Hp]; cbn; [constructor|].
  apply Forall_cons in Hel as [Hp2 Hel].
  constructor; [by apply IH|].
  apply Forall_fmap. apply Forall_forall. intros q Hq. cbn.
  rewrite Forall_forall in Hp, Hel. specialize (Hp q Hq). specialize (Hel q Hq).
  cbn in Hp. by rewrite <- Hp2, <- Hel.
Qed.

Lemma orderInds_ascending (evals : vector) (a b i j : nat) :
  (a <= b)%nat -> orderInds evals !! a = Some i -> orderInds evals !! b = Some j ->
  Rabs (nth i evals 0) <= Rabs (nth j evals 0).
Proof.
  intros Hab Ha Hb.
  destruct (decide (a = b)) as [->|Hne].
  { rewrite Ha in Hb. injection Hb as ->. lra. }
  pose proof (orderInds_sorted evals) as Hs.
  revert a b Hab Hne Ha Hb.
  induction Hs as [|k l Hl IH Hk]; intros a b Hab Hne Ha Hb; [done|].
  destruct a as [|a], b as [|b]; try lia; cbn in Ha, Hb.
  - injection Ha as ->. rewrite Forall_forall in Hk. apply Hk.
    by eapply list_elem_of_lookup_2.
  - apply (IH a b); [lia|lia|done|done].
Qed.

Lemma foldl_invert_nth (evals : vector) (l : list nat) (v : vector) (i : nat) :
  (i < length v)%nat ->
  nth i (foldl (fun inv k => <[k := 1 / nth k evals 0]> inv) v l) 0 =
  if decide (i ∈ l) then 1 / nth i evals 0 else nth i v 0.
Proof.
  revert v. induction l as [|k l IH]; intros v Hi; cbn.
  - rewrite decide_False; [done|]. apply not_elem_of_nil.
  - rewrite IH by (by rewrite length_insert).
    destruct (decide (i ∈ l)) as [Hin|Hnin].
    + rewrite decide_True; [done|]. by right.
    + destruct (decide (i = k)) as [->|Hne].
      * rewrite decide_True by left.
        apply nth_lookup_Some. by apply list_lookup_insert_eq.
      * rewrite decide_False.
        2:{ intros [->|?]%elem_of_cons; done. }
        destruct (v !! i) as [x|] eqn:Hx.
        -- rewrite (nth_lookup_Some v i 0 x Hx).
           apply nth_lookup_Some. by rewrite list_lookup_insert_ne.
        -- apply lookup_ge_None in Hx. lia.
Qed.

Lemma nth_zeros (n i : nat) : nth i (zeros n) 0 = 0.
Proof.
  unfold zeros. destruct (decide (i < n)%nat) as [Hi|Hi].
  - apply nth_lookup_Some. by apply lookup_replicate_2.
  - apply nth_overflow. rewrite length_replicate. lia.
Qed.

(** Each eigenvalue's inverse, by the position of its index in the ordering:
    zero before position [nGaugeParams], [1/eval] from there on. *)
Lemma invEvals_spec (nG : Z) (evals : vector) (a i : nat) :
  (0 <= nG)%Z -> orderInds evals !! a = Some i ->
  nth i (invEvals nG evals) 0 =
  if decide (a < Z.to_nat nG)%nat then 0 else 1 / nth i evals 0.
Proof.
  intros HnG Ha. unfold invEvals, slice_from.
  rewrite decide_False by lia.
  assert (Hi : (i < length evals)%nat).
  { apply orderInds_lt. by eapply list_elem_of_lookup_2. }
  rewrite foldl_invert_nth by (unfold zeros; by rewrite length_replicate).
  rewrite nth_zeros.
  pose proof (orderInds_NoDup evals) as Hnd.
  destruct (decide (a < Z.to_nat nG)%nat) as [Hlt|Hge].
  - rewrite decide_False; [done|].
    intros (b & Hb)%list_elem_of_lookup. rewrite lookup_drop in Hb.
    assert (a = (Z.to_nat nG + b)%nat) by (eapply NoDup_lookup; done). lia.
  - rewrite decide_True; [done|].
    apply list_elem_of_lookup. exists (a - Z.to_nat nG)%nat.
    rewrite lookup_drop. rewrite <- Ha. f_equal. lia.
Qed.

End Ordering.

Section Stability.
Context {X : Type} (key : X -> R) (pos : X -> nat).
Local Open Scope R_scope.

Lemma insert_by_key_stable x l :
  Forall (fun y => (pos x < pos y)%nat) l ->
  StronglySorted (fun a b => key a < key b \/ (key a = key b /\ (pos a < pos b)%nat)) l ->
  StronglySorted (fun a b => key a < key b \/ (key a = key b /\ (pos a < pos b)%nat))
    (insert_by_key key x l).
Proof.
  intros Hpos Hs. induction Hs as [|y l Hl IH Hy]; cbn.
  - repeat constructor.
  - apply Forall_cons in Hpos as [Hxy Hpos]. case_decide as Hlt.
    + constructor; [by apply IH|]. rewrite insert_by_key_perm.
      constructor; [by left|done].
    + constructor; [by constructor|].
      assert (Hx : key x < key y \/ (key x = key y /\ (pos x < pos y)%nat)).
      { destruct (Rle_lt_or_eq_dec (key x) (key y)) as [?|?]; [lra|by left|by right]. }
      constructor; [done|].
      rewrite Forall_forall in Hy, Hpos. apply Forall_forall. intros z Hz.
      specialize (Hy z Hz). specialize (Hpos z Hz).
      destruct (Rle_lt_or_eq_dec (key x) (key z)) as [?|?];
        [destruct Hy; lra|by left|by right].
Qed.

Lemma sorted_stable l :
  StronglySorted (fun a b => (pos a < pos b)%nat) l ->
  StronglySorted (fun a b => key a < key b \/ (key a = key b /\ (pos a < pos b)%nat))
    (sorted key l).
Proof.
  induction 1 as [|x l Hl IH Hx]; cbn; [constructor|].
  change (foldr (insert_by_key key) [] l) with (sorted key l) in *.
  apply insert_by_key_stable; [|done]. by rewrite sorted_perm.
Qed.

End Stability.

Section OrderingStable.
Local Open Scope R_scope.

Lemma enumerate_increasing {X : Type} (a : nat) (l : list X) :
  StronglySorted (fun p q : nat * X => (p.1 < q.1)%nat) (zip (seq a (length l)) l).
Proof.
  revert a. induction l as [|x l IH]; intros a; cbn; [constructor|].
  constructor; [apply IH|]. apply Forall_forall. intros [i y] Hq.
  apply list_elem_of_lookup in Hq as (k & Hk).
  apply lookup_zip_with_Some in Hk as (i' & y' & [= <- <-] & Hi & _).
  apply lookup_seq in Hi as [-> _]. cbn. lia.
Qed.

(** Ties keep their original order, as in Python's stable sort: the ordering
    is the one by (magnitude, index). *)
Lemma orderInds_stable (evals : vector) :
  StronglySorted
    (fun i j => Rabs (nth i evals 0) < Rabs (nth j evals 0) \/
                (Rabs (nth i evals 0) = Rabs (nth j evals 0) /\ (i < j)%nat))
    (orderInds evals).
Proof.
  unfold orderInds.
  pose proof (sorted_stable (fun x : nat * R => Rabs x.2) fst (enumerate evals)
                (enumerate_increasing 0 evals)) as Hs.
  assert (Hel : Forall (fun p : nat * R => p.2 = nth p.1 evals 0)
                  (sorted (fun x : nat * R => Rabs x.2) (enumerate evals))).
  { rewrite sorted_perm. apply Forall_forall. intros p Hp.
    by apply enumerate_elem in Hp as [? _]. }
  induction Hs as [|p l Hl IH Hp]; cbn; [constructor|].
  apply Forall_cons in Hel as [Hp2 Hel].
  constructor; [by apply IH|].
  apply Forall_fmap. apply Forall_forall. intros q Hq. cbn.
  rewrite Forall_forall in Hp, Hel. specialize (Hp q Hq). specialize (Hel q Hq).
  cbn in Hp. by rewrite <- Hp2, <- Hel.
Qed.

(** Python's slices, on small lists. *)
Example slice_from_positive : slice_from 1 [10; 20; 30]%nat = [20; 30]%nat.
Proof. reflexivity. Qed.

Example slice_from_negative : slice_from (-1) [10; 20; 30]%nat = [30]%nat.
Proof. reflexivity. Qed.

Example slice_from_past_the_end : slice_from 5 [10; 20; 30]%nat = [].
Proof. reflexivity. Qed.

Example slice_clips : slice 1 7 [10; 20; 30]%nat = [20; 30]%nat.
Proof. reflexivity. Qed.

Example enumerate_three : enumerate [7; 8; 9]%nat = [(0, 7); (1, 8); (2, 9)]%nat.
Proof. reflexivity. Qed.

(** Ordering of the eigenvalues [-3, 0.5, 2, -0.5]: by magnitude, the tie
    between [0.5] and [-0.5] in the order of their indices. *)
Example orderInds_example : orderInds [-3; 1 / 2; 2; - (1 / 2)] = [1; 3; 2; 0]%nat.
Proof.
  assert (H3 : Rabs (-3) = 3) by (rewrite Rabs_left; lra).
  assert (Hh : Rabs (1 / 2) = 1 / 2) by (rewrite Rabs_pos_eq; lra).
  assert (H2 : Rabs 2 = 2) by (rewrite Rabs_pos_eq; lra).
  assert (Hm : Rabs (- (1 / 2)) = 1 / 2) by (rewrite Rabs_left; lra).
  unfold orderInds, sorted, enumerate. cbn.
  rewrite ?H3, ?Hh, ?H2, ?Hm.
  repeat (first [rewrite decide_True by lra | rewrite decide_False by lra]; cbn;
          rewrite ?H3, ?Hh, ?H2, ?Hm).
  reflexivity.
Qed.

End OrderingStable.

(** ** Sums and products of arrays *)

Section Sums.
Local Open Scope R_scope.

Lemma rsum_ext n f g :
  (forall k, (k < n)%nat -> f k = g k) -> rsum n f = rsum n g.
Proof.
  intros Hfg. unfold rsum. f_equal. apply map_ext_in. intros k Hk%in_seq.
  apply Hfg. lia.
Qed.

Lemma rsum_S n f : rsum (S n) f = rsum n f + f n.
Proof.
  unfold rsum. rewrite seq_S, map_app. cbn.
  generalize (map f (seq 0 n)). intros l.
  induction l as [|x l IH]; cbn; [lra|]. rewrite IH. lra.
Qed.

Lemma rsum_0 f : rsum 0 f = 0.
Proof. reflexivity. Qed.

Lemma rsum_zero n : rsum n (fun _ => 0) = 0.
Proof. induction n as [|n IH]; [done|]. rewrite rsum_S, IH. lra. Qed.

Lemma rsum_plus n f g : rsum n (fun k => f k + g k) = rsum n f + rsum n g.
Proof.
  induction n as [|n IH]; [rewrite !rsum_0; lra|]. rewrite !rsum_S, IH. lra.
Qed.

Lemma rsum_mult_l n c f : rsum n (fun k => c * f k) = c * rsum n f.
Proof.
  induction n as [|n IH]; [rewrite !rsum_0; lra|]. rewrite !rsum_S, IH. lra.
Qed.

Lemma rsum_mult_r n c f : rsum n (fun k => f k * c) = rsum n f * c.
Proof.
  induction n as [|n IH]; [rewrite !rsum_0; lra|]. rewrite !rsum_S, IH. lra.
Qed.

Lemma rsum_swap n m (f : nat -> nat -> R) :
  rsum n (fun i => rsum m (fun j => f i j)) = rsum m (fun j => rsum n (fun i => f i j)).
Proof.
  induction n as [|n IH].
  - rewrite rsum_0. symmetry. apply rsum_zero.
  - rewrite rsum_S, IH. rewrite <- rsum_plus. apply rsum_ext. intros j _.
    by rewrite rsum_S.
Qed.

(** A sum whose terms vanish away from index [i] is its term at [i]. *)
Lemma rsum_single n i f :
  (i < n)%nat -> (forall k, (k < n)%nat -> k <> i -> f k = 0) -> rsum n f = f i.
Proof.
  induction n as [|n IH]; intros Hi Hz; [lia|]. rewrite rsum_S.
  destruct (decide (i = n)) as [->|Hne].
  - rewrite (rsum_ext n f (fun _ => 0)) by (intros k Hk; apply Hz; lia).
    rewrite rsum_zero. lra.
  - rewrite IH by (try lia; intros k Hk Hki; apply Hz; lia).
    rewrite (Hz n) by lia. lra.
Qed.

Lemma entry_overflow_row (A : matrix) i j : (nrows A <= i)%nat -> entry A i j = 0.
Proof.
  intros Hi. unfold entry. rewrite (nth_overflow A) by done. by destruct j.
Qed.

Lemma nth_column (A : matrix) i j : nth i (column A j) 0 = entry A i j.
Proof.
  unfold column, entry. destruct (A !! i) as [row|] eqn:Hrow.
  - rewrite (nth_lookup_Some A i [] row Hrow).
    apply nth_lookup_Some. by rewrite list_lookup_fmap, Hrow.
  - apply lookup_ge_None in Hrow.
    rewrite (nth_overflow (map _ A)) by (by rewrite length_map).
    rewrite (nth_overflow A) by done. by destruct j.
Qed.

Lemma ncols_square n (A : matrix) :
  (0 < n)%nat -> nrows A = n -> Forall (fun row => length row = n) A -> ncols A = n.
Proof.
  intros Hn Hr Hc. destruct A as [|row A]; [cbn in Hr; lia|].
  by apply Forall_cons in Hc as [? _].
Qed.

Lemma entry_diag v i j :
  (i < length v)%nat -> (j < length v)%nat ->
  entry (diag v) i j = if decide (i = j) then nth i v 0 else 0.
Proof. intros Hi Hj. unfold diag. by rewrite entry_mx_of_fun. Qed.

Lemma entry_transpose A i j :
  (i < ncols A)%nat -> (j < nrows A)%nat -> entry (transpose A) i j = entry A j i.
Proof. intros Hi Hj. unfold transpose. by rewrite entry_mx_of_fun. Qed.

(** [U·diag(d)·Uᵗ] maps the [i]-th column of an orthonormal [U] to [d[i]]
    times that column. *)
Lemma eigen_reconstruct n (Um : matrix) (d : vector) (i : nat) :
  orthonormal_columns n Um -> length d = n -> (i < n)%nat ->
  mvdot (mmdot Um (mmdot (diag d) (transpose Um))) (column Um i) =
  map (fun x => nth i d 0 * x) (column Um i).
Proof.
  intros (Hr & Hc & Ho) Hd Hi.
  assert (Hn : (0 < n)%nat) by lia.
  pose proof (ncols_square n Um Hn Hr Hc) as Hcols.
  assert (HDU : forall c b, (c < n)%nat -> (b < n)%nat ->
            entry (mmdot (diag d) (transpose Um)) c b = nth c d 0 * entry Um b c).
  { intros c b Hc' Hb. unfold mmdot.
    rewrite entry_mx_of_fun
      by (rewrite ?nrows_diag, ?ncols_transpose; unfold nrows in *; lia).
    rewrite ncols_diag, Hd.
    rewrite (rsum_single n c) by
      (try done; intros k Hk Hkc;
       rewrite entry_diag by lia; rewrite decide_False by done; lra).
    rewrite entry_diag by lia. rewrite decide_True by done.
    rewrite entry_transpose by (unfold nrows in *; lia). done. }
  assert (HncolsDU : ncols (mmdot (diag d) (transpose Um)) = n).
  { rewrite ncols_mmdot by (rewrite nrows_diag; lia).
    rewrite ncols_transpose by lia. done. }
  unfold mvdot at 1. rewrite nrows_mmdot, Hr.
  rewrite ncols_mmdot by (unfold nrows in *; lia). rewrite HncolsDU.
  assert (Hcol : column Um i = tabulate n (fun a => entry Um a i)).
  { apply list_eq. intros a. destruct (decide (a < n)%nat) as [Ha|Ha].
    - rewrite tabulate_lookup by done. unfold column. rewrite list_lookup_fmap.
      destruct (Um !! a) as [row|] eqn:Hrow.
      + cbn. unfold entry. by rewrite (nth_lookup_Some Um a [] row Hrow).
      + apply lookup_ge_None in Hrow. unfold nrows in Hr. lia.
    - rewrite !lookup_ge_None_2; [done| |].
      + rewrite tabulate_length. lia.
      + unfold column. rewrite length_map. unfold nrows in Hr. lia. }
  replace (map (fun x => nth i d 0 * x) (column Um i))
    with (tabulate n (fun a => nth i d 0 * entry Um a i))
    by (rewrite Hcol; unfold tabulate; by rewrite map_map).
  apply tabulate_ext. intros a Ha.
  rewrite (rsum_ext n _ (fun b => rsum n (fun c =>
             entry Um a c * (nth c d 0 * (entry Um b c * entry Um b i))))).
  2:{ intros b Hb. rewrite nth_column. unfold mmdot at 1.
      rewrite entry_mx_of_fun by (unfold nrows in *; lia).
      rewrite Hcols. rewrite <- rsum_mult_r. apply rsum_ext. intros c Hc'.
      rewrite HDU by done. lra. }
  rewrite rsum_swap.
  rewrite (rsum_ext n _ (fun c => entry Um a c * nth c d 0 *
             (if decide (c = i) then 1 else 0))).
  2:{ intros c Hc'. rewrite <- (Ho c i) by done.
      rewrite <- rsum_mult_l. apply rsum_ext. intros b Hb. lra. }
  rewrite (rsum_single n i) by
    (try done; intros k Hk Hki; rewrite decide_False by done; lra).
  rewrite decide_True by done. lra.
Qed.

End Sums.

(** ** The constructor: calibration, inversion, profile intervals *)

Section ConstructorClaims.
Context `{Providers}.
Local Open Scope R_scope.

Lemma init_inr gateset hessian cl fl mode w w' r :
  init gateset hessian cl fl mode w = (w', inr r) ->
  exists gs w1 ph gs',
    let Pm := get_nongauge_projector gs fl in
    let nN := matrix_rank Pm P_RANK_TOL in
    let nG := (Z.of_nat (nrows hessian) - Z.of_nat nN)%Z in
    heap w !! gateset = Some (ObjGateSet gs) /\
    project_hessian (optProjectionForGateCIs gateset hessian nN nG fl cl 3%Z)
      Pm hessian mode w = (w1, inr ph) /\
    (0 < cl /\ cl < 100) /\
    isclose (chi2_ppf (cl / 100) 1) ((- norm_ppf ((1 - cl / 100) / 2)) ^ 2) = true /\
    w' = World (heap w1) (events w1 ++ events_of_init cl ph) /\
    r = region_from gateset fl nN nG cl ph (get_vector_offsets gs' fl).
Proof.
  unfold init, init_with. intros Hrun.
  inv_bind Hrun. apply read_gateset_inr in Hstep as [-> Hgs].
  inv_bind Hrun. apply init_from_projected_inr in Hrun as (gs' & ? & ? & ? & ? & ?).
  by exists a, w0, a0, gs'.
Qed.

(** What [project_hessian] does in each mode. *)
Lemma project_hessian_none optimal Pm hessian w :
  project_hessian optimal Pm hessian "none" w = (w, inr hessian).
Proof. reflexivity. Qed.

Lemma project_hessian_std optimal Pm hessian w :
  project_hessian optimal Pm hessian "std" w =
  (HP ← np_dot_mm hessian Pm; np_dot_mm Pm HP) w.
Proof. reflexivity. Qed.

Lemma project_hessian_invalid optimal Pm hessian mode w :
  mode <> "none" -> mode <> "std" -> mode <> "optimal gate CIs" ->
  project_hessian optimal Pm hessian mode w =
  (w, inl (ValueError ("Invalid value of hessianProjection argument: " +:+ mode))).
Proof.
  intros Hn Hs Ho. unfold project_hessian.
  rewrite !decide_False by done. reflexivity.
Qed.

Lemma slice_Forall {X : Type} (Pr : X -> Prop) (start stop : nat) (l : list X) :
  Forall Pr l -> Forall Pr (slice start stop l).
Proof. intros Hl. unfold slice. by apply Forall_take, Forall_drop. Qed.

Lemma map_mult_0 (l : vector) : map (fun x => 0 * x) l = zeros (length l).
Proof.
  unfold zeros. induction l as [|x l IH]; cbn; [done|]. rewrite IH. f_equal. lra.
Qed.

(** C1. The inverse quadratic form is rebuilt from the eigendecomposition
    [eigh Q = (evals, U)] of the stored quadratic form: the indices are
    ordered by ascending [|evals[i]|], the inverse eigenvalue is exactly zero
    at the first [nGaugeParams] indices of that order and [1/evals[i]] at the
    others, and [invQ = U·diag(invEvals)·Uᵗ].  When [U] has orthonormal
    columns, [invQ] sends the eigenvector of each of those first
    [nGaugeParams] indices to the zero vector (its eigenvalue there is
    exactly zero).  The rank of the projector is taken not to exceed the
    size of the Hessian, so that [nGaugeParams] is not negative. *)
Theorem init_inverts_nongauge_eigenvalues gateset hessian cl fl mode w w' r :
  init gateset hessian cl fl mode w = (w', inr r) ->
  (0 <= nGaugeParams r)%Z ->
  let evals := (eigh (regionQuadcForm r)).1 in
  let Um := (eigh (regionQuadcForm r)).2 in
  let inv := invEvals (nGaugeParams r) evals in
  let ord := orderInds evals in
  U r = Um /\ Udag r = transpose Um /\
  ord ≡ₚ seq 0 (length evals) /\
  (forall a b i j, (a <= b)%nat -> ord !! a = Some i -> ord !! b = Some j ->
     Rabs (nth i evals 0) <= Rabs (nth j evals 0)) /\
  (forall a i, ord !! a = Some i ->
     nth i inv 0 = if decide (a < Z.to_nat (nGaugeParams r))%nat then 0
                   else 1 / nth i evals 0) /\
  invRegionQuadcForm r = mmdot Um (mmdot (diag inv) (transpose Um)) /\
  (orthonormal_columns (length evals) Um ->
   forall a i, (a < Z.to_nat (nGaugeParams r))%nat -> ord !! a = Some i ->
     mvdot (invRegionQuadcForm r) (column Um i) = zeros (length evals)).
Proof.
  intros Hrun HnG.
  apply init_inr in Hrun as (gs & w1 & ph & gs' & _ & _ & _ & _ & _ & ->).
  unfold region_from in *.
  cbn [nGaugeParams regionQuadcForm U Udag invRegionQuadcForm] in *.
  repeat split; try done.
  - apply orderInds_perm.
  - apply orderInds_ascending.
  - intros a i Ha. by apply invEvals_spec.
  - intros Horth a i Hlt Ha.
    assert (Hi : (i < length (eigh (mx_div ph (chi2_ppf (cl / 100) 1))).1)%nat).
    { apply orderInds_lt. by eapply list_elem_of_lookup_2. }
    rewrite (eigen_reconstruct _ _ _ _ Horth (length_invEvals _ _) Hi).
    rewrite (invEvals_spec _ _ a i HnG Ha). rewrite decide_True by done.
    rewrite map_mult_0. f_equal. unfold column. rewrite length_map.
    by destruct Horth as [? _].
Qed.

(** C2. At a confidence level in (0,100), once the Hessian is projected the
    constructor takes [C1] and [Ck] to be the chi-squared quantiles at
    [level/100] with 1 and with [nNonGaugeParams] degrees of freedom, asserts
    that [C1] is close (numpy.isclose) to the square of
    [seScaleFctr = -norm.ppf((1 - level/100)/2)], and a region it returns has
    [Q = projected_hessian / C1] and [intervalScaling = sqrt(Ck / C1)]. *)
Theorem init_calibration gateset hessian cl fl mode w gs w1 ph :
  0 < cl < 100 ->
  heap w !! gateset = Some (ObjGateSet gs) ->
  let nN := matrix_rank (get_nongauge_projector gs fl) P_RANK_TOL in
  let nG := (Z.of_nat (nrows hessian) - Z.of_nat nN)%Z in
  project_hessian (optProjectionForGateCIs gateset hessian nN nG fl cl 3%Z)
    (get_nongauge_projector gs fl) hessian mode w = (w1, inr ph) ->
  let C1 := chi2_ppf (cl / 100) 1 in
  let Ck := chi2_ppf (cl / 100) nN in
  let seScaleFctr := - norm_ppf ((1 - cl / 100) / 2) in
  (isclose C1 (seScaleFctr ^ 2) = false ->
   (init gateset hessian cl fl mode w).2 = inl AssertionError) /\
  (forall w' r, init gateset hessian cl fl mode w = (w', inr r) ->
     isclose C1 (seScaleFctr ^ 2) = true /\
     nNonGaugeParams r = nN /\
     regionQuadcForm r = mx_div ph C1 /\
     intervalScaling r = sqrt (Ck / C1)).
Proof.
  intros [Hpos Hlt] Hgs nN nG Hproj C1 Ck se.
  assert (Hinit : init gateset hessian cl fl mode w =
                  init_from_projected gateset fl nN nG cl ph w1).
  { unfold init. rewrite (init_with_run _ _ _ _ _ _ _ _ Hgs).
    by apply bind_run_inr. }
  split.
  - intros Hclose. rewrite Hinit.
    by rewrite init_from_projected_isclose.
  - intros w' r Hrun. rewrite Hinit in Hrun.
    apply init_from_projected_inr in Hrun as (gs' & _ & Hclose & _ & _ & ->).
    done.
Qed.

(** C3. The stored profile-likelihood interval of every parameter index [k]
    is [sqrt(|invQ[k,k]|)], and every entry of a vector returned by
    [get_profile_likelihood_confidence_intervals] (all of them, or the slice
    of a label) is non-negative. *)
Theorem profLCI_sqrt_abs_diag gateset hessian cl fl mode w w' r :
  init gateset hessian cl fl mode w = (w', inr r) ->
  length (profLCI r) = length (eigh (regionQuadcForm r)).1 /\
  (forall k x, profLCI r !! k = Some x ->
     x = sqrt (Rabs (entry (invRegionQuadcForm r) k k))) /\
  (forall label w2 w3 v,
     get_profile_likelihood_confidence_intervals r label w2 = (w3, inr v) ->
     Forall (fun x => 0 <= x) v).
Proof.
  intros Hrun.
  apply init_inr in Hrun as (gs & w1 & ph & gs' & _ & _ & _ & _ & _ & ->).
  cbn. split; [by rewrite length_map, length_seq|].
  assert (Hnn : Forall (fun x => 0 <= x)
                  (profLCI (region_from gateset fl
                     (matrix_rank (get_nongauge_projector gs fl) P_RANK_TOL)
                     (Z.of_nat (nrows hessian) -
                      Z.of_nat (matrix_rank (get_nongauge_projector gs fl) P_RANK_TOL))
                     cl ph (get_vector_offsets gs' fl)))).
  { cbn. apply Forall_fmap, Forall_forall. intros k _. apply sqrt_pos. }
  split.
  - intros k x Hk. rewrite list_lookup_fmap in Hk.
    destruct (seq 0 _ !! k) as [k'|] eqn:Hseq; [|discriminate].
    apply lookup_seq in Hseq as [-> _]. cbn in Hk. by injection Hk as <-.
  - intros [l|] w2 w3 v Hget; cbn [get_profile_likelihood_confidence_intervals] in Hget.
    + inv_bind Hget. destruct a as [start stop].
      apply ret_inr in Hget as [_ ->]. by apply slice_Forall.
    + by apply ret_inr in Hget as [_ ->].
Qed.

(** C4. With an idempotent projector [P] (so [P] is square), building with
    projection mode 'none' on the already-projected Hessian [P·H·P] is the
    same computation, with the same outcome and so the same [Q] and [invQ],
    as building with mode 'std' on [H]. *)
Theorem init_none_on_projected_eq_std gateset gs hessian PHP cl fl w :
  heap w !! gateset = Some (ObjGateSet gs) ->
  let Pm := get_nongauge_projector gs fl in
  np_dot_mm Pm Pm w = (w, inr Pm) ->
  (HP ← np_dot_mm hessian Pm; np_dot_mm Pm HP) w = (w, inr PHP) ->
  init gateset PHP cl fl "none" w = init gateset hessian cl fl "std" w /\
  forall w1 r1 w2 r2,
    init gateset PHP cl fl "none" w = (w1, inr r1) ->
    init gateset hessian cl fl "std" w = (w2, inr r2) ->
    regionQuadcForm r1 = regionQuadcForm r2 /\
    invRegionQuadcForm r1 = invRegionQuadcForm r2.
Proof.
  intros Hgs Pm Hidem Hproj.
  assert (Heq : init gateset PHP cl fl "none" w = init gateset hessian cl fl "std" w).
  { unfold init. rewrite !(init_with_run _ _ _ _ _ _ _ _ Hgs). fold Pm.
    erewrite bind_run_inr by apply project_hessian_none.
    erewrite (bind_run_inr (project_hessian _ Pm hessian "std"))
      by (rewrite project_hessian_std; exact Hproj).
    apply np_dot_mm_inr in Hidem as (_ & Hsq & _).
    inv_bind Hproj. apply np_dot_mm_inr in Hstep as (-> & Hal1 & ->).
    apply np_dot_mm_inr in Hproj as (_ & Hal2 & ->).
    rewrite nrows_mmdot in Hal2.
    replace (nrows (mmdot Pm (mmdot hessian Pm))) with (nrows hessian)
      by (rewrite nrows_mmdot; congruence).
    reflexivity. }
  split; [exact Heq|].
  intros w1 r1 w2 r2 H1 H2. rewrite Heq, H2 in H1. by injection H1 as _ ->.
Qed.

(** C5. A projection mode other than 'none', 'std' and 'optimal gate CIs'
    makes the constructor raise a ValueError naming the mode, with the world
    as it was: no event has happened, so no eigendecomposition has been
    computed (and no warning issued). *)
Theorem init_invalid_projection gateset gs hessian cl fl mode w :
  heap w !! gateset = Some (ObjGateSet gs) ->
  mode <> "none" -> mode <> "std" -> mode <> "optimal gate CIs" ->
  init gateset hessian cl fl mode w =
  (w, inl (ValueError ("Invalid value of hessianProjection argument: " +:+ mode))).
Proof.
  intros Hgs Hn Hs Ho. unfold init. rewrite (init_with_run _ _ _ _ _ _ _ _ Hgs).
  apply bind_run_inl. by apply project_hessian_invalid.
Qed.


End ConstructorClaims.

(** ** The object store across a call *)

Section Frame.
Context `{Providers}.
Implicit Types F : gmap loc obj.

Lemma keeps_ret {A : Type} F (a : A) (Φ : A -> Prop) :
  Φ a -> keeps_heap F (mret a) Φ.
Proof. intros Ha w Hw. split; [done|]. cbn. by intros ? [= <-]. Qed.

Lemma keeps_raise {A : Type} F (e : exn) (Φ : A -> Prop) :
  keeps_heap F (raise e) Φ.
Proof. intros w Hw. split; [done|]. cbn. discriminate. Qed.

Lemma keeps_bind {A B : Type} F (m : M A) (k : A -> M B) Φ Ψ :
  keeps_heap F m Φ -> (forall a, Φ a -> keeps_heap F (k a) Ψ) ->
  keeps_heap F (m ≫= k) Ψ.
Proof.
  intros Hm Hk w Hw. destruct (Hm w Hw) as [Hw1 Ha].
  unfold mbind, M_bind. destruct (m w) as [w1 [e|a]]; cbn in *.
  - split; [done|discriminate].
  - by apply Hk; [apply Ha|].
Qed.

Lemma keeps_weaken {A : Type} F (m : M A) (Φ Ψ : A -> Prop) :
  keeps_heap F m Φ -> (forall a, Φ a -> Ψ a) -> keeps_heap F m Ψ.
Proof.
  intros Hm Himp w Hw. destruct (Hm w Hw) as [Hw1 Ha].
  split; [done|]. intros a Hr. by apply Himp, Ha.
Qed.

(** A computation that leaves the store alone keeps every part of it. *)
Lemma keeps_same_heap {A : Type} F (m : M A) :
  (forall w, heap (m w).1 = heap w) -> keeps_heap F m (fun _ => True).
Proof. intros Hm w Hw. by rewrite Hm. Qed.

Lemma keeps_emit F e : keeps_heap F (emit e) (fun _ => True).
Proof. by apply keeps_same_heap. Qed.

Lemma keeps_when F (b : bool) (body : M unit) :
  keeps_heap F body (fun _ => True) -> keeps_heap F (when_ b body) (fun _ => True).
Proof. intros Hb. destruct b; [done|]. by apply keeps_ret. Qed.

Lemma keeps_from_option {A : Type} F e (o : option A) :
  keeps_heap F (from_option e o) (fun _ => True).
Proof. destruct o; [by apply keeps_ret|apply keeps_raise]. Qed.

Lemma keeps_assert F b : keeps_heap F (assert_ b) (fun _ => True).
Proof. destruct b; [by apply keeps_ret|apply keeps_raise]. Qed.

Lemma keeps_read_gateset F l : keeps_heap F (read_gateset l) (fun _ => True).
Proof.
  apply keeps_same_heap. intros w. unfold read_gateset.
  by destruct (heap w !! l) as [[]|].
Qed.

Lemma keeps_read_gate F l : keeps_heap F (read_gate l) (fun _ => True).
Proof.
  apply keeps_same_heap. intros w. unfold read_gate.
  by destruct (heap w !! l) as [[]|].
Qed.

(** A copy is a new object: it is none of those already there. *)
Lemma keeps_copy F o : keeps_heap F (copy o) (fun l => F !! l = None).
Proof.
  intros w Hw. unfold copy. cbn.
  assert (Hfresh : heap w !! fresh (dom (heap w)) = None).
  { apply not_elem_of_dom. apply is_fresh. }
  assert (HF : F !! fresh (dom (heap w)) = None).
  { destruct (F !! fresh (dom (heap w))) as [o'|] eqn:Ho; [|done].
    eapply lookup_weaken in Ho; [|exact Hw]. congruence. }
  split; [by apply insert_subseteq_r|]. by intros ? [= <-].
Qed.

(** Mutating an object that is not among [F] keeps [F]. *)
Lemma keeps_mutate_gate F l f :
  F !! l = None -> keeps_heap F (mutate_gate l f) (fun _ => True).
Proof.
  intros Hl w Hw. unfold mutate_gate.
  destruct (heap w !! l) as [[gs|g]|]; cbn; try done.
  split; [by apply insert_subseteq_r|done].
Qed.

Lemma keeps_mutate_gateset F l f :
  F !! l = None -> keeps_heap F (mutate_gateset l f) (fun _ => True).
Proof.
  intros Hl w Hw. unfold mutate_gateset.
  destruct (heap w !! l) as [[gs|g]|]; cbn; try done.
  split; [by apply insert_subseteq_r|done].
Qed.

Lemma keeps_for {X S : Type} F (xs : list X) (body : S -> X -> M S) :
  (forall s x, keeps_heap F (body s x) (fun _ => True)) ->
  forall s, keeps_heap F (for_ xs body s) (fun _ => True).
Proof.
  intros Hbody. induction xs as [|x xs IH]; intros s; cbn.
  - by apply keeps_ret.
  - eapply keeps_bind; [apply Hbody|]. intros s' _. apply IH.
Qed.

Lemma keeps_list_comp {X Y : Type} F (f : X -> M Y) (xs : list X) :
  (forall x, keeps_heap F (f x) (fun _ => True)) ->
  keeps_heap F (list_comp f xs) (fun _ => True).
Proof.
  intros Hf. induction xs as [|x xs IH]; cbn.
  - by apply keeps_ret.
  - eapply keeps_bind; [apply Hf|]. intros y _.
    eapply keeps_bind; [apply IH|]. intros ys _. by apply keeps_ret.
Qed.

Lemma keeps_np_dot_mv F A v : keeps_heap F (np_dot_mv A v) (fun _ => True).
Proof. unfold np_dot_mv. case_decide; [by apply keeps_ret|apply keeps_raise]. Qed.

Lemma keeps_np_dot_vv F u v : keeps_heap F (np_dot_vv u v) (fun _ => True).
Proof. unfold np_dot_vv. case_decide; [by apply keeps_ret|apply keeps_raise]. Qed.

Lemma keeps_vec_iadd F v i x : keeps_heap F (vec_iadd v i x) (fun _ => True).
Proof. unfold vec_iadd. destruct (v !! i); [by apply keeps_ret|apply keeps_raise]. Qed.

Lemma keeps_fdiff F f1 f0 eps : keeps_heap F (fdiff f1 f0 eps) (fun _ => True).
Proof.
  unfold fdiff. destruct f1, f0; try apply keeps_raise;
    try (case_decide; [by apply keeps_ret|apply keeps_raise]).
  by apply keeps_ret.
Qed.

Lemma keeps_grad_set F g idx d : keeps_heap F (grad_set g idx d) (fun _ => True).
Proof.
  unfold grad_set. destruct g, d; try apply keeps_raise;
    case_decide; (by apply keeps_ret) || apply keeps_raise.
Qed.

Lemma keeps_quad_halfwidth F invQ g :
  keeps_heap F (quad_halfwidth invQ g) (fun _ => True).
Proof.
  unfold quad_halfwidth.
  eapply keeps_bind; [apply keeps_np_dot_mv|]. intros Qg _.
  eapply keeps_bind; [apply keeps_np_dot_vv|]. intros x _. by apply keeps_ret.
Qed.

Lemma keeps_df_entries {Y : Type} F shp (h : nat -> M Y) :
  (forall pos, keeps_heap F (h pos) (fun _ => True)) ->
  keeps_heap F (df_entries shp h) (fun _ => True).
Proof.
  intros Hh. unfold df_entries.
  destruct shp as [|n0 [|n1 [|n2 shp]]].
  - eapply keeps_bind; [apply Hh|]. intros y _. by apply keeps_ret.
  - by apply keeps_list_comp.
  - eapply keeps_bind.
    + apply keeps_list_comp. intros i. by apply keeps_list_comp.
    + intros dfs _. by apply keeps_ret.
  - apply keeps_raise.
Qed.

Lemma keeps_compute_df F self gradF f0 returnFnVal verbosity :
  keeps_heap F (compute_df_from_gradF self gradF f0 returnFnVal verbosity)
    (fun _ => True).
Proof.
  unfold compute_df_from_gradF.
  eapply keeps_bind; [apply keeps_when, keeps_emit|]. intros _ _.
  eapply keeps_bind.
  - instantiate (1 := fun _ => True).
    destruct f0, gradF; try apply keeps_raise.
    + eapply keeps_bind; [apply keeps_quad_halfwidth|]. intros hw _. by apply keeps_ret.
    + eapply keeps_bind.
      * apply keeps_df_entries. intros pos. apply keeps_quad_halfwidth.
      * intros es _. by apply keeps_ret.
    + eapply keeps_bind.
      * apply keeps_df_entries. intros pos.
        eapply keeps_bind; [apply keeps_quad_halfwidth|]. intros re _.
        eapply keeps_bind; [apply keeps_quad_halfwidth|]. intros im _.
        by apply keeps_ret.
      * intros es _. by apply keeps_ret.
  - intros df _.
    eapply keeps_bind; [apply keeps_when, keeps_emit|]. intros _ _. by apply keeps_ret.
Qed.

Lemma keeps_gate_fn F self fnOfGate gateLabel eps returnFnVal verbosity :
  keeps_heap F
    (get_gate_fn_confidence_interval self fnOfGate gateLabel eps returnFnVal verbosity)
    (fun _ => True).
Proof.
  unfold get_gate_fn_confidence_interval, gate_fn_gradF.
  eapply (keeps_bind _ _ _ (fun _ => True)); [|intros [gradF f0] _; apply keeps_compute_df].
  eapply keeps_bind; [apply keeps_read_gateset|]. intros gs _.
  eapply keeps_bind; [apply keeps_from_option|]. intros gateMx _.
  eapply keeps_bind; [apply keeps_from_option|]. intros g _.
  eapply keeps_bind; [apply keeps_copy|]. intros gateObj Hnew. cbn in Hnew.
  eapply keeps_bind; [apply keeps_from_option|]. intros [gpo stop] _.
  eapply keeps_bind; [apply keeps_read_gate|]. intros g0 _.
  eapply (keeps_bind _ _ _ (fun _ => True)); [|intros gradF _; by apply keeps_ret].
  destruct (gates_include _ _); [|by apply keeps_ret].
  apply keeps_for. intros gradF i.
  eapply keeps_bind; [apply keeps_vec_iadd|]. intros gateVec _.
  eapply keeps_bind; [by apply keeps_mutate_gate|]. intros _ _.
  eapply keeps_bind; [apply keeps_read_gate|]. intros g' _.
  eapply keeps_bind; [apply keeps_fdiff|]. intros d _.
  apply keeps_grad_set.
Qed.

Lemma keeps_gateset_fn F self fnOfGateset eps returnFnVal verbosity :
  keeps_heap F
    (get_gateset_fn_confidence_interval self fnOfGateset eps returnFnVal verbosity)
    (fun _ => True).
Proof.
  unfold get_gateset_fn_confidence_interval.
  eapply keeps_bind; [apply keeps_read_gateset|]. intros gs _.
  eapply keeps_bind; [apply keeps_copy|]. intros gateset Hnew. cbn in Hnew.
  eapply keeps_bind; [apply keeps_read_gateset|]. intros gs0 _.
  eapply keeps_bind; [apply keeps_assert|]. intros _ _.
  eapply (keeps_bind _ _ _ (fun _ => True)); [|intros gradF _; apply keeps_compute_df].
  apply keeps_for. intros gradF i.
  eapply keeps_bind; [apply keeps_vec_iadd|]. intros gatesetVec _.
  eapply keeps_bind; [by apply keeps_mutate_gateset|]. intros _ _.
  eapply keeps_bind; [apply keeps_read_gateset|]. intros gs' _.
  eapply keeps_bind; [apply keeps_fdiff|]. intros d _.
  apply keeps_grad_set.
Qed.

Lemma keeps_spam_fn F self fnOfSpamVecs eps returnFnVal verbosity :
  keeps_heap F
    (get_spam_fn_confidence_interval self fnOfSpamVecs eps returnFnVal verbosity)
    (fun _ => True).
Proof.
  unfold get_spam_fn_confidence_interval.
  eapply keeps_bind; [apply keeps_read_gateset|]. intros gs _.
  eapply (keeps_bind _ _ _ (fun _ => True)); [|intros gradF _; apply keeps_compute_df].
  destruct (fl_SPAM _); [|by apply keeps_ret].
  eapply keeps_bind; [apply keeps_copy|]. intros gsEps Hnew. cbn in Hnew.
  eapply keeps_bind.
  - apply keeps_for. intros gradF [k rhoVec].
    eapply keeps_bind; [apply keeps_from_option|]. intros [off stop] _.
    eapply keeps_bind.
    + apply keeps_for. intros gradF' i.
      eapply keeps_bind; [apply keeps_vec_iadd|]. intros vecEps _.
      eapply keeps_bind; [by apply keeps_mutate_gateset|]. intros _ _.
      eapply keeps_bind; [apply keeps_read_gateset|]. intros gs' _.
      eapply keeps_bind; [apply keeps_fdiff|]. intros d _.
      apply keeps_grad_set.
    + intros gradF' _.
      eapply keeps_bind; [by apply keeps_mutate_gateset|]. intros _ _.
      by apply keeps_ret.
  - intros gradF _.
    apply keeps_for. intros gradF' [k EVec].
    eapply keeps_bind; [apply keeps_from_option|]. intros [off stop] _.
    eapply keeps_bind.
    + apply keeps_for. intros gradF'' i.
      eapply keeps_bind; [apply keeps_vec_iadd|]. intros vecEps _.
      eapply keeps_bind; [by apply keeps_mutate_gateset|]. intros _ _.
      eapply keeps_bind; [apply keeps_read_gateset|]. intros gs' _.
      eapply keeps_bind; [apply keeps_fdiff|]. intros d _.
      apply keeps_grad_set.
    + intros gradF'' _.
      eapply keeps_bind; [by apply keeps_mutate_gateset|]. intros _ _.
      by apply keeps_ret.
Qed.

(** C7. Each of the three interval-propagation calls, whether it returns or
    raises, ends with every object of the store it started from (the
    region's gate-set estimate among them) still there in the same state:
    what it perturbs are copies it made itself. *)
Theorem fn_confidence_interval_frame (self : ConfidenceRegion)
    (fnOfGate : matrix -> fval) (gateLabel : string)
    (fnOfGateset : GS -> fval)
    (fnOfSpamVecs : list vector -> list vector -> fval)
    (eps : R) (returnFnVal : bool) (verbosity : Z) (w : world) :
  heap w ⊆
    heap (get_gate_fn_confidence_interval self fnOfGate gateLabel eps
            returnFnVal verbosity w).1 /\
  heap w ⊆
    heap (get_gateset_fn_confidence_interval self fnOfGateset eps
            returnFnVal verbosity w).1 /\
  heap w ⊆
    heap (get_spam_fn_confidence_interval self fnOfSpamVecs eps
            returnFnVal verbosity w).1.
Proof.
  repeat split.
  - by apply (keeps_gate_fn (heap w)).
  - by apply (keeps_gateset_fn (heap w)).
  - by apply (keeps_spam_fn (heap w)).
Qed.

End Frame.

(** ** Gradients and half-widths *)

Section PropagationClaims.
Context `{Providers}.
Local Open Scope R_scope.

Lemma zeros_gradF_zero nParams f0 idx :
  (idx < nParams)%nat -> is_zero_at (zeros_gradF nParams f0) idx.
Proof.
  intros Hidx. destruct f0 as [x|a|a]; cbn.
  - by apply lookup_replicate_2.
  - eexists. split; [by apply lookup_replicate_2|]. apply Forall_replicate. done.
  - eexists. split; [by apply lookup_replicate_2|]. apply Forall_replicate. done.
Qed.

Lemma grad_set_inr_zero gradF j d w w' gradF' idx :
  grad_set gradF j d w = (w', inr gradF') ->
  idx <> j -> is_zero_at gradF idx -> is_zero_at gradF' idx.
Proof.
  unfold grad_set. intros Hrun Hne Hz.
  destruct gradF as [g|rows|rows], d as [x|a|a]; try discriminate;
    case_decide; try discriminate; injection Hrun as _ <-; cbn in *.
  - by rewrite list_lookup_insert_ne.
  - destruct Hz as (row & Hrow & Hall). exists row.
    by rewrite list_lookup_insert_ne.
  - destruct Hz as (row & Hrow & Hall). exists row.
    by rewrite list_lookup_insert_ne.
Qed.

Lemma for_inr_inv {X S : Type} (I : S -> Prop) (xs : list X) (body : S -> X -> M S) :
  (forall s x w w' s', x ∈ xs -> I s -> body s x w = (w', inr s') -> I s') ->
  forall s w w' s', I s -> for_ xs body s w = (w', inr s') -> I s'.
Proof.
  induction xs as [|x xs IH]; intros Hbody s w w' s' Hs Hrun; cbn in Hrun.
  - by apply ret_inr in Hrun as [_ ->].
  - inv_bind Hrun. eapply IH; [| |exact Hrun].
    + intros s1 y w1 w2 s2 Hy. apply Hbody. by right.
    + eapply Hbody; [by left|exact Hs|exact Hstep].
Qed.

Lemma copy_inr o w w' l :
  copy o w = (w', inr l) ->
  l = fresh (dom (heap w)) /\ w' = World (<[l := o]> (heap w)) (events w).
Proof. unfold copy. by intros [= <- <-]. Qed.

(** C6. In [get_gate_fn_confidence_interval], every gradient entry outside
    the block [gpo, gpo + nGateParams) of the target gate is zero; and when
    the [gates] flag is neither [True] nor a list or tuple containing
    [gateLabel], the whole gradient is the zero array it started as. *)
Theorem gate_fn_gradF_block self fnOfGate gateLabel eps w w' gradF f0 :
  gate_fn_gradF self fnOfGate gateLabel eps w = (w', inr (gradF, f0)) ->
  exists gs gateMx g gpo stop,
    let fl := get_parameterization_flags self in
    heap w !! gateset self = Some (ObjGateSet gs) /\
    getitem gs gateLabel = Some gateMx /\
    get_gate gs gateLabel = Some g /\
    gateset_offsets self !! gateLabel = Some (gpo, stop) /\
    f0 = fnOfGate gateMx /\
    (forall idx, (idx < num_params gs fl)%nat ->
       ~ (gpo <= idx < gpo + gate_num_params g (fl_G0 fl))%nat ->
       is_zero_at gradF idx) /\
    (gates_include (fl_gates fl) gateLabel = false ->
       gradF = zeros_gradF (num_params gs fl) f0).
Proof.
  unfold gate_fn_gradF. intros Hrun.
  inv_bind Hrun. apply read_gateset_inr in Hstep as [-> Hgs]. rename a into gs.
  inv_bind Hrun. apply from_option_inr in Hstep as [-> HgateMx]. rename a into gateMx.
  inv_bind Hrun. apply from_option_inr in Hstep as [-> Hg]. rename a into g.
  inv_bind Hrun. apply copy_inr in Hstep as [-> ->].
  inv_bind Hrun. apply from_option_inr in Hstep as [-> Hoff].
  destruct a as [gpo stop].
  inv_bind Hrun. apply read_gate_inr in Hstep as [-> Hg0].
  cbn in Hg0. rewrite lookup_insert_eq in Hg0. injection Hg0 as <-.
  inv_bind Hrun. apply ret_inr in Hrun as [-> [= -> ->]].
  exists gs, gateMx, g, gpo, stop. cbn zeta. repeat split; try done.
  - intros idx Hidx Hout.
    destruct (gates_include _ _).
    + eapply (for_inr_inv (fun gF => is_zero_at gF idx)); [| |exact Hstep].
      * intros gF i w1 w2 gF' Hi HgF Hbody.
        apply elem_of_seq in Hi.
        inv_bind Hbody. inv_bind Hbody. inv_bind Hbody. inv_bind Hbody.
        eapply grad_set_inr_zero; [exact Hbody| |exact HgF]. lia.
      * by apply zeros_gradF_zero.
    + apply ret_inr in Hstep as [_ ->]. by apply zeros_gradF_zero.
  - intros Hflag. rewrite Hflag in Hstep. by apply ret_inr in Hstep as [_ ->].
Qed.

Lemma vdot_zeros_l n v : vdot (zeros n) v = 0.
Proof.
  unfold vdot. rewrite (rsum_ext _ _ (fun _ => 0)); [apply rsum_zero|].
  intros k _. rewrite nth_zeros. lra.
Qed.

Lemma mvdot_length A v : length (mvdot A v) = nrows A.
Proof. apply tabulate_length. Qed.

Lemma quad_halfwidth_inr invQ g w w' x :
  quad_halfwidth invQ g w = (w', inr x) ->
  w' = w /\ x = sqrt (Rabs (vdot g (mvdot invQ g))).
Proof.
  unfold quad_halfwidth. intros Hrun.
  inv_bind Hrun. apply np_dot_mv_inr in Hstep as (-> & _ & ->).
  inv_bind Hrun. apply np_dot_vv_inr in Hstep as (-> & _ & ->).
  by apply ret_inr in Hrun as [-> ->].
Qed.

Lemma quad_halfwidth_zeros invQ n w :
  ncols invQ = n -> nrows invQ = n ->
  quad_halfwidth invQ (zeros n) w = (w, inr 0).
Proof.
  intros Hc Hr. unfold quad_halfwidth, np_dot_mv, np_dot_vv.
  assert (Hlen : length (zeros n) = n) by apply length_replicate.
  rewrite decide_True by congruence.
  erewrite bind_run_inr by reflexivity.
  rewrite decide_True by (rewrite mvdot_length; congruence).
  erewrite bind_run_inr by reflexivity.
  rewrite vdot_zeros_l, Rabs_R0, sqrt_0. reflexivity.
Qed.


End PropagationClaims.

Section DfClaims.
Context `{Providers}.
Local Open Scope R_scope.

Lemma list_comp_inr_pure {X Y : Type} (f : X -> M Y) (g : X -> Y) (xs : list X) :
  (forall x w w' y, f x w = (w', inr y) -> w' = w /\ y = g x) ->
  forall w w' ys, list_comp f xs w = (w', inr ys) -> w' = w /\ ys = map g xs.
Proof.
  intros Hf. induction xs as [|x xs IH]; intros w w' ys Hrun; cbn in Hrun.
  - by apply ret_inr in Hrun as [-> ->].
  - inv_bind Hrun. apply Hf in Hstep as [-> ->].
    inv_bind Hrun. apply IH in Hstep as [-> ->].
    by apply ret_inr in Hrun as [-> ->].
Qed.

Lemma tabulate_app {X : Type} (n m : nat) (f : nat -> X) :
  tabulate (n + m) f = tabulate n f ++ tabulate m (fun j => f (n + j)%nat).
Proof.
  unfold tabulate. rewrite seq_app, map_app. f_equal. cbn.
  replace (seq n m) with (Nat.add n <$> seq 0 m)
    by (rewrite fmap_add_seq; f_equal; lia).
  apply map_map.
Qed.

Lemma concat_tabulate {X : Type} (n0 n1 : nat) (f : nat -> X) :
  concat (map (fun i => map (fun j => f (i * n1 + j)%nat) (seq 0 n1)) (seq 0 n0)) =
  tabulate (n0 * n1) f.
Proof.
  induction n0 as [|n0 IH]; [done|].
  rewrite seq_S, map_app, concat_app, IH.
  replace (S n0 * n1)%nat with (n0 * n1 + n1)%nat by lia.
  rewrite tabulate_app. cbn. by rewrite app_nil_r.
Qed.

(** The entries of [df], in row-major order, for an output of at most two
    dimensions; the error for more. *)
Lemma df_entries_inr {Y : Type} (shp : list nat) (h : nat -> M Y) (hv : nat -> Y) :
  (forall pos w w' y, h pos w = (w', inr y) -> w' = w /\ y = hv pos) ->
  forall w w' es, df_entries shp h w = (w', inr es) ->
    w' = w /\ es = tabulate (size_of shp) hv.
Proof.
  intros Hh w w' es Hrun. unfold df_entries in Hrun.
  destruct shp as [|n0 [|n1 [|n2 shp]]]; [| | |discriminate].
  - inv_bind Hrun. apply Hh in Hstep as [-> ->]. by apply ret_inr in Hrun as [-> ->].
  - apply (list_comp_inr_pure _ hv _ Hh) in Hrun as [-> ->].
    cbn. by rewrite Nat.mul_1_r.
  - inv_bind Hrun.
    apply (list_comp_inr_pure _
             (fun i => map (fun j => hv (i * n1 + j)%nat) (seq 0 n1))) in Hstep
      as [-> ->].
    + apply ret_inr in Hrun as [-> ->]. split; [done|].
      rewrite concat_tabulate. cbn. by rewrite Nat.mul_1_r.
    + intros i w1 w2 ys Hrow.
      eapply (list_comp_inr_pure _ (fun j => hv (i * n1 + j)%nat)); [|exact Hrow].
      intros j w3 w4 y Hj. by apply Hh in Hj.
Qed.



End DfClaims.

(** ** The two-parameter example, run *)

Section ToyRuns.
Local Open Scope R_scope.
Existing Instance Toy.api.
Existing Instance Toy.providers.

Lemma toy_isclose cl :
  isclose (chi2_ppf (cl / 100) 1) ((- norm_ppf ((1 - cl / 100) / 2)) ^ 2) = true.
Proof.
  cbn. unfold isclose. apply bool_decide_eq_true.
  replace (1 - - -1 * (- -1 * 1)) with 0 by lra.
  rewrite Rabs_R0. pose proof (Rabs_pos (- -1 * (- -1 * 1))). lra.
Qed.

Lemma toy_PP : mmdot Toy.P Toy.P = Toy.P.
Proof. cbv [mmdot mx_of_fun tabulate nrows ncols Toy.P rsum entry length seq map nth foldr]. repeat f_equal; lra. Qed.


Lemma toy_project_std optimal w :
  project_hessian optimal Toy.P Toy.H "std" w = (w, inr Toy.PHP).
Proof. reflexivity. Qed.

Lemma toy_run_std cl :
  0 < cl -> cl < 100 ->
  Toy.run cl "std" =
  (World (heap Toy.w0) (events Toy.w0 ++ events_of_init cl Toy.PHP),
   inr (region_from 0 Toy.fl 1 1 cl Toy.PHP (get_vector_offsets Toy.gs0 Toy.fl))).
Proof.
  intros Hpos Hlt. unfold Toy.run, init.
  rewrite (init_with_run _ _ _ _ _ _ _ Toy.gs0) by reflexivity.
  erewrite bind_run_inr by apply toy_project_std.
  rewrite (init_from_projected_run _ _ _ _ _ _ _ Toy.gs0); try done.
  apply toy_isclose.
Qed.


Ltac toy_compute :=
  cbv [Toy.PHP Toy.P Toy.H mmdot mvdot vdot mx_of_fun mx_div tabulate nrows ncols
       rsum entry column diag transpose zeros replicate
       length seq map nth foldr fst snd eigh chi2_ppf Toy.providers].

Lemma toy_evals cl :
  (eigh (mx_div Toy.PHP (chi2_ppf (cl / 100) 1))).1 = [0; 2].
Proof. toy_compute. repeat f_equal; lra. Qed.

Lemma toy_Um cl :
  (eigh (mx_div Toy.PHP (chi2_ppf (cl / 100) 1))).2 = [[1; 0]; [0; 1]].
Proof. reflexivity. Qed.

Lemma toy_orderInds : orderInds [0; 2] = [0; 1]%nat.
Proof.
  unfold orderInds, sorted, enumerate. cbn.
  rewrite decide_False; [done|].
  rewrite Rabs_R0. pose proof (Rabs_pos 2). lra.
Qed.

Lemma toy_orthonormal : orthonormal_columns 2 [[1; 0]; [0; 1]].
Proof.
  split; [done|]. split; [by repeat constructor|].
  intros c d Hc Hd.
  destruct c as [|[|c]], d as [|[|d]]; try lia; cbn; case_decide; (lra || lia).
Qed.


Lemma toy_run_std_region :
  Toy.run 95 "std" =
  (World (heap Toy.w0) (events Toy.w0 ++ events_of_init 95 Toy.PHP),
   inr (Toy.region Toy.fl)).
Proof.
  rewrite toy_run_std by lra. do 2 f_equal.
  unfold region_from, Toy.region.
  rewrite toy_evals, toy_Um.
  assert (HQ : mx_div Toy.PHP (chi2_ppf (95 / 100) 1) = [[0; 0]; [0; 2]])
    by (toy_compute; repeat f_equal; lra).
  assert (Hinv : invEvals 1 [0; 2] = [0; 1 / 2])
    by (unfold invEvals; by rewrite toy_orderInds).
  rewrite HQ, Hinv.
  assert (HinvQ : mmdot [[1; 0]; [0; 1]]
                    (mmdot (diag [0; 1 / 2]) (transpose [[1; 0]; [0; 1]]))
                  = [[0; 0]; [0; 1 / 2]]).
  { toy_compute. repeat case_decide; try lia. repeat f_equal; lra. }
  rewrite HinvQ.
  assert (Htr : transpose [[1; 0]; [0; 1]] = [[1; 0]; [0; 1]]) by reflexivity.
  rewrite Htr.
  assert (Hsc : sqrt (chi2_ppf (95 / 100) 1 / chi2_ppf (95 / 100) 1) = 1).
  { cbn. replace (1 / 1) with 1 by lra. apply sqrt_1. }
  rewrite Hsc.
  assert (Hprof : map (fun k => sqrt (Rabs (entry [[0; 0]; [0; 1 / 2]] k k)))
                    (seq 0 (length [0; 2])) = [0; sqrt (1 / 2)]).
  { cbn. rewrite Rabs_R0, sqrt_0. rewrite Rabs_pos_eq by lra. reflexivity. }
  rewrite Hprof. reflexivity.
Qed.

(** Witness of C1: the 95% region of the example built with 'std'. *)
Lemma init_inverts_nongauge_eigenvalues_witness :
  exists w' r,
    Toy.run 95 "std" = (w', inr r) /\ (0 <= nGaugeParams r)%Z /\
    nth 0 (invEvals (nGaugeParams r) (eigh (regionQuadcForm r)).1) 0 = 0 /\
    nth 1 (invEvals (nGaugeParams r) (eigh (regionQuadcForm r)).1) 0 = 1 / 2 /\
    mvdot (invRegionQuadcForm r) (column (U r) 0) = zeros 2.
Proof.
  assert (Hrun := toy_run_std 95 ltac:(lra) ltac:(lra)).
  eexists _, _. split; [exact Hrun|].
  assert (HnG : (0 <= nGaugeParams
            (region_from 0 Toy.fl 1 1 95 Toy.PHP (get_vector_offsets Toy.gs0 Toy.fl)))%Z)
    by (cbn; lia).
  split; [exact HnG|].
  destruct (init_inverts_nongauge_eigenvalues _ _ _ _ _ _ _ _ Hrun HnG)
    as (HU & _ & _ & _ & Hinv & _ & Hzero).
  cbn [regionQuadcForm region_from nGaugeParams] in *.
  rewrite toy_evals in *. rewrite toy_orderInds in *.
  split; [exact (Hinv 0%nat 0%nat eq_refl)|].
  split; [exact (Hinv 1%nat 1%nat eq_refl)|].
  rewrite HU. rewrite toy_Um in *.
  exact (Hzero toy_orthonormal 0%nat 0%nat ltac:(cbn; lia) eq_refl).
Defined.


(** Witness of C2. *)
Lemma init_calibration_witness :
  exists w' r,
    Toy.run 95 "std" = (w', inr r) /\
    regionQuadcForm r = mx_div Toy.PHP 1 /\ intervalScaling r = sqrt (1 / 1).
Proof.
  assert (Hrun := toy_run_std 95 ltac:(lra) ltac:(lra)).
  eexists _, _. split; [exact Hrun|].
  destruct (init_calibration 0 Toy.H 95 Toy.fl "std" Toy.w0 Toy.gs0 Toy.w0 Toy.PHP
              ltac:(lra) eq_refl eq_refl) as [_ Hfields].
  destruct (Hfields _ _ Hrun) as (_ & _ & HQ & Hscale).
  split; [exact HQ|exact Hscale].
Defined.

(** Witness of C3. *)
Lemma profLCI_sqrt_abs_diag_witness :
  exists w' r,
    Toy.run 95 "std" = (w', inr r) /\
    length (profLCI r) = 2%nat /\ Forall (fun x => 0 <= x) (profLCI r).
Proof.
  assert (Hrun := toy_run_std 95 ltac:(lra) ltac:(lra)).
  eexists _, _. split; [exact Hrun|].
  destruct (profLCI_sqrt_abs_diag _ _ _ _ _ _ _ _ Hrun) as (Hlen & _ & Hnn).
  split; [exact Hlen|].
  exact (Hnn None Toy.w0 Toy.w0 _ eq_refl).
Defined.

Lemma toy_dot_PP w : np_dot_mm Toy.P Toy.P w = (w, inr Toy.P).
Proof. rewrite np_dot_mm_run by done. by rewrite toy_PP. Qed.

(** Witness of C4. *)
Lemma init_none_on_projected_eq_std_witness :
  init 0 Toy.PHP 95 Toy.fl "none" Toy.w0 = init 0 Toy.H 95 Toy.fl "std" Toy.w0.
Proof.
  exact (proj1 (init_none_on_projected_eq_std 0 Toy.gs0 Toy.H Toy.PHP 95 Toy.fl Toy.w0
                  eq_refl (toy_dot_PP Toy.w0) eq_refl)).
Defined.

(** Witness of C5. *)
Lemma init_invalid_projection_witness :
  Toy.run 95 "bogus" =
  (Toy.w0, inl (ValueError "Invalid value of hessianProjection argument: bogus")).
Proof.
  exact (init_invalid_projection 0 Toy.gs0 Toy.H 95 Toy.fl "bogus" Toy.w0
           eq_refl ltac:(discriminate) ltac:(discriminate) ltac:(discriminate)).
Defined.



(** A run returns when its outcome is a value and not an exception. *)
Lemma returns_inr {A : Type} (t : @world Toy.api * (exn + A)) :
  match t.2 with inr _ => True | inl _ => False end ->
  exists w' a, t = (w', inr a).
Proof. destruct t as [w' [e|a]]; cbn; [done|]. by exists w', a. Qed.

(** Witness of C6: the gradient of the entry of ["Gx"]. *)
Lemma gate_fn_gradF_block_witness :
  exists w' gradF f0,
    gate_fn_gradF (Toy.region Toy.fl) Toy.fnEntry "Gx" 1e-7 Toy.w0
      = (w', inr (gradF, f0)) /\
    is_zero_at gradF 1.
Proof.
  destruct (returns_inr
              (gate_fn_gradF (Toy.region Toy.fl) Toy.fnEntry "Gx" 1e-7 Toy.w0))
    as (w' & [gradF f0] & Hrun); [by vm_compute|].
  exists w', gradF, f0. split; [exact Hrun|].
  destruct (gate_fn_gradF_block _ _ _ _ _ _ _ _ Hrun)
    as (gs & gateMx & g & gpo & stop & Hgs & _ & Hg & Hoff & _ & Hzero & _).
  injection Hgs as <-. injection Hg as <-. injection Hoff as <- <-.
  apply Hzero; vm_compute; lia.
Defined.



End ToyRuns.

(** * Further properties *)

(** ** Ties in the ordering of the eigenvalues *)

Section OrderingTies.
Local Open Scope R_scope.

(** X6. The ordering of the eigenvalues is by magnitude, ties in the order
    of their indices (Python's sort is stable): of two positions of the
    ordering, the earlier holds the index of the smaller magnitude, or of an
    equal one and then the smaller index. *)
Theorem orderInds_ties_by_index (evals : vector) (a b i j : nat) :
  (a < b)%nat ->
  orderInds evals !! a = Some i ->
  orderInds evals !! b = Some j ->
  Rabs (nth i evals 0) < Rabs (nth j evals 0) \/
  (Rabs (nth i evals 0) = Rabs (nth j evals 0) /\ (i < j)%nat).
Proof.
  intros Hab Ha Hb.
  pose proof (orderInds_stable evals) as Hs.
  revert a b Hab Ha Hb. induction Hs as [|x l Hl IH Hx]; intros a b Hab Ha Hb.
  - by rewrite lookup_nil in Ha.
  - destruct b as [|b]; [lia|]. cbn in Hb. destruct a as [|a].
    + injection Ha as ->. rewrite Forall_forall in Hx. apply Hx.
      by eapply list_elem_of_lookup_2.
    + cbn in Ha. apply (IH a b); [lia|done|done].
Qed.

End OrderingTies.

(** ** The constructor: what a region stores, and what building it does *)

Section ConstructorMore.
Context `{Providers}.
Local Open Scope R_scope.

Lemma init_inr_store gateset hessian cl fl mode w w' r :
  init gateset hessian cl fl mode w = (w', inr r) ->
  exists gs w1 ph gs',
    let Pm := get_nongauge_projector gs fl in
    let nN := matrix_rank Pm P_RANK_TOL in
    let nG := (Z.of_nat (nrows hessian) - Z.of_nat nN)%Z in
    heap w !! gateset = Some (ObjGateSet gs) /\
    project_hessian (optProjectionForGateCIs gateset hessian nN nG fl cl 3%Z)
      Pm hessian mode w = (w1, inr ph) /\
    heap w1 !! gateset = Some (ObjGateSet gs') /\
    w' = World (heap w1) (events w1 ++ events_of_init cl ph) /\
    r = region_from gateset fl nN nG cl ph (get_vector_offsets gs' fl).
Proof.
  unfold init, init_with. intros Hrun.
  inv_bind Hrun. apply read_gateset_inr in Hstep as [-> Hgs].
  inv_bind Hrun. apply init_from_projected_inr in Hrun as (gs' & ? & ? & ? & ? & ?).
  by exists a, w0, a0, gs'.
Qed.

Lemma project_hessian_plain_inr optimal Pm hessian mode w w1 ph :
  mode = "none" \/ mode = "std" ->
  project_hessian optimal Pm hessian mode w = (w1, inr ph) ->
  w1 = w /\ ph = if decide (mode = "none") then hessian else mmdot Pm (mmdot hessian Pm).
Proof.
  intros [-> | ->] Hp.
  - rewrite project_hessian_none in Hp. by injection Hp as <- <-.
  - rewrite project_hessian_std in Hp. inv_bind Hp.
    apply np_dot_mm_inr in Hstep as (-> & _ & ->).
    by apply np_dot_mm_inr in Hp as (-> & _ & ->).
Qed.

(** X1. A region remembers what it was built from: [get_gateset] gives back
    the estimate it was given, [get_parameterization_flags] the flags, [level]
    the confidence level; the gauge and non-gauge counts add up to the size
    of the Hessian; and the offsets are those of the estimate as it is in the
    store when the constructor returns. *)
Theorem init_stores_inputs gateset hessian cl fl mode w w' r :
  init gateset hessian cl fl mode w = (w', inr r) ->
  get_gateset r = gateset /\
  get_parameterization_flags r = fl /\
  level r = cl /\
  (nGaugeParams r + Z.of_nat (nNonGaugeParams r) = Z.of_nat (nrows hessian))%Z /\
  exists gs', heap w' !! gateset = Some (ObjGateSet gs') /\
              gateset_offsets r = get_vector_offsets gs' fl.
Proof.
  intros Hrun.
  apply init_inr_store in Hrun as (gs & w1 & ph & gs' & _ & _ & Hgs' & -> & ->).
  cbn. repeat split; try done; [lia|]. by exists gs'.
Qed.

(** X2. Built with 'none' or 'std', a region costs one eigendecomposition, of
    the quadratic form it stores, preceded by the small-level warning exactly
    when the level is below 1; nothing else happens, and the object store is
    left as it was. *)
Theorem init_effects gateset hessian cl fl mode w w' r :
  mode = "none" \/ mode = "std" ->
  init gateset hessian cl fl mode w = (w', inr r) ->
  heap w' = heap w /\
  events w' = events w ++ (if bool_decide (cl < 1) then [EvWarn cl] else [])
                       ++ [EvEigh (regionQuadcForm r)].
Proof.
  intros Hmode Hrun.
  apply init_inr_store in Hrun as (gs & w1 & ph & gs' & _ & Hp & _ & -> & ->).
  apply (project_hessian_plain_inr _ _ _ _ _ _ _ Hmode) in Hp as [-> _].
  done.
Qed.

(** X3. Unless the mode is 'optimal gate CIs', the constructor does not
    depend on the optimizer: whatever stands for [_optProjectionForGateCIs],
    the outcome is the same.  (The regions that [objective_func] builds with
    'none' are therefore those of the constructor itself.) *)
Theorem init_with_optimizer_unused opt1 opt2 gateset hessian cl fl mode w :
  mode <> "optimal gate CIs" ->
  init_with opt1 gateset hessian cl fl mode w =
  init_with opt2 gateset hessian cl fl mode w.
Proof.
  intros Hmode. unfold init_with, mbind, M_bind.
  destruct (read_gateset gateset w) as [w1 [e|gs]]; [done|].
  assert (Hp : forall o1 o2 Pm,
             project_hessian o1 Pm hessian mode w1 = project_hessian o2 Pm hessian mode w1).
  { intros o1 o2 Pm. unfold project_hessian. repeat case_decide; done. }
  erewrite Hp. reflexivity.
Qed.

Lemma entry_overflow_col (A : matrix) i j :
  Forall (fun row => length row <= j)%nat A -> entry A i j = 0.
Proof.
  intros Hall. unfold entry. destruct (A !! i) as [row|] eqn:Hrow.
  - rewrite (nth_lookup_Some A i [] row Hrow). apply nth_overflow.
    rewrite Forall_forall in Hall. apply Hall. by eapply list_elem_of_lookup_2.
  - apply lookup_ge_None in Hrow. rewrite (nth_overflow A) by done. by destruct j.
Qed.

Lemma mx_of_fun_rows n m f :
  Forall (fun row => length row = m) (mx_of_fun n m f).
Proof.
  unfold mx_of_fun, tabulate. apply Forall_fmap, Forall_forall. intros i _.
  cbn. by rewrite length_map, length_seq.
Qed.

(** The entries of [U·diag(d)·Uᵗ]. *)
Lemma entry_UDUt (Um : matrix) (d : vector) (a b : nat) :
  length d = ncols Um -> (a < nrows Um)%nat -> (b < nrows Um)%nat ->
  entry (mmdot Um (mmdot (diag d) (transpose Um))) a b =
  rsum (ncols Um) (fun c => entry Um a c * (nth c d 0 * entry Um b c)).
Proof.
  intros Hd Ha Hb.
  destruct (decide (ncols Um = 0)%nat) as [Hz|Hnz].
  { rewrite Hz. rewrite rsum_0. unfold mmdot at 1. apply entry_overflow_col.
    assert (Hd0 : d = []) by (destruct d; [done|cbn in Hd; lia]). subst d.
    eapply Forall_impl; [apply mx_of_fun_rows|]. cbn. intros row ->. lia. }
  unfold mmdot at 1. rewrite entry_mx_of_fun; [|done|].
  2:{ rewrite ncols_mmdot by (rewrite nrows_diag; lia).
      rewrite ncols_transpose by lia. done. }
  apply rsum_ext. intros c Hc. f_equal.
  unfold mmdot. rewrite entry_mx_of_fun;
    [|by rewrite nrows_diag, Hd|by rewrite ncols_transpose by lia].
  rewrite ncols_diag, Hd.
  rewrite (rsum_single _ c) by
    (try done; intros k Hk Hkc; rewrite entry_diag by lia;
     rewrite decide_False by done; lra).
  rewrite entry_diag by lia. rewrite decide_True by done.
  by rewrite entry_transpose.
Qed.

(** X4. The inverse quadratic form of a region is symmetric:
    [invQ[a,b] = invQ[b,a]]. *)
Theorem invRegionQuadcForm_symmetric gateset hessian cl fl mode w w' r (a b : nat) :
  init gateset hessian cl fl mode w = (w', inr r) ->
  entry (invRegionQuadcForm r) a b = entry (invRegionQuadcForm r) b a.
Proof.
  unfold init, init_with. intros Hrun.
  inv_bind Hrun. inv_bind Hrun. clear Hstep Hstep0.
  unfold init_from_projected in Hrun.
  inv_bind Hrun. inv_bind Hrun. inv_bind Hrun. inv_bind Hrun.
  unfold np_eigh in Hstep2. inv_bind Hstep2.
  apply ret_inr in Hstep2 as [_ ->].
  destruct (eigh _) as [evals Um].
  inv_bind Hrun. apply np_dot_mm_inr in Hstep2 as (_ & Hal1 & ->).
  inv_bind Hrun. apply np_dot_mm_inr in Hstep2 as (_ & Hal2 & ->).
  inv_bind Hrun. inv_bind Hrun. apply ret_inr in Hrun as [_ ->].
  cbn [invRegionQuadcForm]. unfold conjugate in *.
  rewrite ncols_diag, nrows_transpose in Hal1.
  set (invQ := mmdot Um (mmdot (diag (invEvals _ evals)) (transpose Um))).
  assert (Hsym : forall i j, (i < nrows Um)%nat -> (j < nrows Um)%nat ->
                   entry invQ i j = entry invQ j i).
  { intros i j Hi Hj. unfold invQ. rewrite !entry_UDUt by done.
    apply rsum_ext. intros c _. lra. }
  assert (Hrows : nrows invQ = nrows Um) by apply nrows_mmdot.
  assert (Hcols : Forall (fun row => length row <= nrows Um)%nat invQ).
  { unfold invQ, mmdot at 1. eapply Forall_impl; [apply mx_of_fun_rows|].
    cbn. intros row ->.
    etrans; [apply ncols_mx_of_fun_le|].
    destruct (decide (ncols Um = 0)%nat) as [Hz|Hnz].
    - unfold transpose. rewrite Hz. cbn. lia.
    - rewrite ncols_transpose by lia. done. }
  destruct (decide (a < nrows Um)%nat) as [Ha|Ha], (decide (b < nrows Um)%nat) as [Hb|Hb].
  - by apply Hsym.
  - rewrite (entry_overflow_row invQ b) by lia.
    apply entry_overflow_col. eapply Forall_impl; [exact Hcols|]. cbn. lia.
  - rewrite (entry_overflow_row invQ a) by lia. symmetry.
    apply entry_overflow_col. eapply Forall_impl; [exact Hcols|]. cbn. lia.
  - by rewrite !entry_overflow_row by lia.
Qed.

End ConstructorMore.

Section ConstructorInverse.
Context `{Providers}.
Local Open Scope R_scope.

Lemma mvdot_scale (A : matrix) (c : R) (v : vector) :
  mvdot A (map (Rmult c) v) = map (Rmult c) (mvdot A v).
Proof.
  unfold mvdot, tabulate. rewrite map_map. apply map_ext. intros i.
  rewrite <- rsum_mult_l. apply rsum_ext. intros k _.
  assert (Hk : nth k (map (Rmult c) v) 0 = c * nth k v 0).
  { destruct (v !! k) as [x|] eqn:Hx.
    - rewrite (nth_lookup_Some v k 0 x Hx).
      apply nth_lookup_Some. by rewrite list_lookup_fmap, Hx.
    - apply lookup_ge_None in Hx.
      rewrite !nth_overflow by (by rewrite ?length_map). lra. }
  rewrite Hk. lra.
Qed.

Lemma map_scale_inverse (c e : R) (v : vector) :
  c * e = 1 -> map (Rmult c) (map (Rmult e) v) = v.
Proof.
  intros Hce. rewrite map_map. rewrite <- (map_id v) at 2.
  apply map_ext. intros x. rewrite <- Rmult_assoc, Hce. lra.
Qed.

(** X5. On the eigenvectors past the first [nGaugeParams] of the ordering,
    the inverse quadratic form is the inverse: it multiplies such an
    eigenvector by [1/eval], and where [Q = U·diag(evals)·Uᵗ] with a non-zero
    eigenvalue there, [Q·(invQ·u) = u]. *)
Theorem invRegionQuadcForm_inverts_nongauge gateset hessian cl fl mode w w' r (a i : nat) :
  init gateset hessian cl fl mode w = (w', inr r) ->
  (0 <= nGaugeParams r)%Z ->
  let evals := (eigh (regionQuadcForm r)).1 in
  let Um := (eigh (regionQuadcForm r)).2 in
  orthonormal_columns (length evals) Um ->
  orderInds evals !! a = Some i ->
  (Z.to_nat (nGaugeParams r) <= a)%nat ->
  mvdot (invRegionQuadcForm r) (column Um i) =
    map (Rmult (1 / nth i evals 0)) (column Um i) /\
  (regionQuadcForm r = mmdot Um (mmdot (diag evals) (transpose Um)) ->
   nth i evals 0 <> 0 ->
   mvdot (regionQuadcForm r) (mvdot (invRegionQuadcForm r) (column Um i)) = column Um i).
Proof.
  intros Hrun HnG evals Um Horth Ha Hpos.
  apply init_inr in Hrun as (gs & w1 & ph & gs' & _ & _ & _ & _ & _ & ->).
  unfold region_from in *.
  cbn [nGaugeParams regionQuadcForm invRegionQuadcForm] in *.
  fold evals Um in Horth |- *.
  assert (Hi : (i < length evals)%nat).
  { apply orderInds_lt. by eapply list_elem_of_lookup_2. }
  assert (Hinv : mvdot (mmdot Um (mmdot (diag (invEvals
                   (Z.of_nat (nrows hessian) -
                    Z.of_nat (matrix_rank (get_nongauge_projector gs fl) P_RANK_TOL))
                   evals)) (transpose Um))) (column Um i)
                 = map (Rmult (1 / nth i evals 0)) (column Um i)).
  { rewrite (eigen_reconstruct _ _ _ _ Horth (length_invEvals _ _) Hi).
    rewrite (invEvals_spec _ _ a i HnG Ha). by rewrite decide_False by lia. }
  split; [exact Hinv|].
  intros HQ Hne. rewrite Hinv, mvdot_scale. rewrite HQ at 1.
  rewrite (eigen_reconstruct _ _ _ _ Horth eq_refl Hi).
  apply map_scale_inverse. by field.
Qed.

(** X7. Which inverses are taken, for any integer [nGaugeParams]: those at
    the positions of the ordering from a cut on, the others being zero.  The
    cut is [nGaugeParams] itself when it is not negative (so none is inverted
    once it reaches the number of eigenvalues); a negative [nGaugeParams]
    counts from the end, as Python slices do, and only the last
    [-nGaugeParams] positions are inverted. *)
Theorem invEvals_by_position (nG : Z) (evals : vector) (a i : nat) :
  orderInds evals !! a = Some i ->
  let cut := if decide (nG < 0)%Z then (length evals - Z.to_nat (- nG))%nat
             else Z.to_nat nG in
  nth i (invEvals nG evals) 0 = if decide (a < cut)%nat then 0 else 1 / nth i evals 0.
Proof.
  intros Ha cut. unfold invEvals.
  assert (Hi : (i < length evals)%nat).
  { apply orderInds_lt. by eapply list_elem_of_lookup_2. }
  rewrite foldl_invert_nth by (unfold zeros; by rewrite length_replicate).
  rewrite nth_zeros.
  assert (Hslice : slice_from nG (orderInds evals) = drop cut (orderInds evals)).
  { unfold slice_from, cut. rewrite orderInds_length. by case_decide. }
  rewrite Hslice.
  pose proof (orderInds_NoDup evals) as Hnd.
  destruct (decide (a < cut)%nat) as [Hlt|Hge].
  - rewrite decide_False; [done|].
    intros (b & Hb)%list_elem_of_lookup. rewrite lookup_drop in Hb.
    assert (a = (cut + b)%nat) by (eapply NoDup_lookup; done). lia.
  - rewrite decide_True; [done|].
    apply list_elem_of_lookup. exists (a - cut)%nat.
    rewrite lookup_drop. rewrite <- Ha. f_equal. lia.
Qed.

(** X8. With 'std', a Hessian whose shape does not fit the projector is
    refused with a ValueError (that of numpy.dot) before anything else is
    looked at: the world is as it was, whatever the confidence level. *)
Theorem init_std_misaligned gateset gs hessian cl fl w :
  heap w !! gateset = Some (ObjGateSet gs) ->
  let Pm := get_nongauge_projector gs fl in
  ncols hessian <> nrows Pm \/ ncols Pm <> nrows hessian ->
  exists msg, init gateset hessian cl fl "std" w = (w, inl (ValueError msg)).
Proof.
  intros Hgs Pm Hshape. unfold init. rewrite (init_with_run _ _ _ _ _ _ _ _ Hgs).
  fold Pm. exists "shapes not aligned".
  apply bind_run_inl. rewrite project_hessian_std. unfold np_dot_mm.
  destruct (decide (ncols hessian = nrows Pm)) as [Hal|Hal]; [|done].
  erewrite bind_run_inr by reflexivity.
  rewrite nrows_mmdot. rewrite decide_False; [done|].
  destruct Hshape; done.
Qed.

End ConstructorInverse.

(** ** The projection optimizer *)

Section Optimizer.
Context `{Providers}.
Local Open Scope R_scope.

Lemma project_hessian_optimal optimal Pm hessian w :
  project_hessian optimal Pm hessian "optimal gate CIs" w = optimal w.
Proof. reflexivity. Qed.

Lemma reshape_inr r c v w w' m :
  reshape r c v w = (w', inr m) ->
  w' = w /\ (0 <= c)%Z /\ length v = (r * Z.to_nat c)%nat /\ nrows m = r.
Proof.
  unfold reshape. case_decide as Hd; [|discriminate].
  intros [= -> <-]. destruct Hd. repeat split; try done. apply tabulate_length.
Qed.

(** X9. In mode 'optimal gate CIs', a Hessian smaller than the rank of the
    projector (a negative [nGaugeParams]) makes the constructor raise a
    ValueError, that of the starting matrix, once the two header lines are
    printed: the minimizer is not run. *)
Theorem init_optimal_negative_gauge gateset gs hessian cl fl w :
  heap w !! gateset = Some (ObjGateSet gs) ->
  (nrows hessian < matrix_rank (get_nongauge_projector gs fl) P_RANK_TOL)%nat ->
  exists msg,
    init gateset hessian cl fl "optimal gate CIs" w =
    (World (heap w)
       (events w ++
        [EvPrint (PrStr EmptyString);
         EvPrint (PrStr "--- Hessian Projector Optimization for gate CIs (L-BFGS-B) ---")]),
     inl (ValueError msg)).
Proof.
  intros Hgs Hrank. unfold init. rewrite (init_with_run _ _ _ _ _ _ _ _ Hgs).
  exists "negative dimensions are not allowed".
  apply bind_run_inl. rewrite project_hessian_optimal.
  unfold optProjectionForGateCIs, optProjectionForGateCIs_with.
  erewrite bind_run_inr by apply when_emit_run.
  erewrite bind_run_inr by apply when_emit_run.
  apply bind_run_inl. unfold zeros_flat.
  rewrite decide_False by lia. cbn. by rewrite <- app_assoc.
Qed.

Lemma zeros_flat_inr r c w w' v :
  zeros_flat r c w = (w', inr v) ->
  w' = w /\ (0 <= c)%Z /\ v = zeros (r * Z.to_nat c).
Proof. unfold zeros_flat. case_decide; [|discriminate]. by intros [= -> <-]. Qed.

(** X10. What a construction in mode 'optimal gate CIs' that returns has
    done.  [nGaugeParams] is not negative; after the two header lines the
    minimizer was run once, on [objective_func] for this gate set, Hessian,
    counts, flags and level, from the zero vector of
    [nNonGaugeParams * nGaugeParams] entries, with method L-BFGS-B, 10000
    iterations and evaluations, tolerance 1e-6 and the printing callback;
    [mixMx] is the reshape of the point [minSol.x] it returned, [Pex] is the
    projector the gate set (as the minimizer left it) gives for [mixMx], and
    the region is the one of the Hessian sandwiched by [Pex]:
    [Q = Pex·(H·Pex) / C1].  The minimum is printed before the region's own
    events. *)
Theorem init_optimal_quadratic_form gateset hessian cl fl w w' r :
  init gateset hessian cl fl "optimal gate CIs" w = (w', inr r) ->
  exists (gs : GS) (w2 : world) (minSol : minsol) (mixMx : matrix) (gs2 : GS),
    let nN := matrix_rank (get_nongauge_projector gs fl) P_RANK_TOL in
    let nG := (Z.of_nat (nrows hessian) - Z.of_nat nN)%Z in
    let Pex := get_nongauge_projector_mix gs2 mixMx fl in
    let ph := mmdot Pex (mmdot hessian Pex) in
    heap w !! gateset = Some (ObjGateSet gs) /\
    (0 <= nG)%Z /\
    minimize (objective_func init_none gateset hessian nN nG fl cl)
      (zeros (nN * Z.to_nat nG)) "L-BFGS-B" 10000 10000 1e-6 true
      (World (heap w)
         (events w ++
          [EvPrint (PrStr EmptyString);
           EvPrint (PrStr
             "--- Hessian Projector Optimization for gate CIs (L-BFGS-B) ---")]))
      = (w2, inr minSol) /\
    reshape nN nG (ms_x minSol) w2 = (w2, inr mixMx) /\
    length (ms_x minSol) = (nN * Z.to_nat nG)%nat /\
    heap w2 !! gateset = Some (ObjGateSet gs2) /\
    ncols hessian = nrows Pex /\ ncols Pex = nrows hessian /\
    w' = World (heap w2)
           ((events w2 ++ [EvPrint (PrMin (ms_fun minSol))]) ++ events_of_init cl ph) /\
    r = region_from gateset fl nN nG cl ph (get_vector_offsets gs2 fl) /\
    regionQuadcForm r = mx_div ph (chi2_ppf (cl / 100) 1).
Proof.
  intros Hrun.
  apply init_inr_store in Hrun as (gs & w1 & ph & gs' & Hgs & Hp & Hgs' & -> & ->).
  rewrite project_hessian_optimal in Hp.
  unfold optProjectionForGateCIs, optProjectionForGateCIs_with in Hp.
  inv_bind Hp. rewrite when_emit_run in Hstep. injection Hstep as <- _.
  inv_bind Hp. rewrite when_emit_run in Hstep. injection Hstep as <- _.
  inv_bind Hp. apply zeros_flat_inr in Hstep as (-> & HnG & ->).
  inv_bind Hp. pose proof Hstep as Hmin. clear Hstep.
  inv_bind Hp. pose proof Hstep as Hre.
  apply reshape_inr in Hstep as (-> & _ & Hlen & _).
  inv_bind Hp. apply read_gateset_inr in Hstep as [-> Hgs2].
  inv_bind Hp. apply np_dot_mm_inr in Hstep as (-> & Hal1 & ->).
  inv_bind Hp. apply np_dot_mm_inr in Hstep as (-> & Hal2 & ->).
  inv_bind Hp. rewrite when_emit_run in Hstep. injection Hstep as <- _.
  apply ret_inr in Hp as [-> ->].
  cbn [heap events] in *. rewrite Hgs2 in Hgs'. injection Hgs' as <-.
  rewrite nrows_mmdot in Hal2. rewrite <- app_assoc in Hmin.
  eexists gs, _, _, _, _. cbn zeta.
  split; [exact Hgs|]. split; [exact HnG|]. split; [exact Hmin|].
  split; [exact Hre|]. split; [exact Hlen|]. split; [exact Hgs2|].
  split; [exact Hal1|]. split; [exact Hal2|]. done.
Qed.

Lemma np_concatenate_inr (arrays : list vector) w w' v :
  np_concatenate arrays w = (w', inr v) ->
  w' = w /\ arrays <> [] /\ v = concat arrays.
Proof. destruct arrays; [discriminate|]. by intros [= -> <-]. Qed.

(** The profile intervals of the gate labels, as [objective_func] collects
    them. *)
Lemma gate_cis_inr (ci : ConfidenceRegion) (labels : list string) w w' cis :
  list_comp (fun gl => get_profile_likelihood_confidence_intervals ci (Some gl))
    labels w = (w', inr cis) ->
  w' = w /\
  Forall2 (fun gl c => exists start stop,
             gateset_offsets ci !! gl = Some (start, stop) /\
             c = slice start stop (profLCI ci)) labels cis.
Proof.
  revert w w' cis. induction labels as [|gl labels IH]; intros w w' cis Hrun;
    cbn in Hrun.
  - apply ret_inr in Hrun as [-> ->]. split; [done|constructor].
  - inv_bind Hrun. inv_bind Hstep. apply from_option_inr in Hstep0 as [-> Hoff].
    destruct a0 as [start stop]. apply ret_inr in Hstep as [-> ->].
    inv_bind Hrun. apply IH in Hstep as [-> Hall].
    apply ret_inr in Hrun as [-> ->].
    split; [done|]. constructor; [|exact Hall]. by exists start, stop.
Qed.

(** X11. One evaluation of the optimizer's objective, when it returns.  The
    vector has [nNonGaugeParams * nGaugeParams] entries and [matM] is its
    reshape to [nNonGaugeParams] rows; [ci] is the region built with 'none',
    at the level given, on the Hessian sandwiched by the projector [Pex] that
    the gate set gives for [matM]; the value is the root of the sum of the
    squares of the profile intervals of [ci] for the gate labels, of which
    there is at least one, so it is not negative.  The object store is as
    before, and what happened is that one construction (its warning if the
    level is below 1, and one eigendecomposition). *)
Theorem objective_func_evaluation gateset base_hessian nN nG fl cl vectorM w w' v :
  objective_func init_none gateset base_hessian nN nG fl cl vectorM w = (w', inr v) ->
  exists (matM : matrix) (gs : GS) (cis : list vector),
    let Pex := get_nongauge_projector_mix gs matM fl in
    let ph := mmdot Pex (mmdot base_hessian Pex) in
    let rank := matrix_rank (get_nongauge_projector gs fl) P_RANK_TOL in
    let ci := region_from gateset fl rank (Z.of_nat (nrows ph) - Z.of_nat rank) cl ph
                (get_vector_offsets gs fl) in
    reshape nN nG vectorM w = (w, inr matM) /\
    length vectorM = (nN * Z.to_nat nG)%nat /\
    heap w !! gateset = Some (ObjGateSet gs) /\
    ncols base_hessian = nrows Pex /\ ncols Pex = nrows base_hessian /\
    w' = World (heap w) (events w ++ events_of_init cl ph) /\
    gate_labels gs <> [] /\
    Forall2 (fun gl c => exists start stop,
               gateset_offsets ci !! gl = Some (start, stop) /\
               c = slice start stop (profLCI ci)) (gate_labels gs) cis /\
    v = sqrt (foldr Rplus 0 (map (fun x => x ^ 2) (concat cis))) /\
    0 <= v.
Proof.
  unfold objective_func. intros Hrun.
  inv_bind Hrun. pose proof Hstep as Hre.
  apply reshape_inr in Hstep as (-> & _ & Hlen & _).
  inv_bind Hrun. apply read_gateset_inr in Hstep as [-> Hgs].
  inv_bind Hrun. apply np_dot_mm_inr in Hstep as (-> & Hal1 & ->).
  inv_bind Hrun. apply np_dot_mm_inr in Hstep as (-> & Hal2 & ->).
  rewrite nrows_mmdot in Hal2.
  inv_bind Hrun. unfold init_none, init_with in Hstep.
  inv_bind Hstep. apply read_gateset_inr in Hstep0 as [-> Hgs0].
  rewrite Hgs in Hgs0. injection Hgs0 as <-.
  inv_bind Hstep. rewrite project_hessian_none in Hstep0. injection Hstep0 as <- <-.
  apply init_from_projected_inr in Hstep as (gs' & _ & _ & Hgs' & -> & ->).
  rewrite Hgs in Hgs'. injection Hgs' as <-.
  inv_bind Hrun. apply read_gateset_inr in Hstep as [-> Hgs1].
  cbn [heap] in Hgs1. rewrite Hgs in Hgs1. injection Hgs1 as <-.
  inv_bind Hrun. apply gate_cis_inr in Hstep as [-> Hcis].
  inv_bind Hrun. apply np_concatenate_inr in Hstep as (-> & Hne & ->).
  apply ret_inr in Hrun as [-> ->].
  eexists _, _, _. cbn zeta.
  split; [exact Hre|]. split; [exact Hlen|]. split; [exact Hgs|].
  split; [exact Hal1|]. split; [exact Hal2|]. split; [done|].
  split.
  { intros Hnil. rewrite Hnil in Hcis. by inversion Hcis. }
  split; [exact Hcis|]. split; [done|]. apply sqrt_pos.
Qed.

End Optimizer.

(** ** Profile intervals by label *)

Section ProfileIntervals.
Context `{Providers}.
Local Open Scope R_scope.

(** X12. [get_profile_likelihood_confidence_intervals] with a label: a label
    without offsets raises KeyError, naming it; a label with offsets
    [(start, end)] returns the entries [start], [start+1], ... of the profile
    intervals, up to [end] or to the last parameter, whichever comes first.
    Neither changes anything. *)
Theorem profile_intervals_by_label (self : ConfidenceRegion) (label : string) (w : world) :
  (gateset_offsets self !! label = None ->
   get_profile_likelihood_confidence_intervals self (Some label) w
   = (w, inl (KeyError label))) /\
  (forall start stop, gateset_offsets self !! label = Some (start, stop) ->
   exists v,
     get_profile_likelihood_confidence_intervals self (Some label) w = (w, inr v) /\
     length v = (Nat.min stop (length (profLCI self)) - start)%nat /\
     forall k, (k < stop - start)%nat -> v !! k = profLCI self !! (start + k)%nat).
Proof.
  split.
  - intros Hoff. cbn. by rewrite Hoff.
  - intros start stop Hoff. exists (slice start stop (profLCI self)).
    split; [cbn; by rewrite Hoff|]. unfold slice. split.
    + rewrite length_take, length_drop. lia.
    + intros k Hk. rewrite lookup_take_lt by done. by rewrite lookup_drop.
Qed.

End ProfileIntervals.

(** ** Half-widths *)

Section HalfWidths.
Context `{Providers}.
Local Open Scope R_scope.

Lemma stateless_ret {A : Type} (a : A) : stateless (mret a) (inr a).
Proof. done. Qed.

Lemma stateless_raise {A : Type} (e : exn) : stateless (raise (A := A) e) (inl e).
Proof. done. Qed.

Lemma stateless_bind_inr {A B : Type} (m : M A) (k : A -> M B) a r :
  stateless m (inr a) -> stateless (k a) r -> stateless (m ≫= k) r.
Proof. intros Hm Hk w. unfold mbind, M_bind. by rewrite Hm. Qed.

Lemma stateless_bind_inl {A B : Type} (m : M A) (k : A -> M B) e :
  stateless m (inl e) -> stateless (m ≫= k) (inl e).
Proof. intros Hm w. unfold mbind, M_bind. by rewrite Hm. Qed.

Lemma stateless_bind {A B : Type} (m : M A) (k : A -> M B) :
  (exists r, stateless m r) -> (forall a, exists r, stateless (k a) r) ->
  exists r, stateless (m ≫= k) r.
Proof.
  intros [[e|a] Hm] Hk.
  - exists (inl e). by apply stateless_bind_inl.
  - destruct (Hk a) as [r Hr]. exists r. by eapply stateless_bind_inr.
Qed.

Lemma stateless_quad_halfwidth invQ g : exists r, stateless (quad_halfwidth invQ g) r.
Proof.
  unfold quad_halfwidth. apply stateless_bind.
  - unfold np_dot_mv. case_decide; eexists; [apply stateless_ret|apply stateless_raise].
  - intros Qg. apply stateless_bind.
    + unfold np_dot_vv. case_decide; eexists; [apply stateless_ret|apply stateless_raise].
    + intros x. eexists. apply stateless_ret.
Qed.

Lemma stateless_list_comp {X Y : Type} (f : X -> M Y) (xs : list X) :
  (forall x, exists r, stateless (f x) r) -> exists r, stateless (list_comp f xs) r.
Proof.
  intros Hf. induction xs as [|x xs IH]; cbn.
  - eexists. apply stateless_ret.
  - apply stateless_bind; [apply Hf|]. intros y.
    apply stateless_bind; [apply IH|]. intros ys. eexists. apply stateless_ret.
Qed.

Lemma stateless_df_entries {Y : Type} shp (h : nat -> M Y) :
  (forall pos, exists r, stateless (h pos) r) -> exists r, stateless (df_entries shp h) r.
Proof.
  intros Hh. unfold df_entries. destruct shp as [|n0 [|n1 [|n2 shp]]].
  - apply stateless_bind; [apply Hh|]. intros y. eexists. apply stateless_ret.
  - by apply stateless_list_comp.
  - apply stateless_bind.
    + apply stateless_list_comp. intros i. by apply stateless_list_comp.
    + intros dfs. eexists. apply stateless_ret.
  - eexists. apply stateless_raise.
Qed.

(** The half-widths themselves (lines 408-459), without the prints around
    them. *)
Lemma stateless_df self gradF f0 :
  exists r, stateless
    (match f0, gradF with
     | PyFloat _, GradFloat g =>
         x ← quad_halfwidth (invRegionQuadcForm self) g; mret (PyFloat x)
     | RealArray a, GradReal rows =>
         es ← df_entries (shape a)
                (fun pos => quad_halfwidth (invRegionQuadcForm self) (rolled 0 rows pos));
         mret (RealArray (NdArray (shape a) es))
     | ComplexArray a, GradComplex rows =>
         es ← df_entries (shape a) (fun pos =>
                let g := rolled (0, 0) rows pos in
                re ← quad_halfwidth (invRegionQuadcForm self) (map creal g);
                im ← quad_halfwidth (invRegionQuadcForm self) (map cimag g);
                mret (re, im));
         mret (ComplexArray (NdArray (shape a) es))
     | _, _ => raise TypeError
     end) r.
Proof.
  destruct f0 as [x|a|a], gradF as [g|rows|rows];
    try (eexists; apply stateless_raise).
  - apply stateless_bind; [apply stateless_quad_halfwidth|].
    intros y. eexists. apply stateless_ret.
  - apply stateless_bind.
    + apply stateless_df_entries. intros pos. apply stateless_quad_halfwidth.
    + intros es. eexists. apply stateless_ret.
  - apply stateless_bind.
    + apply stateless_df_entries. intros pos.
      apply stateless_bind; [apply stateless_quad_halfwidth|]. intros re.
      apply stateless_bind; [apply stateless_quad_halfwidth|]. intros im.
      eexists. apply stateless_ret.
    + intros es. eexists. apply stateless_ret.
Qed.

Lemma compute_df_run self gradF f0 w :
  exists r : exn + fval,
    forall (returnFnVal : bool) (verbosity : Z),
    compute_df_from_gradF self gradF f0 returnFnVal verbosity w =
    match r with
    | inl e =>
        (World (heap w)
           (events w ++ if bool_decide (verbosity > 0)%Z
                        then [EvPrint (PrGradF gradF)] else []),
         inl e)
    | inr df =>
        (World (heap w)
           (events w ++ if bool_decide (verbosity > 0)%Z
                        then [EvPrint (PrGradF gradF); EvPrint (PrDf df)] else []),
         inr (if returnFnVal then DfAndF0 df f0 else Df df))
    end.
Proof.
  destruct (stateless_df self gradF f0) as [r Hr]. exists r.
  intros ret verb. unfold compute_df_from_gradF.
  rewrite (bind_run_inr _ _ _ _ _ (when_emit_run _ _ _)).
  destruct r as [e|df].
  - by rewrite (bind_run_inl _ _ _ _ _ (Hr _)).
  - rewrite (bind_run_inr _ _ _ _ _ (Hr _)).
    rewrite (bind_run_inr _ _ _ _ _ (when_emit_run _ _ _)). cbn.
    destruct (bool_decide (verb > 0)%Z); cbn.
    + by rewrite <- app_assoc.
    + by rewrite !app_nil_r.
Qed.

(** X14. [returnFnVal] and [verbosity] change nothing in the half-widths:
    whatever [_compute_df_from_gradF] does with both off (raise [e], or return
    [df]) it does with them set, except that [f0] comes along when
    [returnFnVal] is set, and that a positive [verbosity] prints the gradient
    first and the half-widths last. *)
Theorem compute_df_flags self gradF f0 (returnFnVal : bool) (verbosity : Z) w :
  match (compute_df_from_gradF self gradF f0 false 0 w).2 with
  | inl e =>
      compute_df_from_gradF self gradF f0 returnFnVal verbosity w =
      (World (heap w)
         (events w ++ if bool_decide (verbosity > 0)%Z
                      then [EvPrint (PrGradF gradF)] else []),
       inl e)
  | inr res =>
      compute_df_from_gradF self gradF f0 returnFnVal verbosity w =
      (World (heap w)
         (events w ++ if bool_decide (verbosity > 0)%Z
                      then [EvPrint (PrGradF gradF); EvPrint (PrDf (df_of res))]
                      else []),
       inr (if returnFnVal then DfAndF0 (df_of res) f0 else Df (df_of res)))
  end.
Proof.
  destruct (compute_df_run self gradF f0 w) as [r Hr].
  rewrite (Hr false 0%Z), (Hr returnFnVal verbosity).
  by destruct r as [e|df].
Qed.

End HalfWidths.

Section HalfWidthValues.
Context `{Providers}.
Local Open Scope R_scope.

Lemma compute_df_nonneg self gradF f0 returnFnVal verbosity w w' res :
  compute_df_from_gradF self gradF f0 returnFnVal verbosity w = (w', inr res) ->
  fval_nonneg (df_of res).
Proof.
  unfold compute_df_from_gradF. intros Hrun.
  inv_bind Hrun. inv_bind Hrun. inv_bind Hrun. apply ret_inr in Hrun as [_ ->].
  assert (Ha0 : fval_nonneg a0).
  { clear Hstep Hstep1. destruct f0 as [x|a2|a2], gradF as [g|rows|rows];
      try discriminate.
    - inv_bind Hstep0. apply quad_halfwidth_inr in Hstep as [_ ->].
      apply ret_inr in Hstep0 as [_ ->]. cbn. apply sqrt_pos.
    - inv_bind Hstep0.
      apply (df_entries_inr _ _
               (fun pos => sqrt (Rabs (vdot (rolled 0 rows pos)
                  (mvdot (invRegionQuadcForm self) (rolled 0 rows pos)))))) in Hstep
        as [_ ->].
      2:{ intros pos wa wb y Hq. by apply quad_halfwidth_inr in Hq. }
      apply ret_inr in Hstep0 as [_ ->]. cbn.
      apply Forall_fmap, Forall_forall. intros pos _. apply sqrt_pos.
    - inv_bind Hstep0.
      apply (df_entries_inr _ _
               (fun pos =>
                  (sqrt (Rabs (vdot (map creal (rolled (0, 0) rows pos))
                     (mvdot (invRegionQuadcForm self) (map creal (rolled (0, 0) rows pos))))),
                   sqrt (Rabs (vdot (map cimag (rolled (0, 0) rows pos))
                     (mvdot (invRegionQuadcForm self) (map cimag (rolled (0, 0) rows pos))))))))
        in Hstep as [_ ->].
      2:{ intros pos wa wb y Hq.
          apply bind_inr in Hq as (wc & re & Hre & Hq).
          apply bind_inr in Hq as (wd & im & Him & Hq).
          apply quad_halfwidth_inr in Hre as [-> ->].
          apply quad_halfwidth_inr in Him as [-> ->].
          by apply ret_inr in Hq as [-> ->]. }
      apply ret_inr in Hstep0 as [_ ->]. cbn.
      apply Forall_fmap, Forall_forall. intros pos _. cbn.
      split; apply sqrt_pos. }
  by destruct returnFnVal.
Qed.

(** X13. Half-widths are never negative: whatever one of the three
    [get_..._fn_confidence_interval] methods (or [_compute_df_from_gradF]
    itself) returns, its [df] is non-negative, entry by entry for an array,
    and in both its real and imaginary part for a complex one. *)
Theorem half_widths_nonneg (self : ConfidenceRegion)
    (fnOfGate : matrix -> fval) (gateLabel : string)
    (fnOfGateset : GS -> fval)
    (fnOfSpamVecs : list vector -> list vector -> fval)
    (gradF : gradient) (f0 : fval)
    (eps : R) (returnFnVal : bool) (verbosity : Z) (w w' : world) (res : retval) :
  (compute_df_from_gradF self gradF f0 returnFnVal verbosity w = (w', inr res) ->
   fval_nonneg (df_of res)) /\
  (get_gate_fn_confidence_interval self fnOfGate gateLabel eps returnFnVal verbosity w
     = (w', inr res) ->
   fval_nonneg (df_of res)) /\
  (get_gateset_fn_confidence_interval self fnOfGateset eps returnFnVal verbosity w
     = (w', inr res) ->
   fval_nonneg (df_of res)) /\
  (get_spam_fn_confidence_interval self fnOfSpamVecs eps returnFnVal verbosity w
     = (w', inr res) ->
   fval_nonneg (df_of res)).
Proof.
  repeat split; intros Hrun.
  - by eapply compute_df_nonneg.
  - unfold get_gate_fn_confidence_interval in Hrun. inv_bind Hrun.
    destruct a as [g f]. by eapply compute_df_nonneg.
  - unfold get_gateset_fn_confidence_interval in Hrun.
    do 5 inv_bind Hrun. by eapply compute_df_nonneg.
  - unfold get_spam_fn_confidence_interval in Hrun.
    do 2 inv_bind Hrun. by eapply compute_df_nonneg.
Qed.

(** X15. A gradient whose length is not the size of the inverse quadratic
    form (its number of columns, and of rows) is refused with the ValueError
    of numpy.dot. *)
Theorem compute_df_misaligned self (g : vector) (x : R) returnFnVal verbosity w :
  ncols (invRegionQuadcForm self) <> length g \/
  nrows (invRegionQuadcForm self) <> length g ->
  exists msg,
    (compute_df_from_gradF self (GradFloat g) (PyFloat x) returnFnVal verbosity w).2
    = inl (ValueError msg).
Proof.
  intros Hshape. exists "shapes not aligned". unfold compute_df_from_gradF.
  rewrite (bind_run_inr _ _ _ _ _ (when_emit_run _ _ _)).
  erewrite bind_run_inl; [reflexivity|].
  apply bind_run_inl. unfold quad_halfwidth, np_dot_mv, np_dot_vv.
  destruct (decide (ncols (invRegionQuadcForm self) = length g)) as [Hc|Hc]; [|done].
  erewrite bind_run_inr by reflexivity.
  rewrite mvdot_length. rewrite decide_False; [done|].
  destruct Hshape as [?|?]; [done|congruence].
Qed.

Lemma vdot_scale_l (c : R) (u v : vector) :
  vdot (map (Rmult c) u) v = c * vdot u v.
Proof.
  unfold vdot. rewrite length_map, <- rsum_mult_l. apply rsum_ext. intros k _.
  assert (Hk : nth k (map (Rmult c) u) 0 = c * nth k u 0).
  { destruct (u !! k) as [x|] eqn:Hx.
    - rewrite (nth_lookup_Some u k 0 x Hx).
      apply nth_lookup_Some. by rewrite list_lookup_fmap, Hx.
    - apply lookup_ge_None in Hx.
      rewrite !nth_overflow by (by rewrite ?length_map). lra. }
  rewrite Hk. lra.
Qed.

Lemma vdot_scale_r (c : R) (u v : vector) :
  vdot u (map (Rmult c) v) = c * vdot u v.
Proof.
  unfold vdot. rewrite <- rsum_mult_l. apply rsum_ext. intros k _.
  assert (Hk : nth k (map (Rmult c) v) 0 = c * nth k v 0).
  { destruct (v !! k) as [x|] eqn:Hx.
    - rewrite (nth_lookup_Some v k 0 x Hx).
      apply nth_lookup_Some. by rewrite list_lookup_fmap, Hx.
    - apply lookup_ge_None in Hx.
      rewrite !nth_overflow by (by rewrite ?length_map). lra. }
  rewrite Hk. lra.
Qed.

Lemma quad_halfwidth_run invQ g w :
  ncols invQ = length g -> nrows invQ = length g ->
  quad_halfwidth invQ g w = (w, inr (sqrt (Rabs (vdot g (mvdot invQ g))))).
Proof.
  intros Hc Hr. unfold quad_halfwidth, np_dot_mv, np_dot_vv.
  rewrite decide_True by done. erewrite bind_run_inr by reflexivity.
  rewrite decide_True by (by rewrite mvdot_length). 
  erewrite bind_run_inr by reflexivity. reflexivity.
Qed.

(** X16. The half-width is homogeneous in the gradient: a gradient [c] times
    as large gives a half-width [|c|] times as large. *)
Theorem compute_df_homogeneous self (g : vector) (x y c d : R) w w' :
  compute_df_from_gradF self (GradFloat g) (PyFloat x) false 0 w
    = (w', inr (Df (PyFloat d))) ->
  compute_df_from_gradF self (GradFloat (map (Rmult c) g)) (PyFloat y) false 0 w
    = (w', inr (Df (PyFloat (Rabs c * d)))).
Proof.
  unfold compute_df_from_gradF. intros Hrun.
  inv_bind Hrun. rewrite when_emit_run in Hstep. injection Hstep as <- _.
  inv_bind Hrun. inv_bind Hstep. unfold quad_halfwidth in Hstep0.
  inv_bind Hstep0. apply np_dot_mv_inr in Hstep1 as (-> & Hc & ->).
  inv_bind Hstep0. apply np_dot_vv_inr in Hstep1 as (-> & Hr & ->).
  apply ret_inr in Hstep0 as [-> ->]. apply ret_inr in Hstep as [-> ->].
  inv_bind Hrun. rewrite when_emit_run in Hstep. injection Hstep as <- _.
  apply ret_inr in Hrun as [-> [= ->]].
  rewrite mvdot_length in Hr.
  assert (Heq : sqrt (Rabs (vdot (map (Rmult c) g)
                    (mvdot (invRegionQuadcForm self) (map (Rmult c) g))))
                = Rabs c * sqrt (Rabs (vdot g (mvdot (invRegionQuadcForm self) g)))).
  { rewrite mvdot_scale, vdot_scale_l, vdot_scale_r.
    rewrite <- Rmult_assoc, Rabs_mult, sqrt_mult by apply Rabs_pos.
    f_equal. rewrite Rabs_mult. apply sqrt_square. apply Rabs_pos. }
  rewrite (bind_run_inr _ _ _ _ _ (when_emit_run _ _ _)).
  erewrite bind_run_inr; cycle 1.
  { erewrite bind_run_inr; [reflexivity|].
    apply quad_halfwidth_run; by rewrite length_map. }
  rewrite (bind_run_inr _ _ _ _ _ (when_emit_run _ _ _)).
  rewrite Heq. reflexivity.
Qed.

End HalfWidthValues.

(** ** Functions of a gate *)

Section GateFunctions.
Context `{Providers}.
Local Open Scope R_scope.

(** X18. An unknown gate label makes [get_gate_fn_confidence_interval] raise
    KeyError, naming it, with nothing done: no copy made, nothing printed.
    A label the estimate knows but the offsets lack raises it too, after the
    copy of the gate is made. *)
Theorem gate_fn_unknown_label self fnOfGate gateLabel eps returnFnVal verbosity w gs :
  heap w !! gateset self = Some (ObjGateSet gs) ->
  (getitem gs gateLabel = None \/ get_gate gs gateLabel = None ->
   get_gate_fn_confidence_interval self fnOfGate gateLabel eps returnFnVal verbosity w
   = (w, inl (KeyError gateLabel))) /\
  (forall gateMx g,
     getitem gs gateLabel = Some gateMx -> get_gate gs gateLabel = Some g ->
     gateset_offsets self !! gateLabel = None ->
     get_gate_fn_confidence_interval self fnOfGate gateLabel eps returnFnVal verbosity w
     = (World (<[fresh (dom (heap w)) := ObjGate g]> (heap w)) (events w),
        inl (KeyError gateLabel))).
Proof.
  intros Hgs. split.
  - intros Hmissing. unfold get_gate_fn_confidence_interval, gate_fn_gradF.
    apply bind_run_inl.
    erewrite bind_run_inr by (by apply read_gateset_run).
    destruct (getitem gs gateLabel) as [gateMx|]; [|done].
    erewrite bind_run_inr by reflexivity.
    destruct Hmissing as [?|Hg]; [done|]. by rewrite Hg.
  - intros gateMx g HgateMx Hg Hoff.
    unfold get_gate_fn_confidence_interval, gate_fn_gradF.
    apply bind_run_inl.
    erewrite bind_run_inr by (by apply read_gateset_run).
    rewrite HgateMx. erewrite bind_run_inr by reflexivity.
    rewrite Hg. erewrite bind_run_inr by reflexivity.
    erewrite bind_run_inr by reflexivity.
    by rewrite Hoff.
Qed.

Lemma for_inr_each {X S : Type} (I : S -> Prop) (xs : list X) (body : S -> X -> M S) :
  (forall s x w w' s', x ∈ xs -> I s -> body s x w = (w', inr s') -> I s') ->
  forall s w w' s', I s -> for_ xs body s w = (w', inr s') ->
  forall x, x ∈ xs -> exists s1 w1 w2 s2, I s1 /\ body s1 x w1 = (w2, inr s2).
Proof.
  induction xs as [|x xs IH]; intros Hbody s w w' s' Hs Hrun y Hy; cbn in Hrun.
  - by apply elem_of_nil in Hy.
  - inv_bind Hrun. apply elem_of_cons in Hy as [->|Hy].
    + by exists s, w, w0, a.
    + eapply (IH ltac:(intros s1 z w1 w2 s2 Hz; apply Hbody; by right) a w0 w' s');
        [|exact Hrun|exact Hy].
      eapply Hbody; [by left|exact Hs|exact Hstep].
Qed.

Lemma grad_set_inr_length gradF j d w w' gradF' :
  grad_set gradF j d w = (w', inr gradF') ->
  (j < grad_length gradF)%nat /\ grad_length gradF' = grad_length gradF.
Proof.
  unfold grad_set. intros Hrun.
  destruct gradF as [g|rows|rows], d as [x|a|a]; try discriminate;
    case_decide; try discriminate; injection Hrun as _ <-; cbn;
    by rewrite length_insert.
Qed.

Lemma zeros_gradF_length nParams f0 : grad_length (zeros_gradF nParams f0) = nParams.
Proof. destruct f0; cbn; apply length_replicate. Qed.

(** X19. When the computation of the gradient of a function of a gate
    returns, the gradient has one entry per parameter of the gate set; and if
    the gate's parameters are active, its block lies within them and within
    the gate's own parameter vector (an IndexError is raised otherwise). *)
Theorem gate_fn_gradF_bounds self fnOfGate gateLabel eps w w' gradF f0 :
  gate_fn_gradF self fnOfGate gateLabel eps w = (w', inr (gradF, f0)) ->
  exists gs g gpo stop,
    let fl := get_parameterization_flags self in
    heap w !! gateset self = Some (ObjGateSet gs) /\
    get_gate gs gateLabel = Some g /\
    gateset_offsets self !! gateLabel = Some (gpo, stop) /\
    grad_length gradF = num_params gs fl /\
    (gates_include (fl_gates fl) gateLabel = true ->
     forall i, (i < gate_num_params g (fl_G0 fl))%nat ->
       (gpo + i < num_params gs fl)%nat /\
       (i < length (gate_to_vector g (fl_G0 fl)))%nat).
Proof.
  unfold gate_fn_gradF. intros Hrun.
  inv_bind Hrun. apply read_gateset_inr in Hstep as [-> Hgs]. rename a into gs.
  inv_bind Hrun. apply from_option_inr in Hstep as [-> HgateMx]. rename a into gateMx.
  inv_bind Hrun. apply from_option_inr in Hstep as [-> Hg]. rename a into g.
  inv_bind Hrun. apply copy_inr in Hstep as [-> ->].
  inv_bind Hrun. apply from_option_inr in Hstep as [-> Hoff].
  destruct a as [gpo stop].
  inv_bind Hrun. apply read_gate_inr in Hstep as [-> Hg0].
  cbn in Hg0. rewrite lookup_insert_eq in Hg0. injection Hg0 as <-.
  inv_bind Hrun. apply ret_inr in Hrun as [-> [= -> ->]].
  exists gs, g, gpo, stop. cbn zeta. repeat split; try done.
  - destruct (gates_include _ _).
    + eapply (for_inr_inv (fun gF =>
                grad_length gF = num_params gs (get_parameterization_flags self)));
        [| |exact Hstep].
      * intros gF i w1 w2 gF' _ HgF Hbody. do 4 inv_bind Hbody.
        apply grad_set_inr_length in Hbody as [_ ->]. done.
      * apply zeros_gradF_length.
    + apply ret_inr in Hstep as [_ ->]. apply zeros_gradF_length.
  - rewrite H1 in Hstep.
    eapply for_inr_each with
      (I := fun gF => grad_length gF = num_params gs (get_parameterization_flags self))
      (x := i) in Hstep as (gF & w1 & w2 & gF' & HgF & Hbody).
    + do 4 inv_bind Hbody. apply grad_set_inr_length in Hbody as [Hlt _]. lia.
    + intros gF j w1 w2 gF' _ HgF Hbody. do 4 inv_bind Hbody.
      apply grad_set_inr_length in Hbody as [_ ->]. done.
    + apply zeros_gradF_length.
    + apply elem_of_seq. lia.
  - rewrite H1 in Hstep.
    eapply for_inr_each with
      (I := fun gF => grad_length gF = num_params gs (get_parameterization_flags self))
      (x := i) in Hstep as (gF & w1 & w2 & gF' & HgF & Hbody).
    + inv_bind Hbody. unfold vec_iadd in Hstep.
      destruct (gate_to_vector g _ !! i) eqn:Hi; [|discriminate].
      by eapply lookup_lt_Some.
    + intros gF j w1 w2 gF' _ HgF Hbody. do 4 inv_bind Hbody.
      apply grad_set_inr_length in Hbody as [_ ->]. done.
    + apply zeros_gradF_length.
    + apply elem_of_seq. lia.
Qed.

End GateFunctions.

(** ** Zero gradients *)

Section ZeroGradient.
Context `{Providers}.
Local Open Scope R_scope.

Lemma list_comp_run {X Y : Type} (f : X -> M Y) (g : X -> Y) (xs : list X) w :
  (forall x, x ∈ xs -> f x w = (w, inr (g x))) ->
  list_comp f xs w = (w, inr (map g xs)).
Proof.
  induction xs as [|x xs IH]; intros Hf; cbn; [done|].
  erewrite bind_run_inr by (apply Hf; by left).
  erewrite bind_run_inr by (apply IH; intros y Hy; apply Hf; by right).
  reflexivity.
Qed.

Lemma map_const_seq {X : Type} (x : X) (k n : nat) :
  map (fun _ : nat => x) (seq k n) = replicate n x.
Proof. revert k. induction n as [|n IH]; intros k; [done|]. cbn. by rewrite IH. Qed.

Lemma concat_replicate {X : Type} (n0 n1 : nat) (x : X) :
  concat (replicate n0 (replicate n1 x)) = replicate (n0 * n1) x.
Proof.
  induction n0 as [|n0 IH]; [done|].
  cbn [replicate concat Nat.mul]. by rewrite IH, replicate_add.
Qed.

Lemma df_entries_const {Y : Type} (shp : list nat) (h : nat -> M Y) (y : Y) w :
  (forall pos, h pos w = (w, inr y)) ->
  (length shp <= 2)%nat ->
  df_entries shp h w = (w, inr (replicate (size_of shp) y)).
Proof.
  intros Hh Hdim. unfold df_entries.
  destruct shp as [|n0 [|n1 [|n2 shp]]]; [| | |cbn in Hdim; lia].
  - by erewrite bind_run_inr by apply Hh.
  - rewrite (list_comp_run _ (fun _ => y)) by (intros; apply Hh).
    do 2 f_equal. etrans; [apply map_const_seq|].
    unfold size_of. cbn [foldr]. by rewrite Nat.mul_1_r.
  - erewrite bind_run_inr; cycle 1.
    { apply (list_comp_run _ (fun _ => replicate n1 y)). intros i _.
      rewrite (list_comp_run _ (fun _ => y)) by (intros; apply Hh).
      do 2 f_equal. apply map_const_seq. }
    rewrite ret_run. do 2 f_equal.
    rewrite (map_const_seq (replicate n1 y) 0 n0).
    unfold size_of. cbn [foldr]. rewrite Nat.mul_1_r. apply concat_replicate.
Qed.

Lemma rolled_zero_rows {X : Type} (d : X) (n s pos : nat) :
  rolled d (replicate n (replicate s d)) pos = replicate n d.
Proof.
  unfold rolled. induction n as [|n IH]; [done|]. cbn. rewrite IH. f_equal.
  destruct (decide (pos < s)%nat).
  - apply nth_lookup_Some. by apply lookup_replicate_2.
  - apply nth_overflow. rewrite length_replicate. lia.
Qed.

Lemma map_replicate {X Y : Type} (f : X -> Y) (n : nat) (x : X) :
  map f (replicate n x) = replicate n (f x).
Proof. induction n as [|n IH]; [done|]. cbn. by rewrite IH. Qed.

(** What [_compute_df_from_gradF] does with the gradient the three methods
    start from, for a value of at most two dimensions. *)
Lemma compute_df_zeros self n f0 returnFnVal verbosity w :
  ncols (invRegionQuadcForm self) = n ->
  nrows (invRegionQuadcForm self) = n ->
  (ndim f0 <= 2)%nat ->
  compute_df_from_gradF self (zeros_gradF n f0) f0 returnFnVal verbosity w =
  (World (heap w)
     (events w ++
      if bool_decide (verbosity > 0)%Z
      then [EvPrint (PrGradF (zeros_gradF n f0)); EvPrint (PrDf (zeros_like f0))]
      else []),
   inr (if returnFnVal then DfAndF0 (zeros_like f0) f0 else Df (zeros_like f0))).
Proof.
  intros Hc Hr Hdim. unfold compute_df_from_gradF.
  erewrite bind_run_inr by apply when_emit_run.
  assert (Hfin : forall df : fval,
    (when_ (bool_decide (verbosity > 0)%Z) (emit (EvPrint (PrDf df)));;
     mret (if returnFnVal then DfAndF0 df f0 else Df df))
      (World (heap w)
         (events w ++ if bool_decide (verbosity > 0)%Z
                      then [EvPrint (PrGradF (zeros_gradF n f0))] else [])) =
    (World (heap w)
       (events w ++
        if bool_decide (verbosity > 0)%Z
        then [EvPrint (PrGradF (zeros_gradF n f0)); EvPrint (PrDf df)]
        else []),
     inr (if returnFnVal then DfAndF0 df f0 else Df df))).
  { intros df. erewrite bind_run_inr by apply when_emit_run.
    cbn. destruct (bool_decide (verbosity > 0)%Z); cbn.
    - by rewrite <- app_assoc.
    - by rewrite !app_nil_r. }
  destruct f0 as [x|a|a]; cbn [zeros_gradF zeros_like] in *.
  - erewrite bind_run_inr; [apply Hfin|].
    erewrite bind_run_inr by (by apply quad_halfwidth_zeros). reflexivity.
  - erewrite bind_run_inr; [apply Hfin|].
    erewrite bind_run_inr; [reflexivity|].
    apply df_entries_const; [|exact Hdim].
    intros pos. rewrite rolled_zero_rows. by apply quad_halfwidth_zeros.
  - erewrite bind_run_inr; [apply Hfin|].
    erewrite bind_run_inr; [reflexivity|].
    apply df_entries_const; [|exact Hdim].
    intros pos. cbn zeta. rewrite rolled_zero_rows, !map_replicate.
    cbn [creal cimag fst snd].
    erewrite bind_run_inr by (by apply (quad_halfwidth_zeros _ n)).
    erewrite bind_run_inr by (by apply (quad_halfwidth_zeros _ n)).
    reflexivity.
Qed.

(** X17. With the [SPAM] flag off, [get_spam_fn_confidence_interval] makes no
    copy of the gate set and evaluates the function once, at the estimate's
    own vectors; for a value of at most two dimensions (a float, or a real or
    complex array) every half-width is exactly zero, in the shape of the
    value.  The store is left as it was. *)
Theorem spam_fn_inactive_zero self fnOfSpamVecs eps returnFnVal verbosity w gs :
  let fl := get_parameterization_flags self in
  let n := num_params gs fl in
  let f0 := fnOfSpamVecs (get_rhovecs gs) (get_evecs gs) in
  heap w !! gateset self = Some (ObjGateSet gs) ->
  fl_SPAM fl = false ->
  ncols (invRegionQuadcForm self) = n ->
  nrows (invRegionQuadcForm self) = n ->
  (ndim f0 <= 2)%nat ->
  get_spam_fn_confidence_interval self fnOfSpamVecs eps returnFnVal verbosity w =
  (World (heap w)
     (events w ++
      if bool_decide (verbosity > 0)%Z
      then [EvPrint (PrGradF (zeros_gradF n f0)); EvPrint (PrDf (zeros_like f0))]
      else []),
   inr (if returnFnVal then DfAndF0 (zeros_like f0) f0 else Df (zeros_like f0))).
Proof.
  intros fl n f0 Hgs Hflag Hc Hr Hdim. unfold get_spam_fn_confidence_interval.
  erewrite bind_run_inr by (by apply read_gateset_run).
  fold fl. rewrite Hflag.
  erewrite bind_run_inr by reflexivity.
  by apply compute_df_zeros.
Qed.


(** X23. With the [SPAM] flag on, a state preparation whose offsets are not
    in the region ([gateset_offsets] has no key "rho0") makes
    [get_spam_fn_confidence_interval] raise KeyError "rho0", whatever the
    function; the copy of the gate set has been made by then, and nothing is
    printed. *)
Theorem spam_fn_missing_offsets self fnOfSpamVecs eps returnFnVal verbosity w gs
    rhoVec rest :
  let fl := get_parameterization_flags self in
  heap w !! gateset self = Some (ObjGateSet gs) ->
  fl_SPAM fl = true ->
  rhoVecs gs = rhoVec :: rest ->
  gateset_offsets self !! "rho0" = None ->
  get_spam_fn_confidence_interval self fnOfSpamVecs eps returnFnVal verbosity w =
  (World (<[fresh (dom (heap w)) := ObjGateSet gs]> (heap w)) (events w),
   inl (KeyError "rho0")).
Proof.
  intros fl Hgs Hflag Hrho Hoff. unfold get_spam_fn_confidence_interval.
  erewrite bind_run_inr by (by apply read_gateset_run).
  fold fl. rewrite Hflag. apply bind_run_inl. 
  erewrite bind_run_inr by reflexivity.
  apply bind_run_inl. rewrite Hrho. cbn [enumerate length seq zip zip_with for_].
  apply bind_run_inl.
  change ("rho" +:+ pretty 0%nat) with "rho0".
  by rewrite Hoff.
Qed.

End ZeroGradient.

(** ** Functions of the gate set *)

Section GatesetFunctions.
Context `{Providers}.
Local Open Scope R_scope.

(** X22. The copy of the gate set must have as many parameters in its vector
    as [num_params] says: otherwise [get_gateset_fn_confidence_interval]
    stops on its assertion, with the copy made and nothing else done (no
    step taken, nothing printed). *)
Theorem gateset_fn_length_assertion self fnOfGateset eps returnFnVal verbosity w gs :
  let fl := get_parameterization_flags self in
  heap w !! gateset self = Some (ObjGateSet gs) ->
  length (to_vector gs fl) <> num_params gs fl ->
  get_gateset_fn_confidence_interval self fnOfGateset eps returnFnVal verbosity w =
  (World (<[fresh (dom (heap w)) := ObjGateSet gs]> (heap w)) (events w),
   inl AssertionError).
Proof.
  intros fl Hgs Hlen. unfold get_gateset_fn_confidence_interval.
  erewrite bind_run_inr by (by apply read_gateset_run).
  erewrite bind_run_inr by reflexivity.
  erewrite bind_run_inr; cycle 1.
  { unfold read_gateset. cbn. rewrite lookup_insert_eq. reflexivity. }
  apply bind_run_inl. fold fl. by rewrite bool_decide_eq_false_2.
Qed.

Lemma nth_insert_eq (v : vector) (i : nat) (y : R) :
  (i < length v)%nat -> nth i (<[i := y]> v) 0 = y.
Proof. intros Hi. apply nth_lookup_Some. by apply list_lookup_insert_eq. Qed.

Lemma nth_insert_ne (v : vector) (i k : nat) (y : R) :
  k <> i -> nth k (<[i := y]> v) 0 = nth k v 0.
Proof.
  intros Hne. destruct (v !! k) as [x|] eqn:Hx.
  - rewrite (nth_lookup_Some v k 0 x Hx). apply nth_lookup_Some.
    by rewrite list_lookup_insert_ne.
  - apply lookup_ge_None in Hx.
    rewrite !nth_overflow by (by rewrite ?length_insert). done.
Qed.

Lemma vdot_insert (a v : vector) (i : nat) (y : R) :
  (i < length a)%nat -> (i < length v)%nat ->
  vdot a (<[i := y]> v) = vdot a v + nth i a 0 * (y - nth i v 0).
Proof.
  intros Ha Hv. unfold vdot.
  rewrite (rsum_ext _ _
             (fun k => nth k a 0 * nth k v 0 +
                       (if decide (k = i) then nth i a 0 * (y - nth i v 0) else 0))).
  - rewrite rsum_plus. f_equal.
    rewrite (rsum_single _ i) by (try done; intros k _ Hk; by rewrite decide_False).
    by rewrite decide_True.
  - intros k _. case_decide as Hk.
    + subst k. rewrite nth_insert_eq by done. lra.
    + rewrite nth_insert_ne by done. lra.
Qed.

Lemma foldl_insert_lookup (f : nat -> R) (m k : nat) (g : vector) (j : nat) :
  foldl (fun g i => <[i := f i]> g) g (seq k m) !! j =
  if decide ((k <= j < k + m)%nat /\ (j < length g)%nat) then Some (f j) else g !! j.
Proof.
  revert k g. induction m as [|m IH]; intros k g; cbn [seq foldl].
  - rewrite decide_False by lia. done.
  - rewrite IH, length_insert. destruct (decide (j = k)) as [->|Hne].
    + rewrite (decide_False (P := (S k <= k < S k + m)%nat /\ _)) by lia.
      case_decide.
      * apply list_lookup_insert_eq. lia.
      * rewrite list_insert_ge by lia. done.
    + rewrite list_lookup_insert_ne by done.
      repeat case_decide; try done; lia.
Qed.

Lemma foldl_insert_all (a : vector) (n : nat) :
  length a = n ->
  foldl (fun g i => <[i := nth i a 0]> g) (zeros n) (seq 0 n) = a.
Proof.
  intros Hlen. apply list_eq. intros j. rewrite foldl_insert_lookup.
  unfold zeros. rewrite length_replicate. case_decide as Hj.
  - symmetry. destruct (a !! j) as [x|] eqn:Hx.
    + by rewrite (nth_lookup_Some a j 0 x Hx).
    + apply lookup_ge_None in Hx. lia.
  - rewrite (proj2 (lookup_ge_None a j)) by lia.
    apply lookup_replicate_None. lia.
Qed.

(** One step of the loop of [get_gateset_fn_confidence_interval] for an
    affine function [b + a·v] of the parameter vector [v]: the quotient is
    the coefficient [a[i]]. *)
Lemma gateset_fn_step fnOfGateset (fl : flags) (a v0 g : vector) (b eps : R)
    (l : loc) (n i : nat) (s : GS) w :
  (forall s v, length v = n -> to_vector (from_vector s v fl) fl = v) ->
  (forall s, fnOfGateset s = PyFloat (b + vdot a (to_vector s fl))) ->
  length a = n -> length v0 = n -> length g = n -> eps <> 0 -> (i < n)%nat ->
  heap w !! l = Some (ObjGateSet s) ->
  (gatesetVec ← vec_iadd v0 i eps;
   mutate_gateset l (fun gs => from_vector gs gatesetVec fl);;
   gs' ← read_gateset l;
   d ← fdiff (fnOfGateset gs') (PyFloat (b + vdot a v0)) eps;
   grad_set (GradFloat g) i d) w =
  (World (<[l := ObjGateSet (from_vector s (<[i := nth i v0 0 + eps]> v0) fl)]> (heap w))
     (events w),
   inr (GradFloat (<[i := nth i a 0]> g))).
Proof.
  intros Hrt Hfn Ha Hv0 Hg Heps Hi Hl.
  assert (Hy : v0 !! i = Some (nth i v0 0)).
  { destruct (v0 !! i) as [y|] eqn:Hy.
    - by rewrite (nth_lookup_Some v0 i 0 y Hy).
    - apply lookup_ge_None in Hy. lia. }
  erewrite bind_run_inr by (unfold vec_iadd; rewrite Hy; reflexivity).
  erewrite bind_run_inr by (unfold mutate_gateset; rewrite Hl; reflexivity).
  erewrite bind_run_inr; cycle 1.
  { unfold read_gateset. cbn. rewrite lookup_insert_eq. reflexivity. }
  rewrite Hfn, Hrt by (by rewrite length_insert).
  cbn [fdiff]. erewrite bind_run_inr by reflexivity.
  unfold grad_set. rewrite decide_True by lia. rewrite ret_run.
  do 4 f_equal. rewrite vdot_insert by lia. field. done.
Qed.

Lemma gateset_fn_loop fnOfGateset (fl : flags) (a v0 : vector) (b eps : R)
    (l : loc) (n : nat) :
  (forall s v, length v = n -> to_vector (from_vector s v fl) fl = v) ->
  (forall s, fnOfGateset s = PyFloat (b + vdot a (to_vector s fl))) ->
  length a = n -> length v0 = n -> eps <> 0 ->
  forall m k g w s,
    (k + m <= n)%nat -> length g = n -> heap w !! l = Some (ObjGateSet s) ->
    exists s',
      for_ (seq k m) (fun gradF i =>
        gatesetVec ← vec_iadd v0 i eps;
        mutate_gateset l (fun gs => from_vector gs gatesetVec fl);;
        gs' ← read_gateset l;
        d ← fdiff (fnOfGateset gs') (PyFloat (b + vdot a v0)) eps;
        grad_set gradF i d) (GradFloat g) w =
      (World (<[l := ObjGateSet s']> (heap w)) (events w),
       inr (GradFloat (foldl (fun g i => <[i := nth i a 0]> g) g (seq k m)))).
Proof.
  intros Hrt Hfn Ha Hv0 Heps. induction m as [|m IH]; intros k g w s Hkm Hg Hl.
  - exists s. cbn. rewrite insert_id by done. by destruct w.
  - cbn [seq for_ foldl].
    erewrite bind_run_inr by (eapply gateset_fn_step; try eassumption; lia).
    destruct (IH (S k) (<[k := nth k a 0]> g)
                (World (<[l := ObjGateSet
                                 (from_vector s (<[k := nth k v0 0 + eps]> v0) fl)]>
                          (heap w)) (events w))
                (from_vector s (<[k := nth k v0 0 + eps]> v0) fl)) as [s' Hs'];
      [lia|by rewrite length_insert|cbn; apply lookup_insert_eq|].
    exists s'. rewrite Hs'. cbn. by rewrite insert_insert_eq.
Qed.

(** X20. For a function of the gate set that is affine in its parameter
    vector, [f(gs) = b + a·to_vector(gs)], the finite differences are the
    coefficients [a] themselves, whatever the (non-zero) step [eps]:
    [get_gateset_fn_confidence_interval] returns the half-width
    [sqrt |a · invRegionQuadcForm · a|], prints [a] as the gradient when
    asked, and changes only its own copy of the gate set. *)
Theorem gateset_fn_affine self fnOfGateset (a : vector) (b eps : R)
    returnFnVal verbosity w gs :
  let fl := get_parameterization_flags self in
  let n := num_params gs fl in
  let df := PyFloat (sqrt (Rabs (vdot a (mvdot (invRegionQuadcForm self) a)))) in
  heap w !! gateset self = Some (ObjGateSet gs) ->
  length (to_vector gs fl) = n ->
  (forall s v, length v = n -> to_vector (from_vector s v fl) fl = v) ->
  (forall s, fnOfGateset s = PyFloat (b + vdot a (to_vector s fl))) ->
  length a = n ->
  eps <> 0 ->
  ncols (invRegionQuadcForm self) = n ->
  nrows (invRegionQuadcForm self) = n ->
  exists s',
    get_gateset_fn_confidence_interval self fnOfGateset eps returnFnVal verbosity w =
    (World (<[fresh (dom (heap w)) := ObjGateSet s']> (heap w))
       (events w ++
        if bool_decide (verbosity > 0)%Z
        then [EvPrint (PrGradF (GradFloat a)); EvPrint (PrDf df)]
        else []),
     inr (if returnFnVal then DfAndF0 df (fnOfGateset gs) else Df df)).
Proof.
  intros fl n df Hgs Hlen Hrt Hfn Ha Heps Hc Hr.
  destruct (gateset_fn_loop fnOfGateset fl a (to_vector gs fl) b eps
              (fresh (dom (heap w))) n Hrt Hfn Ha Hlen Heps n 0%nat (zeros n)
              (World (<[fresh (dom (heap w)) := ObjGateSet gs]> (heap w)) (events w))
              gs) as [s' Hloop].
  { lia. } { apply length_replicate. } { cbn. apply lookup_insert_eq. }
  exists s'. unfold get_gateset_fn_confidence_interval.
  erewrite bind_run_inr by (by apply read_gateset_run).
  erewrite bind_run_inr by reflexivity.
  erewrite bind_run_inr; cycle 1.
  { unfold read_gateset. cbn. rewrite lookup_insert_eq. reflexivity. }
  fold fl n. rewrite bool_decide_eq_true_2 by done.
  erewrite bind_run_inr by reflexivity.
  rewrite Hfn. cbn [zeros_gradF].
  erewrite bind_run_inr by exact Hloop.
  rewrite foldl_insert_all by done. cbn [heap events]. rewrite insert_insert_eq.
  unfold compute_df_from_gradF.
  erewrite bind_run_inr by apply when_emit_run.
  erewrite bind_run_inr; cycle 1.
  { erewrite bind_run_inr; [reflexivity|].
    apply quad_halfwidth_run; congruence. }
  erewrite bind_run_inr by apply when_emit_run.
  cbn. destruct (bool_decide (verbosity > 0)%Z); cbn.
  - by rewrite <- app_assoc.
  - by rewrite !app_nil_r.
Qed.

End GatesetFunctions.

(** ** The example, again *)

Section ToyRunsMore.
Local Open Scope R_scope.
Existing Instance Toy.api.
Existing Instance Toy.providers.

(** Witness of X1. *)
Lemma init_stores_inputs_witness :
  exists w' r,
    Toy.run 95 "std" = (w', inr r) /\
    get_gateset r = 0%nat /\ get_parameterization_flags r = Toy.fl /\ level r = 95 /\
    (nGaugeParams r + Z.of_nat (nNonGaugeParams r) = 2)%Z.
Proof.
  assert (Hrun := toy_run_std 95 ltac:(lra) ltac:(lra)).
  eexists _, _. split; [exact Hrun|].
  destruct (init_stores_inputs _ _ _ _ _ _ _ _ Hrun) as (Hg & Hf & Hl & Hn & _).
  split; [exact Hg|]. split; [exact Hf|]. split; [exact Hl|exact Hn].
Defined.

(** Witness of X2. *)
Lemma init_effects_witness :
  exists w' r,
    Toy.run 95 "std" = (w', inr r) /\
    heap w' = heap Toy.w0 /\
    events w' = events Toy.w0 ++ (if bool_decide (95 < 1) then [EvWarn 95] else [])
                              ++ [EvEigh (regionQuadcForm r)].
Proof.
  assert (Hrun := toy_run_std 95 ltac:(lra) ltac:(lra)).
  eexists _, _. split; [exact Hrun|].
  exact (init_effects _ _ _ _ _ _ _ _ (or_intror eq_refl) Hrun).
Defined.

(** Witness of X3. *)
Lemma init_with_optimizer_unused_witness :
  init_with (fun _ _ _ _ _ _ _ => raise TypeError) 0 Toy.H 95 Toy.fl "std" Toy.w0 =
  init 0 Toy.H 95 Toy.fl "std" Toy.w0.
Proof.
  exact (init_with_optimizer_unused _ _ 0%nat Toy.H 95 Toy.fl "std" Toy.w0
           ltac:(discriminate)).
Defined.

(** Witness of X4. *)
Lemma invRegionQuadcForm_symmetric_witness :
  exists w' r,
    Toy.run 95 "std" = (w', inr r) /\
    entry (invRegionQuadcForm r) 0 1 = entry (invRegionQuadcForm r) 1 0.
Proof.
  assert (Hrun := toy_run_std 95 ltac:(lra) ltac:(lra)).
  eexists _, _. split; [exact Hrun|].
  exact (invRegionQuadcForm_symmetric _ _ _ _ _ _ _ _ 0%nat 1%nat Hrun).
Defined.

(** Witness of X5: the second eigenvector of the example, of eigenvalue 2. *)
Lemma invRegionQuadcForm_inverts_nongauge_witness :
  exists w' r,
    Toy.run 95 "std" = (w', inr r) /\ (0 <= nGaugeParams r)%Z /\
    mvdot (invRegionQuadcForm r) [0; 1] = map (Rmult (1 / 2)) [0; 1].
Proof.
  assert (Hrun := toy_run_std 95 ltac:(lra) ltac:(lra)).
  eexists _, _. split; [exact Hrun|].
  assert (HnG : (0 <= nGaugeParams
            (region_from 0 Toy.fl 1 1 95 Toy.PHP (get_vector_offsets Toy.gs0 Toy.fl)))%Z)
    by (cbn; lia).
  split; [exact HnG|].
  pose proof (invRegionQuadcForm_inverts_nongauge _ _ _ _ _ _ _ _ 1%nat 1%nat Hrun HnG)
    as Hthm.
  cbn [regionQuadcForm region_from nGaugeParams] in Hthm.
  rewrite toy_evals, toy_Um, toy_orderInds in Hthm.
  exact (proj1 (Hthm toy_orthonormal eq_refl ltac:(cbn; lia))).
Defined.

(** Witness of X6: the tie between [1/2] and [-1/2], at indices 1 and 3. *)
Lemma orderInds_ties_by_index_witness :
  Rabs (nth 1 [-3; 1 / 2; 2; - (1 / 2)] 0) < Rabs (nth 3 [-3; 1 / 2; 2; - (1 / 2)] 0) \/
  (Rabs (nth 1 [-3; 1 / 2; 2; - (1 / 2)] 0) = Rabs (nth 3 [-3; 1 / 2; 2; - (1 / 2)] 0) /\
   (1 < 3)%nat).
Proof.
  apply (orderInds_ties_by_index [-3; 1 / 2; 2; - (1 / 2)] 0 1 1 3);
    [lia|by rewrite orderInds_example|by rewrite orderInds_example].
Defined.

(** Witness of X7: a negative count inverts the last position only. *)
Lemma invEvals_by_position_witness :
  nth 1 (invEvals (-1) [0; 2]) 0 = 1 / nth 1 [0; 2] 0 /\
  nth 0 (invEvals (-1) [0; 2]) 0 = 0.
Proof.
  pose proof (invEvals_by_position (-1) [0; 2] 1 1) as H1.
  pose proof (invEvals_by_position (-1) [0; 2] 0 0) as H0.
  rewrite toy_orderInds in H1, H0. cbn in H1, H0.
  split; [exact (H1 eq_refl)|exact (H0 eq_refl)].
Defined.

(** Witness of X8: a 1 x 1 Hessian for the 2 x 2 projector. *)
Lemma init_std_misaligned_witness :
  exists msg, init 0 [[1]] 95 Toy.fl "std" Toy.w0 = (Toy.w0, inl (ValueError msg)).
Proof.
  apply (init_std_misaligned 0%nat Toy.gs0 [[1]] 95 Toy.fl Toy.w0 eq_refl).
  left. discriminate.
Defined.

(** Witness of X9: an empty Hessian. *)
Lemma init_optimal_negative_gauge_witness :
  exists msg,
    init 0 [] 95 Toy.fl "optimal gate CIs" Toy.w0 =
    (World (heap Toy.w0)
       (events Toy.w0 ++
        [EvPrint (PrStr EmptyString);
         EvPrint (PrStr "--- Hessian Projector Optimization for gate CIs (L-BFGS-B) ---")]),
     inl (ValueError msg)).
Proof.
  apply (init_optimal_negative_gauge 0%nat Toy.gs0 [] 95 Toy.fl Toy.w0 eq_refl).
  cbn. lia.
Defined.

End ToyRunsMore.

Section ToyOptimizer.
Local Open Scope R_scope.
Existing Instance Toy.api.
Existing Instance Toy.providers.

Lemma toy_init_from_projected nG cl ph w :
  0 < cl -> cl < 100 -> heap w !! 0%nat = Some (ObjGateSet Toy.gs0) ->
  init_from_projected 0 Toy.fl 1 nG cl ph w =
  (World (heap w) (events w ++ events_of_init cl ph),
   inr (region_from 0 Toy.fl 1 nG cl ph (get_vector_offsets Toy.gs0 Toy.fl))).
Proof.
  intros Hpos Hlt Hgs.
  apply init_from_projected_run; try done.
  - apply toy_isclose.
  - cbn [eigh Toy.providers fst snd]. rewrite tabulate_length.
    destruct (decide (nrows (mx_div ph (chi2_ppf (cl / 100) 1)) = 0)%nat) as [->|Hnz];
      [done|].
    by rewrite ncols_mx_of_fun by lia.
  - cbn [eigh Toy.providers fst snd]. by rewrite tabulate_length, nrows_mx_of_fun.
Qed.

(** One evaluation of the objective in the example, at the starting point. *)
Lemma toy_objective_run w :
  heap w !! 0%nat = Some (ObjGateSet Toy.gs0) ->
  exists v,
    objective_func init_none 0 Toy.H 1 1 Toy.fl 95 [0] w =
    (World (heap w) (events w ++ events_of_init 95 Toy.PHP), inr v).
Proof.
  intros Hgs. eexists. unfold objective_func.
  erewrite bind_run_inr by reflexivity.
  erewrite bind_run_inr by (by apply read_gateset_run).
  erewrite bind_run_inr by reflexivity.
  erewrite bind_run_inr by reflexivity.
  erewrite bind_run_inr; cycle 1.
  { unfold init_none. rewrite (init_with_run _ _ _ _ _ _ _ Toy.gs0) by done.
    erewrite bind_run_inr by apply project_hessian_none.
    apply toy_init_from_projected; [lra|lra|done]. }
  erewrite bind_run_inr by (by apply read_gateset_run).
  erewrite bind_run_inr by reflexivity.
  reflexivity.
Qed.

Lemma toy_run_optimal :
  exists w' r, init 0 Toy.H 95 Toy.fl "optimal gate CIs" Toy.w0 = (w', inr r).
Proof.
  destruct (toy_objective_run
              (World (heap Toy.w0)
                 (events Toy.w0 ++
                  [EvPrint (PrStr EmptyString);
                   EvPrint (PrStr
                     "--- Hessian Projector Optimization for gate CIs (L-BFGS-B) ---")]))
              eq_refl) as [v Hv].
  eexists _, _. unfold init.
  rewrite (init_with_run _ _ _ _ _ _ _ Toy.gs0) by done.
  erewrite bind_run_inr; cycle 1.
  { rewrite project_hessian_optimal.
    unfold optProjectionForGateCIs, optProjectionForGateCIs_with.
    erewrite bind_run_inr by apply when_emit_run.
    erewrite bind_run_inr by apply when_emit_run.
    erewrite bind_run_inr by reflexivity.
    erewrite bind_run_inr; cycle 1.
    { cbn [minimize Toy.providers]. erewrite bind_run_inr; [reflexivity|].
      cbn. exact Hv. }
    erewrite bind_run_inr by reflexivity.
    erewrite bind_run_inr by reflexivity.
    erewrite bind_run_inr by reflexivity.
    erewrite bind_run_inr by reflexivity.
    erewrite bind_run_inr by apply when_emit_run.
    reflexivity. }
  apply toy_init_from_projected; [lra|lra|done].
Qed.

(** Witness of X10. *)
Lemma init_optimal_quadratic_form_witness :
  exists w' r,
    init 0 Toy.H 95 Toy.fl "optimal gate CIs" Toy.w0 = (w', inr r) /\
    regionQuadcForm r = mx_div Toy.PHP 1 /\
    nNonGaugeParams r = 1%nat /\ nGaugeParams r = 1%Z.
Proof.
  destruct toy_run_optimal as (w' & r & Hrun).
  exists w', r. split; [exact Hrun|].
  destruct (init_optimal_quadratic_form _ _ _ _ _ _ _ Hrun)
    as (gs & w2 & minSol & mixMx & gs2 & Hgs & _ & _ & _ & _ & _ & _ & _ & _ & Hr & HQ).
  injection Hgs as <-.
  split; [exact HQ|]. rewrite Hr. split; reflexivity.
Defined.

(** Witness of X11. *)
Lemma objective_func_evaluation_witness :
  exists w' v,
    objective_func init_none 0 Toy.H 1 1 Toy.fl 95 [0] Toy.w0 = (w', inr v) /\
    0 <= v /\
    w' = World (heap Toy.w0) (events Toy.w0 ++ events_of_init 95 Toy.PHP).
Proof.
  destruct (toy_objective_run Toy.w0 eq_refl) as [v Hv].
  eexists _, v. split; [exact Hv|].
  destruct (objective_func_evaluation _ _ _ _ _ _ _ _ _ _ Hv)
    as (matM & gs & cis & _ & _ & _ & _ & _ & _ & _ & _ & _ & Hpos).
  split; [exact Hpos|reflexivity].
Defined.

End ToyOptimizer.

Section ToyPropagation.
Local Open Scope R_scope.
Existing Instance Toy.api.
Existing Instance Toy.providers.

(** Witness of X12: the intervals of ["Gx"], and a label without offsets. *)
Lemma profile_intervals_by_label_witness :
  get_profile_likelihood_confidence_intervals (Toy.region Toy.fl) (Some "Gy") Toy.w0
    = (Toy.w0, inl (KeyError "Gy")) /\
  exists v,
    get_profile_likelihood_confidence_intervals (Toy.region Toy.fl) (Some "Gx") Toy.w0
      = (Toy.w0, inr v) /\ length v = 1%nat.
Proof.
  split.
  - exact (proj1 (profile_intervals_by_label (Toy.region Toy.fl) "Gy" Toy.w0) eq_refl).
  - destruct (proj2 (profile_intervals_by_label (Toy.region Toy.fl) "Gx" Toy.w0)
                0%nat 1%nat eq_refl) as (v & Hrun & Hlen & _).
    exists v. split; [exact Hrun|exact Hlen].
Defined.

(** Witness of X13: the four calls on the example. *)
Lemma half_widths_nonneg_witness :
  (exists w' res,
     compute_df_from_gradF (Toy.region Toy.fl) (GradFloat [0; 1]) (PyFloat 5) false 0
       Toy.w0 = (w', inr res) /\ fval_nonneg (df_of res)) /\
  (exists w' res,
     get_gate_fn_confidence_interval (Toy.region Toy.fl) Toy.fnEntry "Gx" (1 / 2)
       false 0 Toy.w0 = (w', inr res) /\ fval_nonneg (df_of res)) /\
  (exists w' res,
     get_gateset_fn_confidence_interval (Toy.region Toy.fl) ToyMore.fnAffine (1 / 2)
       true 1 Toy.w0 = (w', inr res) /\ fval_nonneg (df_of res)) /\
  (exists w' res,
     get_spam_fn_confidence_interval (Toy.region Toy.fl) ToyMore.fnRho (1 / 2)
       false 0 Toy.w0 = (w', inr res) /\ fval_nonneg (df_of res)).
Proof.
  repeat split.
  - destruct (returns_inr
                (compute_df_from_gradF (Toy.region Toy.fl) (GradFloat [0; 1]) (PyFloat 5)
                   false 0 Toy.w0)) as (w' & res & Hrun); [by vm_compute|].
    exists w', res. split; [exact Hrun|].
    exact (proj1 (half_widths_nonneg (Toy.region Toy.fl) Toy.fnEntry "Gx"
                    ToyMore.fnAffine ToyMore.fnRho (GradFloat [0; 1]) (PyFloat 5)
                    (1 / 2) false 0 Toy.w0 w' res) Hrun).
  - destruct (returns_inr
                (get_gate_fn_confidence_interval (Toy.region Toy.fl) Toy.fnEntry "Gx"
                   (1 / 2) false 0 Toy.w0)) as (w' & res & Hrun); [by vm_compute|].
    exists w', res. split; [exact Hrun|].
    exact (proj1 (proj2 (half_widths_nonneg (Toy.region Toy.fl) Toy.fnEntry "Gx"
                    ToyMore.fnAffine ToyMore.fnRho (GradFloat [0; 1]) (PyFloat 5)
                    (1 / 2) false 0 Toy.w0 w' res)) Hrun).
  - destruct (returns_inr
                (get_gateset_fn_confidence_interval (Toy.region Toy.fl) ToyMore.fnAffine
                   (1 / 2) true 1 Toy.w0)) as (w' & res & Hrun); [by vm_compute|].
    exists w', res. split; [exact Hrun|].
    exact (proj1 (proj2 (proj2 (half_widths_nonneg (Toy.region Toy.fl) Toy.fnEntry "Gx"
                    ToyMore.fnAffine ToyMore.fnRho (GradFloat [0; 1]) (PyFloat 5)
                    (1 / 2) true 1 Toy.w0 w' res))) Hrun).
  - destruct (returns_inr
                (get_spam_fn_confidence_interval (Toy.region Toy.fl) ToyMore.fnRho
                   (1 / 2) false 0 Toy.w0)) as (w' & res & Hrun); [by vm_compute|].
    exists w', res. split; [exact Hrun|].
    exact (proj2 (proj2 (proj2 (half_widths_nonneg (Toy.region Toy.fl) Toy.fnEntry "Gx"
                    ToyMore.fnAffine ToyMore.fnRho (GradFloat [0; 1]) (PyFloat 5)
                    (1 / 2) false 0 Toy.w0 w' res))) Hrun).
Defined.

(** Witness of X15: a gradient of one entry for the 2 x 2 form. *)
Lemma compute_df_misaligned_witness :
  exists msg,
    (compute_df_from_gradF (Toy.region Toy.fl) (GradFloat [1]) (PyFloat 5) false 0
       Toy.w0).2 = inl (ValueError msg).
Proof.
  apply (compute_df_misaligned (Toy.region Toy.fl) [1] 5 false 0 Toy.w0).
  left. discriminate.
Defined.

(** Witness of X16: the gradient [(0, 1)] and three times it. *)
Lemma compute_df_homogeneous_witness :
  exists w' d,
    compute_df_from_gradF (Toy.region Toy.fl) (GradFloat [0; 1]) (PyFloat 5) false 0
      Toy.w0 = (w', inr (Df (PyFloat d))) /\
    compute_df_from_gradF (Toy.region Toy.fl) (GradFloat (map (Rmult 3) [0; 1]))
      (PyFloat 7) false 0 Toy.w0 = (w', inr (Df (PyFloat (Rabs 3 * d)))).
Proof.
  assert (Hrun : exists w' d,
    compute_df_from_gradF (Toy.region Toy.fl) (GradFloat [0; 1]) (PyFloat 5) false 0
      Toy.w0 = (w', inr (Df (PyFloat d)))).
  { eexists _, _. unfold compute_df_from_gradF.
    erewrite bind_run_inr by apply when_emit_run.
    erewrite bind_run_inr; cycle 1.
    { erewrite bind_run_inr by (by apply quad_halfwidth_run). reflexivity. }
    erewrite bind_run_inr by apply when_emit_run.
    reflexivity. }
  destruct Hrun as (w' & d & Hrun). exists w', d. split; [exact Hrun|].
  exact (compute_df_homogeneous (Toy.region Toy.fl) [0; 1] 5 7 3 d Toy.w0 w' Hrun).
Defined.

(** Witness of X17: an array-valued function of the SPAM vectors, with the
    [SPAM] flag off. *)
Lemma spam_fn_inactive_zero_witness :
  get_spam_fn_confidence_interval (Toy.region ToyMore.fl_nospam) ToyMore.fnPairOfSpam
    (1 / 2) false 0 Toy.w0
  = (World (heap Toy.w0) (events Toy.w0 ++ []),
     inr (Df (RealArray (NdArray [2%nat] [0; 0])))).
Proof.
  apply (spam_fn_inactive_zero (Toy.region ToyMore.fl_nospam) ToyMore.fnPairOfSpam
           (1 / 2) false 0 Toy.w0 Toy.gs0 eq_refl eq_refl eq_refl eq_refl).
  cbn. lia.
Defined.

(** Witness of X18: a label the gate set does not have, and one whose
    offsets the region does not have. *)
Lemma gate_fn_unknown_label_witness :
  get_gate_fn_confidence_interval (Toy.region Toy.fl) Toy.fnEntry "Gy" (1 / 2) false 0
    Toy.w0 = (Toy.w0, inl (KeyError "Gy")) /\
  (get_gate_fn_confidence_interval ToyMore.bare Toy.fnEntry "Gx" (1 / 2) false 0
     Toy.w0).2 = inl (KeyError "Gx").
Proof.
  split.
  - exact (proj1 (gate_fn_unknown_label (Toy.region Toy.fl) Toy.fnEntry "Gy" (1 / 2)
                    false 0 Toy.w0 Toy.gs0 eq_refl) (or_introl eq_refl)).
  - rewrite (proj2 (gate_fn_unknown_label ToyMore.bare Toy.fnEntry "Gx" (1 / 2)
                      false 0 Toy.w0 Toy.gs0 eq_refl) [[1]] [1] eq_refl eq_refl eq_refl).
    reflexivity.
Defined.

(** Witness of X19. *)
Lemma gate_fn_gradF_bounds_witness :
  exists w' gradF f0,
    gate_fn_gradF (Toy.region Toy.fl) Toy.fnEntry "Gx" (1 / 2) Toy.w0
      = (w', inr (gradF, f0)) /\
    grad_length gradF = 2%nat.
Proof.
  destruct (returns_inr
              (gate_fn_gradF (Toy.region Toy.fl) Toy.fnEntry "Gx" (1 / 2) Toy.w0))
    as (w' & [gradF f0] & Hrun); [by vm_compute|].
  exists w', gradF, f0. split; [exact Hrun|].
  destruct (gate_fn_gradF_bounds _ _ _ _ _ _ _ _ Hrun)
    as (gs & g & gpo & stop & Hgs & _ & _ & Hlen & _).
  injection Hgs as <-. exact Hlen.
Defined.

(** Witness of X20: [1 + 3·v[0] + 4·v[1]] on the example. *)
Lemma gateset_fn_affine_witness :
  exists w',
    get_gateset_fn_confidence_interval (Toy.region Toy.fl) ToyMore.fnAffine (1 / 2)
      false 0 Toy.w0
    = (w', inr (Df (PyFloat (sqrt (Rabs (vdot [3; 4]
                       (mvdot (invRegionQuadcForm (Toy.region Toy.fl)) [3; 4]))))))).
Proof.
  destruct (gateset_fn_affine (Toy.region Toy.fl) ToyMore.fnAffine [3; 4] 1 (1 / 2)
              false 0 Toy.w0 Toy.gs0 eq_refl eq_refl
              (fun _ _ _ => eq_refl) (fun _ => eq_refl) eq_refl
              ltac:(lra) eq_refl eq_refl) as [s' Hrun].
  eexists. exact Hrun.
Defined.


(** Witness of X23: the region without offsets. *)
Lemma spam_fn_missing_offsets_witness :
  (get_spam_fn_confidence_interval ToyMore.bare ToyMore.fnRho (1 / 2) false 0
     Toy.w0).2 = inl (KeyError "rho0").
Proof.
  rewrite (spam_fn_missing_offsets ToyMore.bare ToyMore.fnRho (1 / 2) false 0 Toy.w0
             Toy.gs0 [5] [] eq_refl eq_refl eq_refl eq_refl).
  reflexivity.
Defined.

End ToyPropagation.

Section ToyShort.
Local Open Scope R_scope.
Existing Instance ToyMore.api_short.
Existing Instance ToyMore.providers_short.

(** Witness of X22: a gate set of two parameters whose vector has one. *)
Lemma gateset_fn_length_assertion_witness :
  (get_gateset_fn_confidence_interval (Toy.region Toy.fl) (fun _ => PyFloat 5) (1 / 2)
     false 0 ToyMore.w_short).2 = inl AssertionError.
Proof.
  rewrite (gateset_fn_length_assertion (Toy.region Toy.fl) (fun _ => PyFloat 5) (1 / 2)
             false 0 ToyMore.w_short [1; 5] eq_refl ltac:(discriminate)).
  reflexivity.
Defined.

End ToyShort.
